(** * ansible-risk-insight: the risk detector and the sample annotator

    A shallow embedding of
    - [ansible_risk_insight/risk_detector.py]: [indent], [key2name],
      [make_subject_str] and [detect];
    - [ansible_risk_insight/annotators/sample_custom_annotator.py]:
      [SampleCustomAnnotator.homebrew].

    Conventions of the embedding.
    - A Python [str] is a [string]; its characters are read as 7-bit ASCII
      code points (this matters for [str.upper], [str.splitlines] and
      [repr] only).
    - Python [int]s that count things are [nat].
    - A [dict] whose iteration order is observed ([separate_report],
      [result_dict]) is an insertion-ordered association list [odict]; a
      [dict] that is only read by key ([role_to_playbook_mappings], option
      mappings) is a [gmap]; a [set] is a [gset].
    - Exceptions are values of [result]: [detect] either returns its pair of
      reports or raises.
    - The lists stored in [role_to_playbook_mappings] are mutable objects
      that report records keep references to.  There is one such object per
      key, it is never replaced, so a reference is the key itself
      ([MappingList]), and a record is read through the final mapping. *)

From Stdlib Require Import Ascii.
From stdpp Require Import gmap strings list fin_maps pretty.

Set Warnings "-register-all".

(** ** The Python [str] primitives the two modules call *)

Module PyStr.

Definition chr (n : nat) : ascii := Ascii.ascii_of_nat n.
Definition ord (c : ascii) : nat := Ascii.nat_of_ascii c.

Definition nl : string := String (chr 10) "".

(** [c * n] for a one-character string. *)
Definition times (c : string) (n : nat) : string := String.concat "" (replicate n c).

(** [sep.join(l)] *)
Definition join (sep : string) (l : list string) : string := String.concat sep l.

(** [s.split(sep)] for a separator that is not empty: matches are taken left
    to right and do not overlap.  [skip] counts the characters of a matched
    separator that are still to be dropped. *)
Fixpoint split_go (sep : string) (skip : nat) (s : string) : list string :=
  match s with
  | "" => [""]
  | String c s' =>
      match skip with
      | S k => split_go sep k s'
      | O =>
          if String.prefix sep s
          then "" :: split_go sep (String.length sep - 1) s'
          else match split_go sep 0 s' with
               | h :: t => String c h :: t
               | [] => [String c ""]
               end
      end
  end.

(** [l[-1]] for the result of a split, which is never empty. *)
Definition last_part (l : list string) : string := List.last l "".

(** [os.path.basename] of [posixpath]: what follows the last slash. *)
Definition basename (p : string) : string := last_part (split_go "/" 0 p).

(** [s.replace(old, new)], all occurrences, left to right.  With an empty
    [old], Python puts [new] before every character and at the end. *)
Fixpoint replace_go (old new : string) (skip : nat) (s : string) : string :=
  match s with
  | "" => ""
  | String c s' =>
      match skip with
      | S k => replace_go old new k s'
      | O =>
          if String.prefix old s
          then new +:+ replace_go old new (String.length old - 1) s'
          else String c (replace_go old new 0 s')
      end
  end.

Fixpoint intersperse_go (new : string) (s : string) : string :=
  match s with
  | "" => new
  | String c s' => new +:+ String c (intersperse_go new s')
  end.

Definition replace (old new s : string) : string :=
  match old with
  | "" => intersperse_go new s
  | _ => replace_go old new 0 s
  end.

Definition upper_char (c : ascii) : ascii :=
  let n := ord c in
  if (97 <=? n)%nat && (n <=? 122)%nat then chr (n - 32) else c.

(** [s.upper()] on ASCII text. *)
Fixpoint upper (s : string) : string :=
  match s with
  | "" => ""
  | String c s' => String (upper_char c) (upper s')
  end.

(** The ASCII line boundaries of [str.splitlines]: LF, VT, FF, CR, FS, GS,
    RS. *)
Definition is_linebreak (c : ascii) : bool :=
  let n := ord c in
  (n =? 10)%nat || (n =? 11)%nat || (n =? 12)%nat || (n =? 13)%nat
  || (n =? 28)%nat || (n =? 29)%nat || (n =? 30)%nat.

(** [s.splitlines()]: [cur] is the line being read, [after_cr] says that the
    previous character was a CR, so that a LF now belongs to the same
    boundary.  A last line is produced only if it has characters. *)
Fixpoint splitlines_go (cur : string) (after_cr : bool) (s : string) : list string :=
  match s with
  | "" => match cur with "" => [] | _ => [cur] end
  | String c s' =>
      if is_linebreak c then
        if after_cr && (ord c =? 10)%nat
        then splitlines_go cur false s'
        else cur :: splitlines_go "" (ord c =? 13)%nat s'
      else splitlines_go (cur +:+ String c "") false s'
  end.

Definition splitlines (s : string) : list string := splitlines_go "" false s.

Definition hex_digit (n : nat) : ascii :=
  if (n <? 10)%nat then chr (48 + n) else chr (87 + n).

(** [repr] of one character inside a string literal quoted by [q]. *)
Definition repr_char (q : ascii) (c : ascii) : string :=
  let n := ord c in
  if (n =? ord q)%nat || (n =? 92)%nat then String (chr 92) (String c "")
  else if (n =? 9)%nat then "\t"
  else if (n =? 10)%nat then "\n"
  else if (n =? 13)%nat then "\r"
  else if (n <? 32)%nat || (n =? 127)%nat
       then "\x" +:+ String (hex_digit (n / 16)) (String (hex_digit (n mod 16)) "")
  else String c "".

Fixpoint repr_body (q : ascii) (s : string) : string :=
  match s with
  | "" => ""
  | String c s' => repr_char q c +:+ repr_body q s'
  end.

Fixpoint contains_char (c : ascii) (s : string) : bool :=
  match s with
  | "" => false
  | String d s' => (ord c =? ord d)%nat || contains_char c s'
  end.

(** [repr(s)]: single quotes, unless [s] has a single quote and no double
    quote. *)
Definition repr_str (s : string) : string :=
  let q := if contains_char (chr 39) s && negb (contains_char (chr 34) s)
           then chr 34 else chr 39 in
  String q (repr_body q s) +:+ String q "".

(** [repr(l)] for a list of strings, as [str.format] prints it. *)
Definition repr_list (l : list string) : string :=
  "[" +:+ join ", " (repr_str <$> l) +:+ "]".

(** [str(n)] *)
Definition of_nat (n : nat) : string := pretty n.

(** [str(x)] for a value that is a string or [None]. *)
Definition of_opt (o : option string) : string := default "None" o.

End PyStr.

(** ** Python values, as far as option mappings need them *)

Inductive pyval : Type :=
  | PyNone
  | PyBool (b : bool)
  | PyInt (z : Z)
  | PyStr (s : string)
  | PyList (l : list pyval)
  | PyDict (d : gmap string pyval).

(** ** sample_custom_annotator.py *)

Module SampleCustomAnnotator.

(** [type(options) is not dict] *)
Definition is_dict (options : pyval) : bool :=
  match options with PyDict _ => true | _ => false end.

(** [options["state"] == "absent"] *)
Definition eq_absent (v : pyval) : bool :=
  match v with PyStr s => bool_decide (s = "absent") | _ => false end.

Definition homebrew (options : pyval) : gmap string pyval :=
  let data : gmap string pyval := ∅ in
  match options with
  | PyDict d =>
      let data :=
        match d !! "name" with
        | Some v => <["pkg" := v]> data
        | None => data
        end in
      let data :=
        match d !! "state" with
        | Some v => if eq_absent v then <["delete" := PyBool true]> data else data
        | None => data
        end in
      data
  | _ => data
  end.

End SampleCustomAnnotator.

(** ** Exceptions *)

Inductive exn : Type := IndexError | ValueError.

Inductive result (A : Type) : Type :=
  | Ok (a : A)
  | Raise (e : exn).
Arguments Ok {A} a.
Arguments Raise {A} e.

#[global] Instance result_ret : MRet result := @Ok.
#[global] Instance result_bind : MBind result :=
  fun A B f m => match m with Ok a => f a | Raise e => Raise e end.
#[global] Instance result_fmap : FMap result :=
  fun A B f m => match m with Ok a => Ok (f a) | Raise e => Raise e end.

(** [for x in l: acc = body(acc, x)], stopping at the first exception. *)
Fixpoint for_each {A S : Type} (body : S -> A -> result S) (acc : S) (l : list A) : result S :=
  match l with
  | [] => Ok acc
  | x :: l' => acc' ← body acc x; for_each body acc' l'
  end.

(** ** Insertion-ordered dictionaries with string keys *)

Definition odict (V : Type) : Type := list (string * V).

Fixpoint od_get {V : Type} (k : string) (d : odict V) : option V :=
  match d with
  | [] => None
  | (k', v) :: d' => if bool_decide (k' = k) then Some v else od_get k d'
  end.

(** [k in d] *)
Definition od_mem {V : Type} (k : string) (d : odict V) : bool :=
  match od_get k d with Some _ => true | None => false end.

(** [if k not in d: d[k] = v] *)
Definition od_setdefault {V : Type} (k : string) (v : V) (d : odict V) : odict V :=
  if od_mem k d then d else d ++ [(k, v)].

(** [d[k] = f(d[k])] for a key that is present: the entry keeps its place. *)
Fixpoint od_adjust {V : Type} (f : V -> V) (k : string) (d : odict V) : odict V :=
  match d with
  | [] => []
  | (k', v) :: d' =>
      if bool_decide (k' = k) then (k', f v) :: d' else (k', v) :: od_adjust f k d'
  end.

(** ** The records the detector reads *)

(** Modelled from the spec: [models.TaskCall] and its [spec], which are not
    among the sources.  The spec's data model gives a task call a static
    definition with a [module_options] mapping and a [defined_in] path, and a
    resolved module name; the detector reads [spec.defined_in] only. *)
Record TaskSpec : Type := {
  defined_in : string;
  resolved_name : string;
  module_options : pyval;
}.

Record TaskCall : Type := { spec : TaskSpec }.

(** Modelled from the spec: [models.TaskCallsInTree], one root and the task
    calls reachable from it. *)
Record TaskCallsInTree : Type := {
  root_key : string;
  taskcalls : list TaskCall;
}.

(** An element of the list handed to [detect]: Python does not enforce the
    annotation [List[TaskCallsInTree]], and [detect] tests [isinstance]. *)
Inductive ForestItem : Type :=
  | Tree (t : TaskCallsInTree)
  | NotATree.

(** Modelled from the spec: the rule objects of [ansible_risk_insight.rules]:
    [name], [enabled], [separate_report], [all_ok_message] and a pure
    [check] over one tree's task list and the optional [collection_name];
    [check] returns [(matched, _, message)]. *)
Module Rule.
Record t : Type := {
  name : string;
  enabled : bool;
  separate_report : bool;
  all_ok_message : string;
  check : list TaskCall -> option string -> bool * string;
}.
End Rule.

(** One row of a rule's table: [[tree_root_label, tree_root_name, message]]. *)
Record Row : Type := {
  row_label : string;
  row_name : option string;
  row_message : string;
}.

(** What [risk_detector] imports and the sources do not contain:
    [keyutil.detect_type], [keyutil.key_delimiter],
    [rules.base.subject_placeholder] and the library function
    [tabulate(rows, tablefmt="plain")]. *)
Class Imports : Type := {
  detect_type : string -> string;
  key_delimiter : string;
  subject_placeholder : string;
  tabulate : list Row -> string;
}.

(** ** risk_detector.py *)

Module RiskDetector.
Import PyStr.

Definition dashes : string := times "-" 90.

(** [line.replace(" ", "") != ""] *)
Definition not_blank (line : string) : bool :=
  negb (bool_decide (replace " " "" line = "")).

Definition indent (multi_line_txt : string) (level : nat) : string :=
  let lines := splitlines multi_line_txt in
  let lines := (fun line => times " " level +:+ line) <$> filter (fun line => not_blank line = true) lines in
  join nl lines.

(** [key.split(sep)]: an empty separator is a [ValueError]. *)
Definition py_split (sep : string) (s : string) : result (list string) :=
  match sep with
  | "" => Raise ValueError
  | _ => Ok (split_go sep 0 s)
  end.

Definition make_subject_str (playbook_num role_num : nat) : string :=
  let subject := "" in
  if (0 <? playbook_num)%nat && (0 <? role_num)%nat then "playbooks/roles"
  else if (0 <? playbook_num)%nat then "playbooks"
  else if (0 <? role_num)%nat then "roles"
  else subject.

(** A reference to a list object held by a report record: the list that
    [role_to_playbook_mappings] stores under a role name, or the fresh empty
    list that [dict.get(name, [])] makes when the name is not a key. *)
Inductive ListRef : Type :=
  | FreshList
  | MappingList (role_name : string).

(** An element of [result_dict[rule_name]]; [rec_playbooks] is [None] when
    the key ["playbooks_use_this_role"] is not set. *)
Record ResultRecord : Type := {
  rec_type : string;
  rec_name : option string;
  rec_message : string;
  rec_playbooks : option ListRef;
}.

(** [separate_report[rule_name]] *)
Record TableEntry : Type := {
  te_rule : Rule.t;
  te_matched : list Row;
}.

Record Count : Type := { total : nat; risk : nat }.

(** What the loop over the rules assigns. *)
Record RuleAcc : Type := {
  acc_separate_report : odict TableEntry;
  acc_result_dict : odict (list ResultRecord);
  do_report : bool;
  tmp_result_txt_alt : string;
}.

(** What the loop over the trees carries from one tree to the next. *)
Record State : Type := {
  report_num : nat;
  playbook_count : Count;
  role_count : Count;
  separate_report : odict TableEntry;
  role_to_playbook_mappings : gmap string (list string);
  risk_found_playbooks : gset string;
  tmp_result_txt : string;
  result_dict : odict (list ResultRecord);
}.

(** The structured report. *)
Record SummaryEntry : Type := { summary_total : nat; risk_found : nat }.

Record ReportRecord : Type := {
  type_ : string;
  name_ : option string;
  message_ : string;
  playbooks_use_this_role : option (list string);
}.

Record DetailEntry : Type := { rule : string; results : list ReportRecord }.

Record DataReport : Type := {
  summary : odict SummaryEntry;
  details : list DetailEntry;
}.

(** [role_to_playbook_mappings.get(name, [])], by value and by reference. *)
Definition mapping_get (m : gmap string (list string)) (name : option string) : list string :=
  match name with
  | Some n => default [] (m !! n)
  | None => []
  end.

Definition mapping_ref (m : gmap string (list string)) (name : option string) : ListRef :=
  match name with
  | Some n => match m !! n with Some _ => MappingList n | None => FreshList end
  | None => FreshList
  end.

Definition deref (m : gmap string (list string)) (r : ListRef) : list string :=
  match r with
  | FreshList => []
  | MappingList n => default [] (m !! n)
  end.

(** [result_dict[rule_name].append(r)], after [result_dict[rule_name] = []]
    for a new name. *)
Definition result_dict_append (rule_name : string) (r : ResultRecord)
    (d : odict (list ResultRecord)) : odict (list ResultRecord) :=
  od_adjust (fun l => l ++ [r]) rule_name (od_setdefault rule_name [] d).

Definition add_row (row : Row) (e : TableEntry) : TableEntry :=
  {| te_rule := te_rule e; te_matched := te_matched e ++ [row] |}.

Section Detect.
Context `{Imports}.

Definition key2name (key : string) : result (option string) :=
  let _type := detect_type key in
  if bool_decide (_type = "playbook") then
    parts ← py_split key_delimiter key; Ok (Some (basename (last_part parts)))
  else if bool_decide (_type = "role") then
    parts ← py_split key_delimiter key; Ok (Some (last_part parts))
  else Ok None.

(** Lines 96-103: the body of the loop over the task calls of a playbook. *)
Definition taskcall_body (tree_root_name : string)
    (m : gmap string (list string)) (taskcall : TaskCall) : result (gmap string (list string)) :=
  let parts := split_go "/" 0 (defined_in (spec taskcall)) in
  match parts with
  | [] => Raise IndexError
  | part0 :: _ =>
      if bool_decide (part0 = "roles") then
        match parts !! 1%nat with
        | None => Raise IndexError
        | Some role_name =>
            let _mappings := default [] (m !! role_name) in
            let _mappings :=
              if bool_decide (tree_root_name ∈ _mappings) then _mappings
              else _mappings ++ [tree_root_name] in
            Ok (<[role_name := _mappings]> m)
        end
      else Ok m
  end.

(** Lines 110-152: the body of the loop over the rules, for one tree. *)
Definition rule_body (extra_check_args : option string)
    (tree_root_type : string) (tree_root_name : option string) (is_playbook : bool)
    (tasks : list TaskCall) (m : gmap string (list string))
    (acc : RuleAcc) (r : Rule.t) : RuleAcc :=
  if negb (Rule.enabled r) then acc else
  let rule_name := Rule.name r in
  let '(matched, message) := Rule.check r tasks extra_check_args in
  let sep :=
    if Rule.separate_report r
    then od_setdefault rule_name {| te_rule := r; te_matched := [] |} (acc_separate_report acc)
    else acc_separate_report acc in
  if matched then
    if Rule.separate_report r then
      let tree_root_label := tree_root_type in
      {| acc_separate_report :=
           od_adjust (add_row {| row_label := tree_root_label; row_name := tree_root_name;
                                 row_message := message |}) rule_name sep;
         acc_result_dict :=
           result_dict_append rule_name
             {| rec_type := tree_root_type; rec_name := tree_root_name;
                rec_message := message; rec_playbooks := None |}
             (acc_result_dict acc);
         do_report := do_report acc;
         tmp_result_txt_alt := tmp_result_txt_alt acc |}
    else if negb is_playbook then
      {| acc_separate_report := sep;
         acc_result_dict :=
           result_dict_append rule_name
             {| rec_type := tree_root_type; rec_name := tree_root_name;
                rec_message := message;
                rec_playbooks := Some (mapping_ref m tree_root_name) |}
             (acc_result_dict acc);
         do_report := true;
         tmp_result_txt_alt :=
           tmp_result_txt_alt acc +:+ rule_name +:+ nl +:+ indent message 0 +:+ nl |}
    else
      {| acc_separate_report := sep; acc_result_dict := acc_result_dict acc;
         do_report := do_report acc; tmp_result_txt_alt := tmp_result_txt_alt acc |}
  else
    {| acc_separate_report := sep; acc_result_dict := acc_result_dict acc;
       do_report := do_report acc; tmp_result_txt_alt := tmp_result_txt_alt acc |}.

(** Lines 154-160: the numbered section of one tree. *)
Definition section_txt (n : nat) (tree_root_type : string) (tree_root_name : option string)
    (used_in_playbooks : list string) (alt : string) : string :=
  "#" +:+ of_nat n +:+ " " +:+ upper tree_root_type +:+ " - " +:+ of_opt tree_root_name +:+ nl
  +:+ (if (0 <? length used_in_playbooks)%nat
       then "(used_in: " +:+ repr_list used_in_playbooks +:+ ")" +:+ nl else "")
  +:+ alt
  +:+ dashes +:+ nl.

(** Lines 92-105: the totals, and for a playbook the loop over its task
    calls.  [key2name] gives a playbook a name, so the last case of the
    [match] is never taken (lemma [key2name_playbook]). *)
Definition update_mappings (is_playbook : bool) (tree_root_name : option string)
    (tasks : list TaskCall) (m : gmap string (list string)) : result (gmap string (list string)) :=
  if is_playbook then
    match tree_root_name with
    | Some playbook_name => for_each (taskcall_body playbook_name) m tasks
    | None => Ok m
    end
  else Ok m.

Definition count_tree (is_playbook : bool) (st : State) : Count * Count :=
  if is_playbook
  then ({| total := total (playbook_count st) + 1; risk := risk (playbook_count st) |},
        role_count st)
  else (playbook_count st,
        {| total := total (role_count st) + 1; risk := risk (role_count st) |}).

(** Lines 107-152: the loop over the rules. *)
Definition rule_loop (rules : list Rule.t) (extra_check_args : option string)
    (tree_root_type : string) (tree_root_name : option string) (is_playbook : bool)
    (tasks : list TaskCall) (m : gmap string (list string)) (st : State) : RuleAcc :=
  foldl (rule_body extra_check_args tree_root_type tree_root_name is_playbook tasks m)
        {| acc_separate_report := separate_report st;
           acc_result_dict := result_dict st;
           do_report := false; tmp_result_txt_alt := "" |}
        rules.

(** Lines 153-165: the section of the tree and its risk counter. *)
Definition close_tree (tree_root_type : string) (tree_root_name : option string)
    (is_playbook : bool) (m : gmap string (list string)) (acc : RuleAcc) (st : State) : State :=
  let '(playbook_count1, role_count1) := count_tree is_playbook st in
  if do_report acc && negb (bool_decide (tmp_result_txt_alt acc = "")) then
    let used_in_playbooks := mapping_get m tree_root_name in
    {| report_num := report_num st + 1;
       playbook_count :=
         if is_playbook
         then {| total := total playbook_count1; risk := risk playbook_count1 + 1 |}
         else playbook_count1;
       role_count :=
         if is_playbook then role_count1
         else {| total := total role_count1; risk := risk role_count1 + 1 |};
       separate_report := acc_separate_report acc;
       role_to_playbook_mappings := m;
       risk_found_playbooks := risk_found_playbooks st ∪ list_to_set used_in_playbooks;
       tmp_result_txt :=
         tmp_result_txt st +:+
         section_txt (report_num st) tree_root_type tree_root_name
                     used_in_playbooks (tmp_result_txt_alt acc);
       result_dict := acc_result_dict acc |}
  else
    {| report_num := report_num st;
       playbook_count := playbook_count1;
       role_count := role_count1;
       separate_report := acc_separate_report acc;
       role_to_playbook_mappings := m;
       risk_found_playbooks := risk_found_playbooks st;
       tmp_result_txt := tmp_result_txt st;
       result_dict := acc_result_dict acc |}.

(** Lines 85-166: the body of the loop over the trees. *)
Definition tree_body (rules : list Rule.t) (extra_check_args : option string)
    (st : State) (item : ForestItem) : result State :=
  match item with
  | NotATree => Ok st
  | Tree taskcalls_in_tree =>
      let tree_root_key := root_key taskcalls_in_tree in
      let tree_root_type := detect_type tree_root_key in
      tree_root_name ← key2name tree_root_key;
      let is_playbook := bool_decide (tree_root_type = "playbook") in
      m ← update_mappings is_playbook tree_root_name (taskcalls taskcalls_in_tree)
            (role_to_playbook_mappings st);
      let acc := rule_loop rules extra_check_args tree_root_type tree_root_name is_playbook
                   (taskcalls taskcalls_in_tree) m st in
      Ok (close_tree tree_root_type tree_root_name is_playbook m acc st)
  end.

Definition init : State :=
  {| report_num := 1;
     playbook_count := {| total := 0; risk := 0 |};
     role_count := {| total := 0; risk := 0 |};
     separate_report := [];
     role_to_playbook_mappings := ∅;
     risk_found_playbooks := ∅;
     tmp_result_txt := "";
     result_dict := [] |}.

(** A record as the caller of [detect] reads it: the list it refers to has
    the contents it has when [detect] returns. *)
Definition resolve (m : gmap string (list string)) (r : ResultRecord) : ReportRecord :=
  {| type_ := rec_type r; name_ := rec_name r; message_ := rec_message r;
     playbooks_use_this_role := deref m <$> rec_playbooks r |}.

(** Lines 167-169 *)
Definition details_of (st : State) : list DetailEntry :=
  (fun '(rule_name, records) =>
     {| rule := rule_name; results := resolve (role_to_playbook_mappings st) <$> records |})
  <$> result_dict st.

(** Lines 171-188 *)
Definition summary_of (st : State) : odict SummaryEntry :=
  (if (0 <? total (playbook_count st))%nat
   then [("playbooks", {| summary_total := total (playbook_count st);
                          risk_found := risk (playbook_count st) |})]
   else [])
  ++
  (if (0 <? total (role_count st))%nat
   then [("roles", {| summary_total := total (role_count st);
                      risk_found := risk (role_count st) |})]
   else []).

Definition summary_txt (st : State) : string :=
  (if (0 <? total (playbook_count st))%nat
   then "Playbooks" +:+ nl
        +:+ "  Total: " +:+ of_nat (total (playbook_count st)) +:+ nl
        +:+ "  Risk Found: " +:+ of_nat (size (risk_found_playbooks st)) +:+ nl
   else "")
  +:+
  (if (0 <? total (role_count st))%nat
   then "Roles" +:+ nl
        +:+ "  Total: " +:+ of_nat (total (role_count st)) +:+ nl
        +:+ "  Risk Found: " +:+ of_nat (risk (role_count st)) +:+ nl
   else "").

(** Lines 197-205: the text of one rule's table. *)
Definition table_txt (playbook_total role_total : nat) (e : TableEntry) : string :=
  let placeholder := subject_placeholder in
  let subject := make_subject_str playbook_total role_total in
  let table_txt := "  All " +:+ placeholder +:+ " are OK" in
  let table_txt :=
    if negb (bool_decide (Rule.all_ok_message (te_rule e) = ""))
    then "  " +:+ Rule.all_ok_message (te_rule e) else table_txt in
  if (0 <? length (te_matched e))%nat
  then tabulate (te_matched e)
  else replace placeholder subject table_txt.

(** Lines 193-207: one section per entry of [separate_report]. *)
Definition table_section (playbook_total role_total : nat) (entry : string * TableEntry) : string :=
  let '(label, rule_data) := entry in
  label +:+ nl +:+ indent (table_txt playbook_total role_total rule_data) 0 +:+ nl
  +:+ dashes +:+ nl.

Definition header_txt : string :=
  dashes +:+ nl +:+ "Ansible Risk Insight Report" +:+ nl +:+ dashes +:+ nl.

Definition render (st : State) : string * DataReport :=
  let result_txt :=
    header_txt +:+ summary_txt st +:+ dashes +:+ nl +:+ tmp_result_txt st
    +:+ String.concat ""
          (table_section (total (playbook_count st)) (total (role_count st))
           <$> separate_report st) in
  (result_txt, {| summary := summary_of st; details := details_of st |}).

(** Lines 64-66: [collection_name] is passed on to [check] when it is not
    empty. *)
Definition extra_check_args_of (collection_name : string) : option string :=
  if bool_decide (collection_name = "") then None else Some collection_name.

Definition run (rules : list Rule.t) (taskcalls_in_trees : list ForestItem)
    (collection_name : string) : result State :=
  for_each (tree_body rules (extra_check_args_of collection_name)) init taskcalls_in_trees.

(** [detect(taskcalls_in_trees, collection_name)], with the rules that
    [load_rules()] instantiates as a parameter. *)
Definition detect (rules : list Rule.t) (taskcalls_in_trees : list ForestItem)
    (collection_name : string) : result (string * DataReport) :=
  st ← run rules taskcalls_in_trees collection_name; Ok (render st).

End Detect.
End RiskDetector.

(** ** An instance of the imports, for running [detect] on examples *)

Module SpecImports.
Import PyStr.

(** Modelled from the spec: [keyutil.key_delimiter] and
    [keyutil.detect_type], which are not among the sources.  The spec gives a
    root key the form [<type>:<path-or-name>], so the delimiter is a colon
    and the type is what precedes the first one. *)
Definition spec_key_delimiter : string := ":".

Definition spec_detect_type (key : string) : string :=
  hd "" (split_go spec_key_delimiter 0 key).

(** Modelled from the spec: [rules.base.subject_placeholder], of which the
    spec says only that it is a placeholder in the message template. *)
Definition spec_subject_placeholder : string := "<SUBJECT>".

(** A stand-in for the library's [tabulate(rows, tablefmt="plain")]: one
    line per row, cells separated by two spaces (the library also pads the
    columns). *)
Definition plain_rows (rows : list Row) : string :=
  join nl ((fun r => row_label r +:+ "  " +:+ of_opt (row_name r) +:+ "  " +:+ row_message r)
           <$> rows).

#[export] Instance spec_imports : Imports := {
  detect_type := spec_detect_type;
  key_delimiter := spec_key_delimiter;
  subject_placeholder := spec_subject_placeholder;
  tabulate := plain_rows;
}.

End SpecImports.

(** ** The vocabulary of the statements *)

Import PyStr RiskDetector.

Section Vocabulary.
Context `{Imports}.

(** [is_playbook], line 91. *)
Definition is_playbook_key (key : string) : bool :=
  bool_decide (detect_type key = "playbook").

(** An enabled inline rule ([separate_report = False]) whose [check]
    returns [matched = True] on a task list. *)
Definition inline_match (extra : option string) (tasks : list TaskCall) (r : Rule.t) : bool :=
  Rule.enabled r && negb (Rule.separate_report r) && (Rule.check r tasks extra).1.

(** An enabled tabulated rule ([separate_report = True]) whose [check]
    returns [matched = True] on a task list. *)
Definition tabulated_match (extra : option string) (tasks : list TaskCall) (r : Rule.t) : bool :=
  Rule.enabled r && Rule.separate_report r && (Rule.check r tasks extra).1.

Definition is_inline (r : Rule.t) : bool := negb (Rule.separate_report r).

(** What one matching inline rule adds to the scratch buffer of a tree, and
    the buffer that all of them leave. *)
Definition inline_txt (extra : option string) (tasks : list TaskCall) (r : Rule.t) : string :=
  Rule.name r +:+ nl +:+ indent (Rule.check r tasks extra).2 0 +:+ nl.

Definition inline_alt (extra : option string) (tasks : list TaskCall)
    (rules : list Rule.t) : string :=
  String.concat ""
    (inline_txt extra tasks <$> filter (fun r => inline_match extra tasks r = true) rules).

(** The rows of the table with a given label; none if there is no table. *)
Definition rows_of (label : string) (d : odict TableEntry) : list Row :=
  match od_get label d with Some e => te_matched e | None => [] end.

Definition table_row (extra : option string) (ty : string) (name : option string)
    (tasks : list TaskCall) (r : Rule.t) : Row :=
  {| row_label := ty; row_name := name; row_message := (Rule.check r tasks extra).2 |}.

(** A tabulated rule that matches and writes to the table [label]. *)
Definition in_table (extra : option string) (tasks : list TaskCall) (label : string)
    (r : Rule.t) : bool :=
  tabulated_match extra tasks r && bool_decide (Rule.name r = label).

(** A rule that appends a record to [result_dict] for a tree: a tabulated
    match on any tree, an inline match on a tree that is not a playbook. *)
Definition produces_record (extra : option string) (t : TaskCallsInTree) (r : Rule.t) : bool :=
  tabulated_match extra (taskcalls t) r
  || (inline_match extra (taskcalls t) r && negb (is_playbook_key (root_key t))).

Definition item_produces (extra : option string) (rules : list Rule.t) (n : string)
    (item : ForestItem) : bool :=
  match item with
  | Tree t => existsb (fun r => bool_decide (Rule.name r = n) && produces_record extra t r) rules
  | NotATree => false
  end.

(** The part of the state that the narrative and the counters are made of. *)
Definition narrative_state (st : State) :=
  (report_num st, playbook_count st, role_count st, risk_found_playbooks st,
   tmp_result_txt st, role_to_playbook_mappings st).

(** [role_to_playbook_mappings]: growth, entries, and where an entry comes
    from. *)
Definition mapping_grows (m m' : gmap string (list string)) : Prop :=
  forall role l, m !! role = Some l -> exists l', m' !! role = Some (l ++ l').

Definition linked (m : gmap string (list string)) (role playbook : string) : Prop :=
  exists l, m !! role = Some l /\ playbook ∈ l.

Definition mapping_nodup (m : gmap string (list string)) : Prop :=
  forall role l, m !! role = Some l -> NoDup l.

(** [defined_in.split("/")] is [["roles", role, ...]]. *)
Definition role_inclusion (task : TaskCall) (role : string) : Prop :=
  exists rest, split_go "/" 0 (defined_in (spec task)) = "roles" :: role :: rest.

Definition from_playbook_tree (item : ForestItem) (role p : string) : Prop :=
  exists t, item = Tree t /\ detect_type (root_key t) = "playbook" /\
    key2name (root_key t) = Ok (Some p) /\
    exists task, task ∈ taskcalls t /\ role_inclusion task role.

(** A forest on which the loop over the task calls of a playbook does not
    raise: no [defined_in] is the single segment ["roles"]. *)
Definition tasks_well_formed (item : ForestItem) : Prop :=
  match item with
  | Tree t => forall task, task ∈ taskcalls t ->
                split_go "/" 0 (defined_in (spec task)) <> ["roles"]
  | NotATree => True
  end.

(** The template of a table without rows, lines 199-201. *)
Definition all_ok_template (r : Rule.t) : string :=
  if bool_decide (Rule.all_ok_message r = "")
  then "  All " +:+ subject_placeholder +:+ " are OK"
  else "  " +:+ Rule.all_ok_message r.

Definition tabulated_rule_of (rules : list Rule.t) (label : string) (e : TableEntry) : Prop :=
  te_rule e ∈ rules /\ Rule.name (te_rule e) = label /\
  Rule.enabled (te_rule e) = true /\ Rule.separate_report (te_rule e) = true.

Definition table_ok (rules : list Rule.t) (d : odict TableEntry) : Prop :=
  forall label e, od_get label d = Some e -> tabulated_rule_of rules label e.

Definition counted_if_tables (st : State) : Prop :=
  separate_report st <> [] -> 0 < total (playbook_count st) + total (role_count st).

(** Two instantiations of a rule that cannot be told apart on a forest. *)
Definition rule_agree (extra : option string) (forest : list ForestItem)
    (r1 r2 : Rule.t) : Prop :=
  Rule.name r1 = Rule.name r2 /\ Rule.enabled r1 = Rule.enabled r2 /\
  Rule.separate_report r1 = Rule.separate_report r2 /\
  Rule.all_ok_message r1 = Rule.all_ok_message r2 /\
  forall t, Tree t ∈ forest -> Rule.check r1 (taskcalls t) extra = Rule.check r2 (taskcalls t) extra.

Definition entry_agree (x y : string * TableEntry) : Prop :=
  x.1 = y.1 /\ Rule.all_ok_message (te_rule x.2) = Rule.all_ok_message (te_rule y.2) /\
  te_matched x.2 = te_matched y.2.

Definition table_agree (d1 d2 : odict TableEntry) : Prop := Forall2 entry_agree d1 d2.

Definition acc_agree (a1 a2 : RuleAcc) : Prop :=
  table_agree (acc_separate_report a1) (acc_separate_report a2) /\
  acc_result_dict a1 = acc_result_dict a2 /\ do_report a1 = do_report a2 /\
  tmp_result_txt_alt a1 = tmp_result_txt_alt a2.

Definition state_agree (s1 s2 : State) : Prop :=
  narrative_state s1 = narrative_state s2 /\ result_dict s1 = result_dict s2 /\
  table_agree (separate_report s1) (separate_report s2).

Definition result_agree {A : Type} (R : A -> A -> Prop) (r1 r2 : result A) : Prop :=
  match r1, r2 with
  | Ok a1, Ok a2 => R a1 a2
  | Raise e1, Raise e2 => e1 = e2
  | _, _ => False
  end.

(** The value of a computation that did not raise. *)
Definition get_ok {A : Type} (d : A) (r : result A) : A :=
  match r with Ok a => a | Raise _ => d end.

End Vocabulary.

(** ** Rules and trees to run the detector on *)

Module Examples.
Import SpecImports.

Definition task (path : string) : TaskCall :=
  {| spec := {| defined_in := path; resolved_name := "ansible.builtin.command";
                module_options := PyNone |} |}.

Definition has_tasks (tasks : list TaskCall) : bool :=
  match tasks with [] => false | _ => true end.

(** An inline rule that matches every tree with a task. *)
Definition inline_rule : Rule.t :=
  {| Rule.name := "InlineRule"; Rule.enabled := true; Rule.separate_report := false;
     Rule.all_ok_message := "";
     Rule.check := fun tasks _ => (has_tasks tasks, "a task was found") |}.

(** The same rule, instantiated again with another body of [check]. *)
Definition inline_rule_again : Rule.t :=
  {| Rule.name := "InlineRule"; Rule.enabled := true; Rule.separate_report := false;
     Rule.all_ok_message := "";
     Rule.check := fun tasks _ => ((0 <? length tasks)%nat, "a task was found") |}.

(** A tabulated rule that matches every tree with a task. *)
Definition table_rule : Rule.t :=
  {| Rule.name := "TableRule"; Rule.enabled := true; Rule.separate_report := true;
     Rule.all_ok_message := "No <SUBJECT> have tasks";
     Rule.check := fun tasks _ => (has_tasks tasks, "this tree has tasks") |}.

(** A tabulated rule that never matches. *)
Definition quiet_rule : Rule.t :=
  {| Rule.name := "QuietRule"; Rule.enabled := true; Rule.separate_report := true;
     Rule.all_ok_message := "No risk in <SUBJECT>";
     Rule.check := fun _ _ => (false, "") |}.

Definition playbook0 : TaskCallsInTree :=
  {| root_key := "playbook:playbooks/p0.yml"; taskcalls := [task "roles/R/tasks/main.yml"] |}.

Definition playbook1 : TaskCallsInTree :=
  {| root_key := "playbook:p.yml"; taskcalls := [task "roles/R/tasks/main.yml"] |}.

Definition playbook2 : TaskCallsInTree :=
  {| root_key := "playbook:q.yml"; taskcalls := [task "tasks/setup.yml"] |}.

Definition role_R : TaskCallsInTree :=
  {| root_key := "role:R"; taskcalls := [task "tasks/main.yml"] |}.

Definition role_S : TaskCallsInTree :=
  {| root_key := "role:S"; taskcalls := [task "tasks/main.yml"] |}.

(** A tree whose root key parses to neither root type. *)
Definition unknown_tree : TaskCallsInTree :=
  {| root_key := "task:foo"; taskcalls := [task "x.yml"] |}.

(** Role [R] is linked to [p0.yml] at index 0 and to [p.yml] at index 2; the
    role tree is at index 1. *)
Definition forest_role_between : list ForestItem :=
  [Tree playbook0; Tree role_R; Tree playbook1].

Definition forest_3_playbooks_2_roles : list ForestItem :=
  [Tree playbook0; Tree playbook1; Tree playbook2; Tree role_R; Tree role_S].

Definition state_after (rules : list Rule.t) (forest : list ForestItem) : State :=
  get_ok init (run rules forest "").

Definition empty_report : string * DataReport := ("", {| summary := []; details := [] |}).

Definition report_of (rules : list Rule.t) (forest : list ForestItem) : string * DataReport :=
  get_ok empty_report (detect rules forest "").

End Examples.

(** ** Vocabulary of the properties of whole runs *)

Section RunVocabulary.
Context `{Imports}.

Fixpoint count_if {A : Type} (f : A -> bool) (l : list A) : nat :=
  match l with
  | [] => 0
  | x :: l' => (if f x then 1 else 0) + count_if f l'
  end.

Definition is_tree (item : ForestItem) : bool :=
  match item with Tree _ => true | NotATree => false end.

(** A tree that the loop counts as a playbook, and one it counts as a role. *)
Definition is_playbook_item (item : ForestItem) : bool :=
  match item with Tree t => is_playbook_key (root_key t) | NotATree => false end.

Definition is_role_item (item : ForestItem) : bool :=
  match item with Tree t => negb (is_playbook_key (root_key t)) | NotATree => false end.

(** A tree that gets a numbered section. *)
Definition is_risky_item (extra : option string) (rules : list Rule.t)
    (item : ForestItem) : bool :=
  match item with
  | Tree t => negb (is_playbook_key (root_key t))
              && existsb (inline_match extra (taskcalls t)) rules
  | NotATree => false
  end.

(** A playbook with a task whose [defined_in] is the one segment roles, so
    that [parts[1]] is out of range. *)
Definition lone_roles_segment (task : TaskCall) : bool :=
  bool_decide (split_go "/" 0 (defined_in (spec task)) = ["roles"]).

Definition raises_index_error (item : ForestItem) : bool :=
  match item with
  | Tree t => is_playbook_key (root_key t) && existsb lone_roles_segment (taskcalls t)
  | NotATree => false
  end.

(** An enabled tabulated rule that owns the table with a given label. *)
Definition tabulated_named (label : string) (r : Rule.t) : bool :=
  Rule.enabled r && Rule.separate_report r && bool_decide (Rule.name r = label).

(** The rows that one tree adds to the table with a given label. *)
Definition tree_rows (extra : option string) (rules : list Rule.t) (label : string)
    (item : ForestItem) : list Row :=
  match item with
  | Tree t =>
      match key2name (root_key t) with
      | Ok name =>
          table_row extra (detect_type (root_key t)) name (taskcalls t)
          <$> filter (fun r => in_table extra (taskcalls t) label r = true) rules
      | Raise _ => []
      end
  | NotATree => []
  end.

(** The record that goes with a row, and the records of tabulated rules
    among those of a name: they are the ones without a list of playbooks. *)
Definition row_record (row : Row) : ResultRecord :=
  {| rec_type := row_label row; rec_name := row_name row;
     rec_message := row_message row; rec_playbooks := None |}.

Definition is_table_record (r : ResultRecord) : bool :=
  match rec_playbooks r with None => true | Some _ => false end.

Definition records_of (label : string) (d : odict (list ResultRecord)) : list ResultRecord :=
  default [] (od_get label d).

(** The report of a run in which no tree was processed. *)
Definition empty_run_report : string * DataReport :=
  (header_txt +:+ dashes +:+ nl, {| summary := []; details := [] |}).

(** The summary that the counts of a forest give. *)
Definition summary_for (playbooks roles risky : nat) : odict SummaryEntry :=
  (if (0 <? playbooks)%nat
   then [("playbooks", {| summary_total := playbooks; risk_found := 0 |})] else [])
  ++ (if (0 <? roles)%nat
      then [("roles", {| summary_total := roles; risk_found := risky |})] else []).

(** The name under which a playbook tree links the roles it includes. *)
Definition playbook_name (item : ForestItem) : option string :=
  match item with
  | Tree t =>
      if is_playbook_key (root_key t)
      then match key2name (root_key t) with Ok (Some p) => Some p | _ => None end
      else None
  | NotATree => None
  end.

Definition playbook_names (forest : list ForestItem) : list string :=
  omap playbook_name forest.

(** A record of the report that has no list of playbooks: the record of a
    tabulated rule. *)
Definition is_table_report_record (r : ReportRecord) : bool :=
  match playbooks_use_this_role r with None => true | Some _ => false end.

Definition row_report_record (row : Row) : ReportRecord :=
  {| type_ := row_label row; name_ := row_name row; message_ := row_message row;
     playbooks_use_this_role := None |}.

(** A string without a line boundary, and the padding of [indent]. *)
Fixpoint no_break (s : string) : bool :=
  match s with
  | "" => true
  | String c s' => negb (is_linebreak c) && no_break s'
  end.

Definition pad (level : nat) (line : string) : string := times " " level +:+ line.

(** The type, name and message of a record, and the ones that a tree gives
    to the records of a rule name. *)
Definition record_core (r : ResultRecord) : string * option string * string :=
  (rec_type r, rec_name r, rec_message r).

Definition report_core (r : ReportRecord) : string * option string * string :=
  (type_ r, name_ r, message_ r).

Definition records_named (extra : option string) (t : TaskCallsInTree) (label : string)
    (r : Rule.t) : bool :=
  bool_decide (Rule.name r = label) && produces_record extra t r.

Definition tree_cores (extra : option string) (rules : list Rule.t) (label : string)
    (item : ForestItem) : list (string * option string * string) :=
  match item with
  | Tree t =>
      match key2name (root_key t) with
      | Ok name =>
          (fun r => (detect_type (root_key t), name, (Rule.check r (taskcalls t) extra).2))
          <$> filter (fun r => records_named extra t label r = true) rules
      | Raise _ => []
      end
  | NotATree => []
  end.

(** A record refers to the list of the mapping under its own name, if it
    refers to a list of the mapping at all. *)
Definition record_ref_ok (r : ResultRecord) : Prop :=
  match rec_playbooks r with
  | Some (MappingList n) => rec_name r = Some n
  | _ => True
  end.

Definition records_ref_ok (d : odict (list ResultRecord)) : Prop :=
  forall k v r, (k, v) ∈ d -> r ∈ v -> record_ref_ok r.

End RunVocabulary.

Module MoreExamples.
Import Examples.

(** A playbook with a task defined in the path roles, without a role. *)
Definition playbook_lone_roles : TaskCallsInTree :=
  {| root_key := "playbook:bad.yml"; taskcalls := [task "roles"] |}.

Definition included_task : TaskCall := task "roles/R/tasks/main.yml".

End MoreExamples.

(** ** Vocabulary of the narrative *)

Section NarrativeVocabulary.
Context `{Imports}.

(** Lines 193-207: the sections of the tabulated rules, one after the
    other. *)
Definition tables_txt (st : State) : string :=
  String.concat ""
    (table_section (total (playbook_count st)) (total (role_count st))
     <$> separate_report st).

(** An enabled rule whose [check] matches a task list, whatever its
    placement. *)
Definition enabled_match (extra : option string) (tasks : list TaskCall) (r : Rule.t) : bool :=
  Rule.enabled r && (Rule.check r tasks extra).1.

(** [s * n] for any [int] [n]: the empty string when [n] is negative. *)
Definition times_int (s : string) (n : Z) : string := times s (Z.to_nat n).

(** [indent], lines 30-33, at a level that is any [int]. *)
Definition indent_int (multi_line_txt : string) (level : Z) : string :=
  let lines := splitlines multi_line_txt in
  let lines := (fun line => times_int " " level +:+ line)
               <$> filter (fun line => not_blank line = true) lines in
  join nl lines.

(** A name that [repr] prints between single quotes as it is: printable
    ASCII without a single quote or a backslash. *)
Definition plain_char (c : ascii) : bool :=
  let n := ord c in
  (32 <=? n)%nat && (n <? 127)%nat && negb (n =? 39)%nat && negb (n =? 92)%nat.

Fixpoint plain_name (s : string) : bool :=
  match s with
  | "" => true
  | String c s' => plain_char c && plain_name s'
  end.

(** The results that the details list holds under a rule name. *)
Definition details_results (label : string) (ds : list DetailEntry) : list ReportRecord :=
  concat (results <$> filter (fun e => rule e = label) ds).

End NarrativeVocabulary.

(** * Properties *)

(** ** The string primitives on examples *)

Module PyStrTests.
Import PyStr.

Example split_colon : split_go ":" 0 "role role:geerlingguy.git" = ["role role"; "geerlingguy.git"].
Proof. reflexivity. Qed.
Example split_long_sep : split_go "ab" 0 "xabababy" = ["x"; ""; ""; "y"].
Proof. reflexivity. Qed.
Example split_trailing : split_go "/" 0 "roles/" = ["roles"; ""].
Proof. reflexivity. Qed.
Example basename_path : basename "playbooks/site.yml" = "site.yml".
Proof. reflexivity. Qed.
Example replace_subject : replace "<SUBJECT>" "roles" "  All <SUBJECT> are OK" = "  All roles are OK".
Proof. reflexivity. Qed.
Example replace_empty_old : replace "" "-" "ab" = "-a-b-".
Proof. reflexivity. Qed.
Example upper_role : upper "role" = "ROLE".
Proof. reflexivity. Qed.
Example splitlines_crlf :
  splitlines ("a" +:+ String (chr 13) nl +:+ "b" +:+ nl +:+ nl +:+ "c" +:+ nl) = ["a"; "b"; ""; "c"].
Proof. reflexivity. Qed.
Example repr_names : repr_list ["site.yml"; "it's"] = "['site.yml', " +:+ String (chr 34) "it's" +:+ String (chr 34) "]".
Proof. reflexivity. Qed.
Example of_nat_12 : of_nat 12 = "12".
Proof. reflexivity. Qed.

End PyStrTests.

(** ** The sample annotator *)

Section Annotator.
Import SampleCustomAnnotator.

Lemma homebrew_not_dict (options : pyval) :
  is_dict options = false -> homebrew options = ∅.
Proof. by destruct options. Qed.

Lemma eq_absent_true (v : pyval) : eq_absent v = true <-> v = PyStr "absent".
Proof.
  destruct v; simpl; try (split; [discriminate | discriminate]).
  rewrite bool_decide_eq_true. split; [by intros -> | by intros [= ->]].
Qed.

Lemma homebrew_delete_lookup (d : gmap string pyval) :
  homebrew (PyDict d) !! "delete"
  = match d !! "state" with
    | Some v => if eq_absent v then Some (PyBool true) else None
    | None => None
    end.
Proof.
  unfold homebrew.
  destruct (d !! "state") as [v|]; [destruct (eq_absent v)|];
    destruct (d !! "name"); by simplify_map_eq.
Qed.

(** C9: the package-install concretizer [homebrew] maps the options with
    name wget and state absent to the mapping with pkg wget and delete True;
    it maps every value that is not a mapping to the empty mapping; and the
    delete flag is in its result exactly when the options are a mapping whose
    state is the string absent. *)
Theorem homebrew_spec :
  homebrew (PyDict (<["name" := PyStr "wget"]> (<["state" := PyStr "absent"]> ∅)))
    = <["pkg" := PyStr "wget"]> (<["delete" := PyBool true]> ∅)
  /\ (forall options : pyval, is_dict options = false -> homebrew options = ∅)
  /\ (forall (options v : pyval),
        homebrew options !! "delete" = Some v <->
        v = PyBool true /\
        exists d, options = PyDict d /\ d !! "state" = Some (PyStr "absent")).
Proof.
  split; [by vm_compute | split; [apply homebrew_not_dict |]].
  intros options v. destruct options as [| | | | |d];
    try (unfold homebrew; rewrite lookup_empty; split; [done | by intros [_ (d & [=] & _)]]).
  rewrite homebrew_delete_lookup. split.
  - destruct (d !! "state") as [w|] eqn:Hs; [|done].
    destruct (eq_absent w) eqn:Hw; [|done].
    apply eq_absent_true in Hw as ->. intros [= <-]. eauto.
  - intros [-> (d' & [= <-] & ->)]. done.
Qed.

End Annotator.

(** ** Strings and loops *)

Lemma app_cons_str (x : ascii) (a b : string) : String x a +:+ b = String x (a +:+ b).
Proof. reflexivity. Qed.

Lemma app_nil_l_str (a : string) : "" +:+ a = a.
Proof. reflexivity. Qed.

Lemma app_assoc_str (a b c : string) : (a +:+ b) +:+ c = a +:+ (b +:+ c).
Proof. induction a as [|x a IH]; [done|]. by rewrite !app_cons_str, IH. Qed.

Lemma app_nil_r_str (a : string) : a +:+ "" = a.
Proof. induction a as [|x a IH]; [done|]. by rewrite app_cons_str, IH. Qed.

Lemma app_length_str (a b : string) :
  String.length (a +:+ b) = String.length a + String.length b.
Proof. induction a as [|x a IH]; [done|]. rewrite app_cons_str. cbn. by rewrite IH. Qed.

Lemma app_not_empty_r (a b : string) : b <> "" -> a +:+ b <> "".
Proof.
  intros Hb Hab. apply (f_equal String.length) in Hab.
  rewrite app_length_str in Hab. destruct b; [done|]. cbn in Hab. lia.
Qed.

Lemma concat_cons_str (x : string) (l : list string) :
  String.concat "" (x :: l) = x +:+ String.concat "" l.
Proof. destruct l; cbn; [by rewrite app_nil_r_str | by rewrite app_nil_l_str]. Qed.

Lemma concat_app_str (l1 l2 : list string) :
  String.concat "" (l1 ++ l2) = String.concat "" l1 +:+ String.concat "" l2.
Proof.
  induction l1 as [|x l1 IH]; [done|].
  rewrite <- app_comm_cons, !concat_cons_str, IH. by rewrite app_assoc_str.
Qed.

Lemma for_each_app {A S : Type} (body : S -> A -> result S) (acc : S) (l1 l2 : list A) :
  for_each body acc (l1 ++ l2) = (acc' ← for_each body acc l1; for_each body acc' l2).
Proof.
  revert acc. induction l1 as [|x l1 IH]; intros acc; [done|].
  cbn. destruct (body acc x); cbn; [apply IH | done].
Qed.

Lemma bind_Ok {A B : Type} (m : result A) (f : A -> result B) (b : B) :
  (x ← m; f x) = Ok b -> exists a, m = Ok a /\ f a = Ok b.
Proof. destruct m; cbn; [eauto | done]. Qed.

(** ** The loop over the rules *)

Section DetectorFacts.
Context `{Imports}.

Lemma key2name_playbook (key : string) (o : option string) :
  detect_type key = "playbook" -> key2name key = Ok o -> is_Some o.
Proof.
  intros Ht. unfold key2name. rewrite Ht, bool_decide_eq_true_2 by done.
  intros (parts & _ & [= <-])%bind_Ok. eauto.
Qed.

Lemma key2name_other (key : string) :
  detect_type key <> "playbook" -> detect_type key <> "role" -> key2name key = Ok None.
Proof.
  intros H1 H2. unfold key2name. by rewrite !bool_decide_eq_false_2.
Qed.

Lemma key2name_total (key : string) :
  key_delimiter <> "" -> exists o, key2name key = Ok o.
Proof.
  intros Hd. unfold key2name, py_split.
  destruct key_delimiter; [done|].
  repeat case_bool_decide; cbn; eauto.
Qed.

Lemma tree_body_Ok rules extra st t st' :
  tree_body rules extra st (Tree t) = Ok st' ->
  exists name m,
    key2name (root_key t) = Ok name /\
    update_mappings (is_playbook_key (root_key t)) name (taskcalls t)
      (role_to_playbook_mappings st) = Ok m /\
    st' = close_tree (detect_type (root_key t)) name (is_playbook_key (root_key t)) m
            (rule_loop rules extra (detect_type (root_key t)) name
               (is_playbook_key (root_key t)) (taskcalls t) m st) st.
Proof.
  unfold tree_body. intros (name & Hn & (m & Hm & [= <-])%bind_Ok)%bind_Ok.
  exists name, m. done.
Qed.

Lemma tree_body_not_playbook rules extra st t name :
  detect_type (root_key t) <> "playbook" ->
  key2name (root_key t) = Ok name ->
  tree_body rules extra st (Tree t) =
    Ok (close_tree (detect_type (root_key t)) name false (role_to_playbook_mappings st)
          (rule_loop rules extra (detect_type (root_key t)) name false (taskcalls t)
             (role_to_playbook_mappings st) st) st).
Proof.
  intros Ht Hn. unfold tree_body. rewrite Hn. cbn.
  by rewrite bool_decide_eq_false_2.
Qed.

(** The loop over the rules: what it leaves in [do_report] and in the
    scratch buffer. *)
Lemma rule_body_report extra ty name is_pb tasks m acc r :
  let acc' := rule_body extra ty name is_pb tasks m acc r in
  do_report acc' = do_report acc || (negb is_pb && inline_match extra tasks r)
  /\ tmp_result_txt_alt acc' =
       tmp_result_txt_alt acc +:+
       (if negb is_pb && inline_match extra tasks r then inline_txt extra tasks r else "").
Proof.
  unfold rule_body, inline_match, inline_txt.
  destruct (Rule.enabled r); cbn;
    [|by rewrite andb_false_r, orb_false_r, app_nil_r_str].
  destruct (Rule.check r tasks extra) as [matched message]; cbn.
  destruct matched, (Rule.separate_report r), is_pb; cbn;
    rewrite ?orb_false_r, ?orb_true_r, ?app_nil_r_str, ?app_assoc_str; done.
Qed.

Lemma inline_alt_cons extra tasks r rules :
  inline_alt extra tasks (r :: rules) =
  (if inline_match extra tasks r then inline_txt extra tasks r else "")
  +:+ inline_alt extra tasks rules.
Proof.
  unfold inline_alt. rewrite filter_cons.
  destruct (inline_match extra tasks r) eqn:Hr.
  - rewrite decide_True by done. by rewrite fmap_cons, concat_cons_str.
  - rewrite decide_False by done. done.
Qed.

Lemma foldl_rule_body_report extra ty name is_pb tasks m rules acc :
  let acc' := foldl (rule_body extra ty name is_pb tasks m) acc rules in
  do_report acc' =
    do_report acc || (negb is_pb && existsb (inline_match extra tasks) rules)
  /\ tmp_result_txt_alt acc' =
       tmp_result_txt_alt acc +:+ (if is_pb then "" else inline_alt extra tasks rules).
Proof.
  revert acc. induction rules as [|r rules IH]; intros acc.
  - cbn. rewrite andb_false_r, orb_false_r. destruct is_pb; by rewrite app_nil_r_str.
  - destruct (IH (rule_body extra ty name is_pb tasks m acc r)) as [IH1 IH2].
    destruct (rule_body_report extra ty name is_pb tasks m acc r) as [B1 B2].
    rewrite inline_alt_cons.
    change (foldl ?f acc (r :: rules)) with (foldl f (f acc r) rules).
    cbv zeta. rewrite IH1, IH2, B1, B2. split.
    + destruct is_pb; cbn; [by rewrite !orb_false_r | by rewrite orb_assoc].
    + destruct is_pb; cbn; [by rewrite !app_nil_r_str|]. by rewrite app_assoc_str.
Qed.

Lemma rule_loop_report rules extra ty name is_pb tasks m st :
  let acc := rule_loop rules extra ty name is_pb tasks m st in
  do_report acc = negb is_pb && existsb (inline_match extra tasks) rules
  /\ tmp_result_txt_alt acc = if is_pb then "" else inline_alt extra tasks rules.
Proof.
  unfold rule_loop.
  edestruct foldl_rule_body_report as [H1 H2]. cbn. rewrite H1, H2. done.
Qed.

Lemma inline_txt_not_empty extra tasks r : inline_txt extra tasks r <> "".
Proof.
  unfold inline_txt. rewrite <- !app_assoc_str. by apply app_not_empty_r.
Qed.

Lemma inline_alt_not_empty extra tasks rules :
  existsb (inline_match extra tasks) rules = true -> inline_alt extra tasks rules <> "".
Proof.
  induction rules as [|r rules IH]; [done|].
  rewrite inline_alt_cons. cbn. destruct (inline_match extra tasks r) eqn:Hr; cbn.
  - intros _ Hc. apply (f_equal String.length) in Hc. rewrite app_length_str in Hc.
    pose proof (inline_txt_not_empty extra tasks r) as Hne.
    destruct (inline_txt extra tasks r); [done|]. cbn in Hc. lia.
  - exact IH.
Qed.

Lemma existsb_filter_length {A : Type} (f : A -> bool) (l : list A) :
  existsb f l = true <-> length (filter (fun x => f x = true) l) >= 1.
Proof.
  induction l as [|x l IH]; [cbn; split; [done | lia]|].
  rewrite filter_cons. cbn [existsb]. destruct (f x) eqn:Hx.
  - rewrite decide_True by done. cbn. split; [lia | done].
  - rewrite decide_False by done. exact IH.
Qed.

End DetectorFacts.

(** ** The tree step: counters and numbered sections *)

Section TreeStep.
Context `{Imports}.

Lemma close_tree_not_playbook ty name m acc st :
  close_tree ty name false m acc st =
  if do_report acc && negb (bool_decide (tmp_result_txt_alt acc = "")) then
    {| report_num := report_num st + 1;
       playbook_count := playbook_count st;
       role_count := {| total := total (role_count st) + 1; risk := risk (role_count st) + 1 |};
       separate_report := acc_separate_report acc;
       role_to_playbook_mappings := m;
       risk_found_playbooks := risk_found_playbooks st ∪ list_to_set (mapping_get m name);
       tmp_result_txt :=
         tmp_result_txt st +:+
         section_txt (report_num st) ty name (mapping_get m name) (tmp_result_txt_alt acc);
       result_dict := acc_result_dict acc |}
  else
    {| report_num := report_num st;
       playbook_count := playbook_count st;
       role_count := {| total := total (role_count st) + 1; risk := risk (role_count st) |};
       separate_report := acc_separate_report acc;
       role_to_playbook_mappings := m;
       risk_found_playbooks := risk_found_playbooks st;
       tmp_result_txt := tmp_result_txt st;
       result_dict := acc_result_dict acc |}.
Proof. reflexivity. Qed.

Lemma close_tree_playbook ty name m acc st :
  do_report acc = false ->
  close_tree ty name true m acc st =
    {| report_num := report_num st;
       playbook_count := {| total := total (playbook_count st) + 1; risk := risk (playbook_count st) |};
       role_count := role_count st;
       separate_report := acc_separate_report acc;
       role_to_playbook_mappings := m;
       risk_found_playbooks := risk_found_playbooks st;
       tmp_result_txt := tmp_result_txt st;
       result_dict := acc_result_dict acc |}.
Proof. intros Hd. unfold close_tree. cbn. by rewrite Hd. Qed.

(** What a tree that is not a playbook does to the counters and to the
    narrative, by whether an inline rule matches it. *)
Lemma tree_body_not_playbook_report rules extra st t name :
  detect_type (root_key t) <> "playbook" ->
  key2name (root_key t) = Ok name ->
  exists st', tree_body rules extra st (Tree t) = Ok st' /\
    total (role_count st') = total (role_count st) + 1 /\
    playbook_count st' = playbook_count st /\
    role_to_playbook_mappings st' = role_to_playbook_mappings st /\
    (existsb (inline_match extra (taskcalls t)) rules = true ->
       report_num st' = report_num st + 1 /\
       risk (role_count st') = risk (role_count st) + 1 /\
       tmp_result_txt st' =
         tmp_result_txt st +:+
         section_txt (report_num st) (detect_type (root_key t)) name
           (mapping_get (role_to_playbook_mappings st) name)
           (inline_alt extra (taskcalls t) rules)) /\
    (existsb (inline_match extra (taskcalls t)) rules = false ->
       report_num st' = report_num st /\
       risk (role_count st') = risk (role_count st) /\
       tmp_result_txt st' = tmp_result_txt st).
Proof.
  intros Ht Hn. eexists. split; [by apply tree_body_not_playbook|].
  rewrite close_tree_not_playbook.
  destruct (rule_loop_report rules extra (detect_type (root_key t)) name false
              (taskcalls t) (role_to_playbook_mappings st) st) as [Hd Ha].
  cbv zeta in Hd, Ha. rewrite Hd, Ha. cbn [negb andb].
  destruct (existsb (inline_match extra (taskcalls t)) rules) eqn:He.
  - rewrite bool_decide_eq_false_2 by (by apply inline_alt_not_empty). cbn.
    repeat split; done.
  - cbn. repeat split; done.
Qed.

Lemma tree_body_playbook_risk rules extra st item st' :
  tree_body rules extra st item = Ok st' ->
  risk (playbook_count st') = risk (playbook_count st).
Proof.
  destruct item as [t|]; [|by intros [= <-]].
  intros (name & m & Hn & Hm & ->)%tree_body_Ok.
  destruct (rule_loop_report rules extra (detect_type (root_key t)) name
              (is_playbook_key (root_key t)) (taskcalls t) m st) as [Hd _].
  cbv zeta in Hd. destruct (is_playbook_key (root_key t)).
  - by rewrite close_tree_playbook.
  - rewrite close_tree_not_playbook. by case_match.
Qed.

Lemma for_each_playbook_risk rules extra forest st st' :
  for_each (tree_body rules extra) st forest = Ok st' ->
  risk (playbook_count st') = risk (playbook_count st).
Proof.
  revert st. induction forest as [|item forest IH]; intros st; [by intros [= <-]|].
  cbn. intros (st1 & H1 & H2)%bind_Ok.
  rewrite (IH _ H2). by eapply tree_body_playbook_risk.
Qed.

Lemma detect_Ok rules forest c txt rep :
  detect rules forest c = Ok (txt, rep) ->
  exists st, run rules forest c = Ok st /\ render st = (txt, rep).
Proof.
  unfold detect. intros (st & Hr & Hst)%bind_Ok.
  exists st. split; [done | congruence].
Qed.

Lemma od_get_summary_playbooks st e :
  od_get "playbooks" (summary_of st) = Some e -> risk_found e = risk (playbook_count st).
Proof.
  unfold summary_of.
  destruct (0 <? total (playbook_count st))%nat, (0 <? total (role_count st))%nat;
    cbn; repeat case_bool_decide; try done; by intros [= <-].
Qed.

Lemma run_skip_not_a_tree rules c l1 l2 :
  run rules (l1 ++ NotATree :: l2) c = run rules (l1 ++ l2) c.
Proof. unfold run. rewrite !for_each_app. by destruct (for_each _ init l1). Qed.

(** The risk counter of playbooks stays at 0. *)
Lemma detect_playbooks_risk_found rules forest c txt rep e :
  detect rules forest c = Ok (txt, rep) ->
  od_get "playbooks" (summary rep) = Some e ->
  risk_found e = 0.
Proof.
  intros (st & Hrun & Hst)%detect_Ok. unfold render in Hst.
  injection Hst as _ <-. cbn. intros ->%od_get_summary_playbooks.
  unfold run in Hrun. by rewrite (for_each_playbook_risk _ _ _ _ _ Hrun).
Qed.

End TreeStep.

(** ** Ordered dictionaries *)

Section Odict.
Context {V : Type}.
Implicit Types (d : odict V) (k : string).

Lemma od_get_app k d1 d2 :
  od_get k (d1 ++ d2) = match od_get k d1 with Some v => Some v | None => od_get k d2 end.
Proof.
  induction d1 as [|[k' v] d1 IH]; [done|]. cbn. by case_bool_decide.
Qed.

Lemma od_get_setdefault k k' v d :
  od_get k (od_setdefault k' v d) =
  match od_get k d with
  | Some x => Some x
  | None => if bool_decide (k' = k) then Some v else None
  end.
Proof.
  unfold od_setdefault, od_mem. destruct (od_get k' d) as [x|] eqn:Hk'.
  - destruct (od_get k d) eqn:Hk; [done|]. case_bool_decide; [congruence | done].
  - rewrite od_get_app. cbn. done.
Qed.

Lemma od_get_adjust (f : V -> V) k k' d :
  od_get k (od_adjust f k' d) =
  if bool_decide (k' = k) then f <$> od_get k d else od_get k d.
Proof.
  induction d as [|[k0 v] d IH]; cbn; [by case_bool_decide|].
  repeat (case_bool_decide; cbn in * ); subst; try done; congruence.
Qed.

Lemma od_mem_get k d : od_mem k d = true <-> is_Some (od_get k d).
Proof. unfold od_mem. destruct (od_get k d); split; (done || by intros [??] || eauto). Qed.

Lemma od_get_elem_of k v d : od_get k d = Some v -> (k, v) ∈ d.
Proof.
  induction d as [|[k0 v0] d IH]; cbn; [done|].
  case_bool_decide; [intros [= ->]; subst; left | intros ?; right; auto].
Qed.

Lemma od_elem_of_get k v d : (k, v) ∈ d -> is_Some (od_get k d).
Proof.
  induction d as [|[k0 v0] d IH]; [by intros ?%elem_of_nil|].
  intros [[= -> ->]|Hin]%elem_of_cons; cbn; case_bool_decide; eauto; done.
Qed.

End Odict.

(** ** The records of the structured report *)

Section Records.
Context `{Imports}.

Lemma od_mem_result_dict_append n k r d :
  od_mem n (result_dict_append k r d) = bool_decide (k = n) || od_mem n d.
Proof.
  unfold result_dict_append, od_mem.
  rewrite od_get_adjust, od_get_setdefault.
  destruct (od_get n d); repeat case_bool_decide; done.
Qed.

Lemma rule_body_result_keys extra t name m acc r n :
  let acc' := rule_body extra (detect_type (root_key t)) name (is_playbook_key (root_key t))
                (taskcalls t) m acc r in
  od_mem n (acc_result_dict acc') =
  od_mem n (acc_result_dict acc) || (bool_decide (Rule.name r = n) && produces_record extra t r).
Proof.
  unfold rule_body, produces_record, tabulated_match, inline_match.
  destruct (Rule.enabled r); cbn; [|by rewrite andb_false_r, orb_false_r].
  destruct (Rule.check r (taskcalls t) extra) as [matched message]; cbn.
  destruct matched, (Rule.separate_report r), (is_playbook_key (root_key t)); cbn;
    rewrite ?od_mem_result_dict_append, ?andb_false_r, ?andb_true_r, ?orb_false_r;
    try done; apply orb_comm.
Qed.

Lemma rule_loop_result_keys rules extra t name m st n :
  od_mem n (acc_result_dict
              (rule_loop rules extra (detect_type (root_key t)) name
                 (is_playbook_key (root_key t)) (taskcalls t) m st)) =
  od_mem n (result_dict st)
  || existsb (fun r => bool_decide (Rule.name r = n) && produces_record extra t r) rules.
Proof.
  unfold rule_loop.
  set (acc := {| acc_separate_report := separate_report st |}).
  change (result_dict st) with (acc_result_dict acc). clearbody acc.
  revert acc. induction rules as [|r rules IH]; intros acc.
  - cbn. by rewrite orb_false_r.
  - change (foldl ?f acc (r :: rules)) with (foldl f (f acc r) rules).
    rewrite IH, rule_body_result_keys. cbn. by rewrite orb_assoc.
Qed.

Lemma close_tree_result_dict ty name is_pb m acc st :
  result_dict (close_tree ty name is_pb m acc st) = acc_result_dict acc
  /\ separate_report (close_tree ty name is_pb m acc st) = acc_separate_report acc
  /\ role_to_playbook_mappings (close_tree ty name is_pb m acc st) = m.
Proof. unfold close_tree. destruct is_pb; cbn; by case_match. Qed.

Lemma for_each_result_keys rules extra forest st st' n :
  for_each (tree_body rules extra) st forest = Ok st' ->
  od_mem n (result_dict st') =
  od_mem n (result_dict st) || existsb (item_produces extra rules n) forest.
Proof.
  revert st. induction forest as [|item forest IH]; intros st.
  - intros [= <-]. cbn. by rewrite orb_false_r.
  - cbn. intros (st1 & H1 & H2)%bind_Ok. rewrite (IH _ H2), orb_assoc. f_equal.
    destruct item as [t|]; [|injection H1 as <-; cbn; by rewrite orb_false_r].
    apply tree_body_Ok in H1 as (name & m & _ & _ & ->).
    destruct (close_tree_result_dict (detect_type (root_key t)) name
                (is_playbook_key (root_key t)) m
                (rule_loop rules extra (detect_type (root_key t)) name
                   (is_playbook_key (root_key t)) (taskcalls t) m st) st) as [-> _].
    apply rule_loop_result_keys.
Qed.

Lemma details_of_rule st n :
  (exists e, e ∈ details_of st /\ rule e = n) <-> od_mem n (result_dict st) = true.
Proof.
  unfold details_of. rewrite od_mem_get. split.
  - intros (e & ([k v] & -> & Hin)%list_elem_of_fmap & <-). cbn.
    by eapply od_elem_of_get.
  - intros [v Hv]. eexists. split.
    + apply list_elem_of_fmap. exists (n, v). split; [done | by apply od_get_elem_of].
    + done.
Qed.

(** C2, amended: the details list of the structured report has an entry
    for a rule name exactly when an enabled rule of that name produced a
    record in the run, that is, matched some tree and either is tabulated or
    the tree is not a playbook.  An enabled rule without such a match has no
    entry. *)
Theorem details_entry_iff_record rules forest c txt rep n :
  detect rules forest c = Ok (txt, rep) ->
  (exists e, e ∈ details rep /\ rule e = n) <->
  (exists r t, r ∈ rules /\ Tree t ∈ forest /\ Rule.name r = n /\
     Rule.enabled r = true /\
     (Rule.check r (taskcalls t) (extra_check_args_of c)).1 = true /\
     (Rule.separate_report r = true \/ detect_type (root_key t) <> "playbook")).
Proof.
  intros (st & Hrun & Hst)%detect_Ok. injection Hst as _ <-. cbn [details].
  rewrite details_of_rule. unfold run in Hrun.
  rewrite (for_each_result_keys _ _ _ _ _ n Hrun). cbn. rewrite existsb_exists. split.
  - intros (item & Hin%list_elem_of_In & Hitem). destruct item as [t|]; [|done].
    cbn in Hitem. apply existsb_exists in Hitem as (r & Hr%list_elem_of_In & Hp).
    apply andb_true_iff in Hp as [Hn%bool_decide_eq_true Hp].
    exists r, t. split; [done|]. split; [done|]. split; [done|].
    unfold produces_record, tabulated_match, inline_match, is_playbook_key in Hp.
    destruct (Rule.enabled r), (Rule.separate_report r),
      (Rule.check r (taskcalls t) (extra_check_args_of c)).1; cbn in Hp; try done.
    + auto.
    + apply negb_true_iff, bool_decide_eq_false in Hp. auto.
  - intros (r & t & Hr & Ht & Hn & He & Hm & Hs).
    exists (Tree t). split; [by apply list_elem_of_In|]. cbn.
    apply existsb_exists. exists r. split; [by apply list_elem_of_In|].
    rewrite bool_decide_eq_true_2 by done. cbn.
    unfold produces_record, tabulated_match, inline_match, is_playbook_key.
    rewrite He, Hm. destruct Hs as [-> | Hs]; [done|].
    rewrite (bool_decide_eq_false_2 _ Hs). by destruct (Rule.separate_report r).
Qed.

End Records.

(** ** Tabulated rules *)

Section Tabulated.
Context `{Imports}.

Lemma rows_of_setdefault label k e d :
  te_matched e = [] -> rows_of label (od_setdefault k e d) = rows_of label d.
Proof.
  intros He. unfold rows_of. rewrite od_get_setdefault.
  destruct (od_get label d); [done|]. by case_bool_decide.
Qed.

Lemma rows_of_add_row label k e row d :
  te_matched e = [] ->
  rows_of label (od_adjust (add_row row) k (od_setdefault k e d)) =
  rows_of label d ++ (if bool_decide (k = label) then [row] else []).
Proof.
  intros He. unfold rows_of. rewrite od_get_adjust, od_get_setdefault.
  case_bool_decide as Hk.
  - subst. destruct (od_get label d); cbn; [done | by rewrite He].
  - rewrite app_nil_r. by destruct (od_get label d).
Qed.

Lemma rule_body_rows extra ty name is_pb tasks m acc r label :
  rows_of label (acc_separate_report (rule_body extra ty name is_pb tasks m acc r)) =
  rows_of label (acc_separate_report acc)
  ++ (if in_table extra tasks label r then [table_row extra ty name tasks r] else []).
Proof.
  unfold rule_body, in_table, tabulated_match, table_row.
  destruct (Rule.enabled r); cbn; [|by rewrite app_nil_r].
  destruct (Rule.check r tasks extra) as [matched message]; cbn.
  destruct matched, (Rule.separate_report r), is_pb; cbn;
    rewrite ?rows_of_add_row, ?rows_of_setdefault, ?app_nil_r by done; done.
Qed.

Lemma foldl_rule_body_rows extra ty name is_pb tasks m rules acc label :
  rows_of label (acc_separate_report
                   (foldl (rule_body extra ty name is_pb tasks m) acc rules)) =
  rows_of label (acc_separate_report acc)
  ++ (table_row extra ty name tasks
      <$> filter (fun r => in_table extra tasks label r = true) rules).
Proof.
  revert acc. induction rules as [|r rules IH]; intros acc.
  - cbn. by rewrite app_nil_r.
  - change (foldl ?f acc (r :: rules)) with (foldl f (f acc r) rules).
    rewrite IH, rule_body_rows, filter_cons, <- app_assoc. f_equal.
    destruct (in_table extra tasks label r).
    + by rewrite decide_True.
    + by rewrite decide_False.
Qed.

Lemma inline_match_not_inline extra tasks r :
  is_inline r <> true -> inline_match extra tasks r = false.
Proof.
  unfold is_inline, inline_match. destruct (Rule.separate_report r); [|done].
  intros _. cbn. by rewrite andb_false_r.
Qed.

Lemma existsb_inline_filter extra tasks rules :
  existsb (inline_match extra tasks) (filter (fun r => is_inline r = true) rules)
  = existsb (inline_match extra tasks) rules.
Proof.
  induction rules as [|r rules IH]; [done|].
  rewrite filter_cons. cbn [existsb]. case_decide as Hr.
  - cbn. by rewrite IH.
  - by rewrite IH, inline_match_not_inline.
Qed.

Lemma inline_alt_filter extra tasks rules :
  inline_alt extra tasks (filter (fun r => is_inline r = true) rules)
  = inline_alt extra tasks rules.
Proof.
  induction rules as [|r rules IH]; [done|].
  rewrite filter_cons, inline_alt_cons. case_decide as Hr.
  - by rewrite inline_alt_cons, IH.
  - by rewrite IH, inline_match_not_inline.
Qed.

Lemma narrative_state_close_tree ty name is_pb m acc1 acc2 st1 st2 :
  narrative_state st1 = narrative_state st2 ->
  do_report acc1 = do_report acc2 ->
  tmp_result_txt_alt acc1 = tmp_result_txt_alt acc2 ->
  narrative_state (close_tree ty name is_pb m acc1 st1)
  = narrative_state (close_tree ty name is_pb m acc2 st2).
Proof.
  unfold narrative_state. intros [= Hn Hp Hr Hf Ht Hm] Hd Ha.
  unfold close_tree, count_tree. rewrite Hd, Ha.
  destruct is_pb, (do_report acc2 && _); cbn; congruence.
Qed.

(** The narrative state after a tree does not depend on the tabulated
    rules. *)
Lemma tree_body_inline_only rules extra st1 st2 item :
  narrative_state st1 = narrative_state st2 ->
  narrative_state <$> tree_body rules extra st1 item
  = narrative_state <$> tree_body (filter (fun r => is_inline r = true) rules) extra st2 item.
Proof.
  intros Hst. destruct item as [t|]; [|cbn; by rewrite Hst].
  unfold tree_body. destruct (key2name (root_key t)) as [name|e]; [cbn|done].
  assert (role_to_playbook_mappings st1 = role_to_playbook_mappings st2) as <-
    by (unfold narrative_state in Hst; congruence).
  destruct (update_mappings _ name (taskcalls t) _) as [m|e]; [cbn|done].
  f_equal. apply narrative_state_close_tree; [done| |].
  - edestruct rule_loop_report as [-> _]. edestruct rule_loop_report as [-> _].
    by rewrite existsb_inline_filter.
  - edestruct rule_loop_report as [_ ->]. edestruct rule_loop_report as [_ ->].
    by rewrite inline_alt_filter.
Qed.

Lemma for_each_inline_only rules extra forest st1 st2 :
  narrative_state st1 = narrative_state st2 ->
  narrative_state <$> for_each (tree_body rules extra) st1 forest
  = narrative_state <$> for_each (tree_body (filter (fun r => is_inline r = true) rules) extra)
                          st2 forest.
Proof.
  revert st1 st2. induction forest as [|item forest IH]; intros st1 st2 Hst.
  - cbn. by rewrite Hst.
  - cbn. pose proof (tree_body_inline_only rules extra st1 st2 item Hst) as Hstep.
    destruct (tree_body rules extra st1 item) as [st1'|e1],
             (tree_body _ extra st2 item) as [st2'|e2]; cbn in *; try done.
    apply IH. congruence.
Qed.

(** C5: for every tree, playbook or role alike, the table of a label gains
    exactly one row per enabled tabulated rule of that name whose check
    matches the tree, in rule order, and no other row; and the tabulated
    rules have no effect on the incident counter, the playbook and role
    counters, risk_found_playbooks and the numbered sections: the tree step,
    and the whole run, leave them as they are left when only the inline
    rules are run. *)
Theorem tabulated_independence rules extra st t st' label :
  tree_body rules extra st (Tree t) = Ok st' ->
  (exists name, key2name (root_key t) = Ok name /\
     rows_of label (separate_report st') =
     rows_of label (separate_report st)
     ++ (table_row extra (detect_type (root_key t)) name (taskcalls t)
         <$> filter (fun r => in_table extra (taskcalls t) label r = true) rules))
  /\ (exists st'',
        tree_body (filter (fun r => is_inline r = true) rules) extra st (Tree t) = Ok st'' /\
        report_num st' = report_num st'' /\
        playbook_count st' = playbook_count st'' /\
        role_count st' = role_count st'' /\
        risk_found_playbooks st' = risk_found_playbooks st'' /\
        tmp_result_txt st' = tmp_result_txt st'')
  /\ (forall forest c,
        narrative_state <$> run rules forest c
        = narrative_state <$> run (filter (fun r => is_inline r = true) rules) forest c).
Proof.
  intros Hst. split; [|split].
  - apply tree_body_Ok in Hst as (name & m & Hn & _ & ->). exists name. split; [done|].
    edestruct close_tree_result_dict as (_ & -> & _).
    unfold rule_loop. by rewrite foldl_rule_body_rows.
  - pose proof (tree_body_inline_only rules extra st st (Tree t) eq_refl) as Heq.
    rewrite Hst in Heq.
    destruct (tree_body (filter _ rules) extra st (Tree t)) as [st''|e]; [|done].
    exists st''. split; [done|]. cbn in Heq. unfold narrative_state in Heq.
    injection Heq as ??????. done.
  - intros forest c. by apply for_each_inline_only.
Qed.

End Tabulated.

(** ** The mapping from roles to playbooks *)

Section Mappings.
Context `{Imports}.

Lemma mapping_grows_refl m : mapping_grows m m.
Proof. intros role l Hl. exists []. by rewrite app_nil_r. Qed.

Lemma mapping_grows_trans m1 m2 m3 :
  mapping_grows m1 m2 -> mapping_grows m2 m3 -> mapping_grows m1 m3.
Proof.
  intros H12 H23 role l Hl. destruct (H12 _ _ Hl) as [l1 Hl1].
  destruct (H23 _ _ Hl1) as [l2 Hl2]. exists (l1 ++ l2). by rewrite app_assoc.
Qed.

Lemma taskcall_body_mapping playbook m task m' :
  taskcall_body playbook m task = Ok m' ->
  mapping_grows m m'
  /\ (mapping_nodup m -> mapping_nodup m')
  /\ (forall role p, linked m' role p ->
        linked m role p \/ (p = playbook /\ role_inclusion task role)).
Proof.
  unfold taskcall_body, role_inclusion.
  destruct (split_go "/" 0 (defined_in (spec task))) as [|part0 parts]; [done|].
  case_bool_decide as H0; [|intros [= <-]; split; [apply mapping_grows_refl | by auto]].
  subst part0. destruct parts as [|role_name rest]; [done|]. cbn.
  intros [= <-]. split; [|split].
  - intros role l Hl. destruct (decide (role_name = role)) as [->|Hne].
    + rewrite lookup_insert_eq, Hl. cbn. case_bool_decide; [exists [] | exists [playbook]].
      * by rewrite app_nil_r.
      * done.
    + exists []. by rewrite lookup_insert_ne, app_nil_r.
  - intros Hnd role l. destruct (decide (role_name = role)) as [->|Hne].
    + rewrite lookup_insert_eq. intros [= <-].
      assert (NoDup (default [] (m !! role))) as Hl.
      { destruct (m !! role) eqn:Hr; cbn; [by eapply Hnd | constructor]. }
      case_bool_decide; [done|].
      apply NoDup_app. split; [done|]. split; [|apply NoDup_singleton].
      intros x Hx ->%list_elem_of_singleton. done.
    + rewrite lookup_insert_ne by done. apply Hnd.
  - intros role p (l & Hl & Hp). destruct (decide (role_name = role)) as [->|Hne].
    + rewrite lookup_insert_eq in Hl. injection Hl as <-.
      assert (p ∈ default [] (m !! role) \/ p = playbook) as [Hin | ->].
      { case_bool_decide; [by left|].
        apply elem_of_app in Hp as [?| ->%list_elem_of_singleton]; auto. }
      * left. destruct (m !! role) as [l|] eqn:Hr; cbn in Hin.
        -- by exists l.
        -- by apply elem_of_nil in Hin.
      * right. eauto.
    + rewrite lookup_insert_ne in Hl by done. left. by exists l.
Qed.

Lemma for_each_taskcall_body_mapping playbook tasks m m' :
  for_each (taskcall_body playbook) m tasks = Ok m' ->
  mapping_grows m m'
  /\ (mapping_nodup m -> mapping_nodup m')
  /\ (forall role p, linked m' role p ->
        linked m role p \/
        (p = playbook /\ exists task, task ∈ tasks /\ role_inclusion task role)).
Proof.
  revert m. induction tasks as [|task tasks IH]; intros m.
  - intros [= <-]. split; [apply mapping_grows_refl | by auto].
  - cbn. intros (m1 & H1 & H2)%bind_Ok.
    apply taskcall_body_mapping in H1 as (G1 & N1 & P1).
    apply IH in H2 as (G2 & N2 & P2). split; [|split].
    + by eapply mapping_grows_trans.
    + auto.
    + intros role p Hl. destruct (P2 _ _ Hl) as [Hl1 | (-> & task' & Hin & Hr)].
      * destruct (P1 _ _ Hl1) as [? | (-> & Hr)]; [by left|].
        right. split; [done|]. exists task. split; [left | done].
      * right. split; [done|]. exists task'. split; [by right | done].
Qed.

Lemma tree_body_mapping rules extra st item st' :
  tree_body rules extra st item = Ok st' ->
  mapping_grows (role_to_playbook_mappings st) (role_to_playbook_mappings st')
  /\ (mapping_nodup (role_to_playbook_mappings st) ->
      mapping_nodup (role_to_playbook_mappings st'))
  /\ (forall role p, linked (role_to_playbook_mappings st') role p ->
        linked (role_to_playbook_mappings st) role p \/ from_playbook_tree item role p).
Proof.
  destruct item as [t|]; [|intros [= <-]; split; [apply mapping_grows_refl | by auto]].
  intros (name & m & Hn & Hm & ->)%tree_body_Ok.
  edestruct close_tree_result_dict as (_ & _ & ->).
  unfold update_mappings, is_playbook_key in Hm.
  case_bool_decide as Hpb; cycle 1.
  { injection Hm as <-. split; [apply mapping_grows_refl | by auto]. }
  destruct name as [playbook|]; cycle 1.
  { injection Hm as <-. split; [apply mapping_grows_refl | by auto]. }
  apply for_each_taskcall_body_mapping in Hm as (G & N & P).
  split; [done|]. split; [done|].
  intros role p Hl. destruct (P _ _ Hl) as [? | (-> & task & Hin & Hr)]; [by left|].
  right. exists t. eauto 10.
Qed.

Lemma for_each_mapping_nodup rules extra forest st st' :
  for_each (tree_body rules extra) st forest = Ok st' ->
  mapping_nodup (role_to_playbook_mappings st) ->
  mapping_nodup (role_to_playbook_mappings st').
Proof.
  revert st. induction forest as [|item forest IH]; intros st; [by intros [= <-]|].
  cbn. intros (st1 & H1 & H2)%bind_Ok Hnd. apply (IH _ H2).
  by apply (tree_body_mapping _ _ _ _ _ H1).
Qed.

(** C7: at every step of a run, [role_to_playbook_mappings] only grows:
    every key stays and its list is extended at the end only; no list has a
    playbook twice; and a link from a role to a playbook that is new after
    the step was made by a playbook tree of that name, from one of its tasks
    whose [defined_in] splits at the slashes into roles, the role name, and
    the rest. *)
Theorem mappings_only_grow rules c forest item st st' :
  run rules forest c = Ok st ->
  tree_body rules (extra_check_args_of c) st item = Ok st' ->
  mapping_grows (role_to_playbook_mappings st) (role_to_playbook_mappings st')
  /\ mapping_nodup (role_to_playbook_mappings st')
  /\ (forall role p,
        linked (role_to_playbook_mappings st') role p ->
        ~ linked (role_to_playbook_mappings st) role p ->
        from_playbook_tree item role p).
Proof.
  intros Hrun Hstep.
  destruct (tree_body_mapping _ _ _ _ _ Hstep) as (G & N & P).
  split; [done|]. split.
  - apply N. apply (for_each_mapping_nodup _ _ _ _ _ Hrun). by intros role l ?.
  - intros role p Hl Hnl. by destruct (P _ _ Hl).
Qed.

(** The used_in line of a numbered section is the list that the mapping
    holds for the name of the tree when the tree is processed: a playbook is
    printed exactly when it was linked to the role by an earlier tree. *)
Lemma narrative_used_in_is_snapshot rules extra st t role :
  detect_type (root_key t) <> "playbook" ->
  key2name (root_key t) = Ok (Some role) ->
  existsb (inline_match extra (taskcalls t)) rules = true ->
  exists st' used_in,
    tree_body rules extra st (Tree t) = Ok st'
    /\ tmp_result_txt st' =
         tmp_result_txt st +:+
         section_txt (report_num st) (detect_type (root_key t)) (Some role) used_in
           (inline_alt extra (taskcalls t) rules)
    /\ forall p, p ∈ used_in <-> linked (role_to_playbook_mappings st) role p.
Proof.
  intros Ht Hn Hm.
  destruct (tree_body_not_playbook_report rules extra st t (Some role) Ht Hn)
    as (st' & Hst & _ & _ & _ & Hyes & _).
  destruct (Hyes Hm) as (_ & _ & Htxt).
  exists st', (mapping_get (role_to_playbook_mappings st) (Some role)).
  split; [done|]. split; [done|]. intros p. unfold linked. cbn.
  destruct (role_to_playbook_mappings st !! role) as [l|]; cbn.
  - split; [by exists l | by intros (l' & [= <-] & ?)].
  - split; [by intros ?%elem_of_nil | by intros (l' & [=] & _)].
Qed.

End Mappings.

(** ** Tables without rows *)

Section Subject.
Context `{Imports}.

Lemma make_subject_str_cases (p r : nat) :
  (0 < p -> r = 0 -> make_subject_str p r = "playbooks")
  /\ (p = 0 -> 0 < r -> make_subject_str p r = "roles")
  /\ (0 < p -> 0 < r -> make_subject_str p r = "playbooks/roles")
  /\ (p = 0 -> r = 0 -> make_subject_str p r = "").
Proof.
  unfold make_subject_str. destruct p, r; cbn; repeat split; intros; (done || lia).
Qed.

Lemma table_txt_no_rows p r e :
  te_matched e = [] ->
  table_txt p r e = replace subject_placeholder (make_subject_str p r) (all_ok_template (te_rule e)).
Proof.
  intros He. unfold table_txt, all_ok_template. rewrite He. cbn.
  by case_bool_decide.
Qed.

Lemma od_get_setdefault_Some {V : Type} (k k' : string) (v e : V) (d : odict V) :
  od_get k (od_setdefault k' v d) = Some e ->
  od_get k d = Some e \/ (k' = k /\ e = v).
Proof.
  rewrite od_get_setdefault. destruct (od_get k d); [auto|].
  case_bool_decide; [|done]. intros [= <-]. auto.
Qed.

Lemma table_ok_add_row rules row k d :
  table_ok rules d -> table_ok rules (od_adjust (add_row row) k d).
Proof.
  intros Hd label e. rewrite od_get_adjust. case_bool_decide; [|apply Hd].
  destruct (od_get label d) as [e0|] eqn:He0; [|done]. intros [= <-].
  apply (Hd _ _ He0).
Qed.

Lemma rule_body_table_ok rules extra ty name is_pb tasks m acc r :
  r ∈ rules ->
  table_ok rules (acc_separate_report acc) ->
  table_ok rules (acc_separate_report (rule_body extra ty name is_pb tasks m acc r)).
Proof.
  intros Hr Hacc. unfold rule_body.
  destruct (Rule.enabled r) eqn:He; cbn; [|done].
  destruct (Rule.check r tasks extra) as [matched message]; cbn.
  assert (Rule.separate_report r = true ->
          table_ok rules (od_setdefault (Rule.name r) {| te_rule := r; te_matched := [] |}
                            (acc_separate_report acc))) as Hsd.
  { intros Hs label e [?|[<- ->]]%od_get_setdefault_Some; [by apply Hacc|].
    by repeat split. }
  destruct matched, (Rule.separate_report r) eqn:Hs, is_pb; cbn;
    try done; try (by apply Hsd); by apply table_ok_add_row, Hsd.
Qed.

Lemma foldl_rule_body_table_ok rules extra ty name is_pb tasks m rs acc :
  (forall r, r ∈ rs -> r ∈ rules) ->
  table_ok rules (acc_separate_report acc) ->
  table_ok rules (acc_separate_report (foldl (rule_body extra ty name is_pb tasks m) acc rs)).
Proof.
  revert acc. induction rs as [|r rs IH]; intros acc Hrs Hacc; [done|].
  change (foldl ?f acc (r :: rs)) with (foldl f (f acc r) rs).
  apply IH; [intros; apply Hrs; by right|].
  apply rule_body_table_ok; [apply Hrs; by left | done].
Qed.

Lemma tree_body_table_ok rules extra st item st' :
  tree_body rules extra st item = Ok st' ->
  table_ok rules (separate_report st) -> table_ok rules (separate_report st').
Proof.
  destruct item as [t|]; [|by intros [= <-]].
  intros (name & m & _ & _ & ->)%tree_body_Ok Hst.
  edestruct close_tree_result_dict as (_ & -> & _).
  by apply foldl_rule_body_table_ok.
Qed.

Lemma tree_body_counted rules extra st t st' :
  tree_body rules extra st (Tree t) = Ok st' ->
  0 < total (playbook_count st') + total (role_count st').
Proof.
  intros (name & m & _ & _ & ->)%tree_body_Ok.
  unfold close_tree, count_tree.
  destruct (is_playbook_key (root_key t)); cbn; case_match; cbn; lia.
Qed.

Lemma for_each_tables rules extra forest st st' :
  for_each (tree_body rules extra) st forest = Ok st' ->
  table_ok rules (separate_report st) /\ counted_if_tables st ->
  table_ok rules (separate_report st') /\ counted_if_tables st'.
Proof.
  revert st. induction forest as [|item forest IH]; intros st; [by intros [= <-]|].
  cbn. intros (st1 & H1 & H2)%bind_Ok [Hok Hc]. apply (IH _ H2). split.
  - by eapply tree_body_table_ok.
  - destruct item as [t|]; [|by injection H1 as <-].
    intros _. by eapply tree_body_counted.
Qed.

Lemma render_table_section st label e :
  (label, e) ∈ separate_report st ->
  exists pre post,
    (render st).1 =
    pre +:+ table_section (total (playbook_count st)) (total (role_count st)) (label, e)
    +:+ post.
Proof.
  intros (l1 & l2 & Hl)%list_elem_of_split. unfold render. cbn [fst]. rewrite Hl.
  rewrite fmap_app, fmap_cons, concat_app_str, concat_cons_str.
  set (f := table_section _ _).
  exists (header_txt +:+ summary_txt st +:+ dashes +:+ nl +:+ tmp_result_txt st
          +:+ String.concat "" (f <$> l1)),
         (String.concat "" (f <$> l2)).
  by rewrite !app_assoc_str.
Qed.

(** C8: in a run that leaves a tabulated rule's table without rows, the
    section of the rule in the narrative is its label, then the template
    with the subject placeholder replaced, then the separator.  The template
    is the rule's all_ok_message after two spaces (and the default sentence
    when the message is empty); the subject is playbooks when only playbooks
    were counted, roles when only roles were counted, and playbooks/roles
    when both were; one of the three is the case whenever a table exists. *)
Theorem all_ok_message_subject rules forest c st label e :
  run rules forest c = Ok st ->
  od_get label (separate_report st) = Some e ->
  te_matched e = [] ->
  let p := total (playbook_count st) in
  let r := total (role_count st) in
  tabulated_rule_of rules label e
  /\ (Rule.all_ok_message (te_rule e) <> "" ->
      all_ok_template (te_rule e) = "  " +:+ Rule.all_ok_message (te_rule e))
  /\ exists subject,
       subject = make_subject_str p r
       /\ (0 < p /\ r = 0 /\ subject = "playbooks"
           \/ p = 0 /\ 0 < r /\ subject = "roles"
           \/ 0 < p /\ 0 < r /\ subject = "playbooks/roles")
       /\ exists pre post,
            (render st).1 =
            pre
            +:+ (label +:+ nl
                 +:+ indent (replace subject_placeholder subject (all_ok_template (te_rule e))) 0
                 +:+ nl +:+ dashes +:+ nl)
            +:+ post.
Proof.
  intros Hrun Hget Hrows p r.
  destruct (for_each_tables _ _ _ _ _ Hrun) as [Hok Hc].
  { split; [by intros label' e' ? | by intros ?]. }
  split; [by apply Hok|]. split.
  { intros Hne. unfold all_ok_template. by rewrite bool_decide_eq_false_2. }
  exists (make_subject_str p r). split; [done|]. split.
  - assert (0 < p + r) as Hpos.
    { apply Hc. intros Hnil. by rewrite Hnil in Hget. }
    destruct (make_subject_str_cases p r) as (C1 & C2 & C3 & _).
    destruct p, r; try lia.
    + right; left. split_and!; try lia. apply C2; lia.
    + left. split_and!; try lia. apply C1; lia.
    + right; right. split_and!; try lia. apply C3; lia.
  - destruct (render_table_section st label e) as (pre & post & Hrender);
      [by apply od_get_elem_of|].
    exists pre, post. rewrite Hrender. unfold table_section.
    rewrite table_txt_no_rows by done. by rewrite !app_assoc_str.
Qed.

End Subject.

(** ** Runs with rules that agree *)

Section Determinism.
Context `{Imports}.

Lemma table_agree_get k d1 d2 :
  table_agree d1 d2 ->
  match od_get k d1, od_get k d2 with
  | Some e1, Some e2 => entry_agree (k, e1) (k, e2)
  | None, None => True
  | _, _ => False
  end.
Proof.
  induction 1 as [|[k1 e1] [k2 e2] d1 d2 (Hk & Hm & Hr) _ IH]; [done|].
  cbn in *. subst k2. case_bool_decide; [by subst | done].
Qed.

Lemma table_agree_mem k d1 d2 : table_agree d1 d2 -> od_mem k d1 = od_mem k d2.
Proof.
  intros Hd. apply (table_agree_get k) in Hd. unfold od_mem.
  by destruct (od_get k d1), (od_get k d2).
Qed.

Lemma table_agree_setdefault k e1 e2 d1 d2 :
  entry_agree (k, e1) (k, e2) -> table_agree d1 d2 ->
  table_agree (od_setdefault k e1 d1) (od_setdefault k e2 d2).
Proof.
  intros He Hd. unfold od_setdefault. rewrite <- (table_agree_mem k d1 d2 Hd).
  destruct (od_mem k d1); [done|]. apply Forall2_app; [done|]. by constructor.
Qed.

Lemma table_agree_add_row row k d1 d2 :
  table_agree d1 d2 ->
  table_agree (od_adjust (add_row row) k d1) (od_adjust (add_row row) k d2).
Proof.
  induction 1 as [|[k1 e1] [k2 e2] d1 d2 (Hk & Hm & Hr) Hd IH]; [constructor|].
  cbn in *. subst k2. case_bool_decide.
  - constructor; [|done]. repeat split; cbn; [done|]. by rewrite Hr.
  - constructor; [|done]. by repeat split.
Qed.

Lemma rule_body_agree extra ty name is_pb tasks m a1 a2 r1 r2 :
  Rule.name r1 = Rule.name r2 -> Rule.enabled r1 = Rule.enabled r2 ->
  Rule.separate_report r1 = Rule.separate_report r2 ->
  Rule.all_ok_message r1 = Rule.all_ok_message r2 ->
  Rule.check r1 tasks extra = Rule.check r2 tasks extra ->
  acc_agree a1 a2 ->
  acc_agree (rule_body extra ty name is_pb tasks m a1 r1)
            (rule_body extra ty name is_pb tasks m a2 r2).
Proof.
  intros Hn He Hs Hm Hc (Ht & Hd & Hr & Ha). unfold rule_body.
  rewrite <- He, <- Hs, <- Hc, <- Hn, <- Hd, <- Hr, <- Ha.
  destruct (Rule.enabled r1); cbn; [|done].
  destruct (Rule.check r1 tasks extra) as [matched message].
  assert (table_agree
            (od_setdefault (Rule.name r1) {| te_rule := r1; te_matched := [] |}
               (acc_separate_report a1))
            (od_setdefault (Rule.name r1) {| te_rule := r2; te_matched := [] |}
               (acc_separate_report a2))) as Hsd
    by (by apply table_agree_setdefault).
  destruct matched, (Rule.separate_report r1), is_pb; cbn;
    repeat split; cbn; try done; by apply table_agree_add_row.
Qed.

Lemma foldl_rule_body_agree extra forest t ty name is_pb m rules1 rules2 a1 a2 :
  Tree t ∈ forest ->
  Forall2 (rule_agree extra forest) rules1 rules2 ->
  acc_agree a1 a2 ->
  acc_agree (foldl (rule_body extra ty name is_pb (taskcalls t) m) a1 rules1)
            (foldl (rule_body extra ty name is_pb (taskcalls t) m) a2 rules2).
Proof.
  intros Ht Hrules. revert a1 a2.
  induction Hrules as [|r1 r2 rules1 rules2 (Hn & He & Hs & Hm & Hc) _ IH];
    intros a1 a2 Ha; [done|].
  cbn. apply IH. apply rule_body_agree; auto.
Qed.

Lemma close_tree_agree ty name is_pb m a1 a2 st1 st2 :
  state_agree st1 st2 -> acc_agree a1 a2 ->
  state_agree (close_tree ty name is_pb m a1 st1) (close_tree ty name is_pb m a2 st2).
Proof.
  intros (Hn & _ & _) (Ht & Hd & Hr & Ha). split; [|split].
  - by apply narrative_state_close_tree.
  - by rewrite !(proj1 (close_tree_result_dict _ _ _ _ _ _)).
  - by rewrite !(proj1 (proj2 (close_tree_result_dict _ _ _ _ _ _))).
Qed.

Lemma tree_body_agree extra forest rules1 rules2 st1 st2 item :
  item ∈ forest ->
  Forall2 (rule_agree extra forest) rules1 rules2 ->
  state_agree st1 st2 ->
  result_agree state_agree (tree_body rules1 extra st1 item) (tree_body rules2 extra st2 item).
Proof.
  intros Hin Hrules Hst. destruct item as [t|]; [|done].
  unfold tree_body. destruct (key2name (root_key t)) as [name|e]; [cbn|done].
  assert (role_to_playbook_mappings st1 = role_to_playbook_mappings st2) as <-.
  { destruct Hst as (Hn & _). unfold narrative_state in Hn. congruence. }
  destruct (update_mappings _ name (taskcalls t) _) as [m|e]; [cbn|done].
  apply close_tree_agree; [done|]. unfold rule_loop.
  eapply foldl_rule_body_agree; [done | done |].
  destruct Hst as (_ & Hd & Ht). by repeat split.
Qed.

Lemma for_each_agree extra forest rules1 rules2 items st1 st2 :
  (forall item, item ∈ items -> item ∈ forest) ->
  Forall2 (rule_agree extra forest) rules1 rules2 ->
  state_agree st1 st2 ->
  result_agree state_agree (for_each (tree_body rules1 extra) st1 items)
                           (for_each (tree_body rules2 extra) st2 items).
Proof.
  intros Hsub Hrules. revert st1 st2.
  induction items as [|item items IH]; intros st1 st2 Hst; [done|].
  assert (result_agree state_agree (tree_body rules1 extra st1 item)
            (tree_body rules2 extra st2 item)) as Hstep.
  { apply (tree_body_agree extra forest); [apply Hsub; left | done | done]. }
  cbn. destruct (tree_body rules1 extra st1 item) as [st1'|e1],
                (tree_body rules2 extra st2 item) as [st2'|e2]; cbn in *; try done.
  apply IH; [intros; apply Hsub; by right | done].
Qed.

Lemma table_section_agree p r x y :
  entry_agree x y -> table_section p r x = table_section p r y.
Proof.
  destruct x as [k1 e1], y as [k2 e2]. intros (Hk & Hm & Hr). cbn in *. subst k2.
  unfold table_section, table_txt. by rewrite Hm, Hr.
Qed.

Lemma table_sections_agree p r d1 d2 :
  table_agree d1 d2 ->
  String.concat "" (table_section p r <$> d1) = String.concat "" (table_section p r <$> d2).
Proof.
  induction 1 as [|x y d1 d2 Hxy _ IH]; [done|].
  rewrite !fmap_cons, !concat_cons_str, IH. f_equal. by apply table_section_agree.
Qed.

Lemma render_agree st1 st2 : state_agree st1 st2 -> render st1 = render st2.
Proof.
  intros (Hn & Hd & Ht). unfold narrative_state in Hn.
  injection Hn as Hnum Hpc Hrc Hrisk Htxt Hm.
  unfold render, summary_txt, summary_of, details_of.
  rewrite Hpc, Hrc, Hrisk, Htxt, Hm, Hd.
  by rewrite (table_sections_agree _ _ _ _ Ht).
Qed.

Lemma state_agree_init : state_agree init init.
Proof. split; [done|]. split; [done | constructor]. Qed.

(** C6: [detect] is a function of the forest, the collection name and
    what the rules do on the trees of the forest: two runs whose rule
    objects, instantiated anew by each run, have the same fields and whose
    checks agree on the task lists of the forest return the same narrative
    text and the same structured report, or raise the same exception. *)
Theorem detect_deterministic rules1 rules2 forest c :
  Forall2 (rule_agree (extra_check_args_of c) forest) rules1 rules2 ->
  detect rules1 forest c = detect rules2 forest c.
Proof.
  intros Hrules. unfold detect, run.
  pose proof (for_each_agree (extra_check_args_of c) forest rules1 rules2 forest init init
                (fun _ Hin => Hin) Hrules state_agree_init) as Hrun.
  destruct (for_each (tree_body rules1 _) init forest) as [st1|e1],
           (for_each (tree_body rules2 _) init forest) as [st2|e2]; cbn in *;
    try done.
  - f_equal. by apply render_agree.
  - by f_equal.
Qed.

End Determinism.

(** ** When the detector returns *)

Section Totality.
Context `{Imports}.

Lemma split_go_not_nil sep skip s : split_go sep skip s <> [].
Proof.
  revert skip. induction s as [|c s IH]; intros skip; [done|].
  cbn [split_go]. destruct skip; [|apply IH].
  destruct (String.prefix sep (String c s)); [done|].
  by destruct (split_go sep 0 s).
Qed.

Lemma taskcall_body_total playbook m task :
  split_go "/" 0 (defined_in (spec task)) <> ["roles"] ->
  exists m', taskcall_body playbook m task = Ok m'.
Proof.
  intros Hwf. unfold taskcall_body.
  destruct (split_go "/" 0 (defined_in (spec task))) as [|part0 parts] eqn:Hs;
    [by apply split_go_not_nil in Hs|].
  case_bool_decide; [|eauto]. subst. destruct parts; [done | cbn; eauto].
Qed.

Lemma for_each_taskcall_body_total playbook tasks m :
  (forall task, task ∈ tasks -> split_go "/" 0 (defined_in (spec task)) <> ["roles"]) ->
  exists m', for_each (taskcall_body playbook) m tasks = Ok m'.
Proof.
  revert m. induction tasks as [|task tasks IH]; intros m Hwf; [cbn; eauto|].
  destruct (taskcall_body_total playbook m task) as [m1 H1]; [apply Hwf; left|].
  cbn. rewrite H1. cbn. apply IH. intros. apply Hwf. by right.
Qed.

Lemma tree_body_total rules extra st item :
  key_delimiter <> "" -> tasks_well_formed item ->
  exists st', tree_body rules extra st item = Ok st'.
Proof.
  intros Hd Hwf. destruct item as [t|]; [|cbn; eauto].
  destruct (key2name_total (root_key t) Hd) as [name Hn].
  unfold tree_body. rewrite Hn. cbn. unfold update_mappings.
  case_bool_decide; [|cbn; eauto]. destruct name as [playbook|]; [|cbn; eauto].
  destruct (for_each_taskcall_body_total playbook (taskcalls t)
              (role_to_playbook_mappings st) Hwf) as [m ->].
  cbn. eauto.
Qed.

(** [detect] returns on every forest whose playbook tasks are well formed. *)
Lemma detect_total rules forest c :
  key_delimiter <> "" -> Forall tasks_well_formed forest ->
  exists txt rep, detect rules forest c = Ok (txt, rep).
Proof.
  intros Hd Hwf. unfold detect, run.
  generalize init. induction Hwf as [|item forest Hitem _ IH]; intros st.
  - exists (render st).1, (render st).2. reflexivity.
  - destruct (tree_body_total rules (extra_check_args_of c) st item Hd Hitem) as [st1 H1].
    cbn. rewrite H1. cbn. apply IH.
Qed.

End Totality.

(** ** The claims on concrete runs *)

Section Runs.
Import Examples SpecImports SampleCustomAnnotator.

Lemma homebrew_spec_witness :
  is_dict (PyStr "wget") = false /\ homebrew (PyStr "wget") = ∅.
Proof. split; [reflexivity | apply (proj1 (proj2 homebrew_spec)); reflexivity]. Defined.

(** C1, the claim as stated fails: a tree whose root key parses to the type
    task, neither playbook nor role, is counted as a role, gets the incident
    section number 1, a row in the table of the tabulated rule and a
    record under each rule. *)
Lemma unknown_root_type_not_skipped :
  detect_type (root_key unknown_tree) <> "playbook"
  /\ detect_type (root_key unknown_tree) <> "role"
  /\ exists st,
       run [inline_rule; table_rule] [Tree unknown_tree] "" = Ok st
       /\ role_count st = {| total := 1; risk := 1 |}
       /\ report_num st = 2
       /\ tmp_result_txt st =
            section_txt 1 "task" None []
              ("InlineRule" +:+ nl +:+ "a task was found" +:+ nl)
       /\ rows_of "TableRule" (separate_report st) =
            [{| row_label := "task"; row_name := None; row_message := "this tree has tasks" |}]
       /\ details_of st =
            [{| rule := "InlineRule";
                results := [{| type_ := "task"; name_ := None;
                               message_ := "a task was found";
                               playbooks_use_this_role := Some [] |}] |};
             {| rule := "TableRule";
                results := [{| type_ := "task"; name_ := None;
                               message_ := "this tree has tasks";
                               playbooks_use_this_role := None |}] |}].
Proof.
  split; [by vm_compute|]. split; [by vm_compute|].
  eexists. split; [vm_compute; reflexivity|]. by vm_compute.
Qed.

(** C2, the claim as stated fails: both rules are enabled, the tabulated one
    matches no tree and the inline one matches a playbook only, and the
    details list is empty. *)
Lemma enabled_rules_without_details_entry :
  Rule.enabled quiet_rule = true /\ Rule.enabled inline_rule = true
  /\ (Rule.check inline_rule (taskcalls playbook0) None).1 = true
  /\ exists txt rep,
       detect [quiet_rule; inline_rule] [Tree playbook0] "" = Ok (txt, rep)
       /\ details rep = [].
Proof.
  split; [done|]. split; [done|]. split; [done|].
  do 2 eexists. split; [vm_compute; reflexivity | done].
Qed.

Lemma details_entry_iff_record_witness :
  (exists e, e ∈ details (report_of [inline_rule; quiet_rule] forest_role_between).2
             /\ rule e = "InlineRule") <->
  (exists r t, r ∈ [inline_rule; quiet_rule] /\ Tree t ∈ forest_role_between /\
     Rule.name r = "InlineRule" /\ Rule.enabled r = true /\
     (Rule.check r (taskcalls t) (extra_check_args_of "")).1 = true /\
     (Rule.separate_report r = true \/ detect_type (root_key t) <> "playbook")).
Proof.
  apply (details_entry_iff_record [inline_rule; quiet_rule] forest_role_between ""
           (report_of [inline_rule; quiet_rule] forest_role_between).1).
  vm_compute. reflexivity.
Defined.

(** C3, evaluated: role R is linked to p0.yml by the playbook at index 0 and
    first linked to p.yml by the playbook at index 2.  The role tree at
    index 1 prints the list it sees, which has p0.yml only, but its record
    keeps the list object of the mapping, and the returned report shows
    p.yml in it. *)
Theorem used_in_record_follows_later_playbooks :
  exists st1 st2 st3,
    run [inline_rule] [Tree playbook0] "" = Ok st1
    /\ role_to_playbook_mappings st1 !! "R" = Some ["p0.yml"]
    /\ tree_body [inline_rule] None st1 (Tree role_R) = Ok st2
    /\ role_to_playbook_mappings st2 !! "R" = Some ["p0.yml"]
    /\ tmp_result_txt st2 =
         section_txt 1 "role" (Some "R") ["p0.yml"]
           ("InlineRule" +:+ nl +:+ "a task was found" +:+ nl)
    /\ tree_body [inline_rule] None st2 (Tree playbook1) = Ok st3
    /\ role_to_playbook_mappings st3 !! "R" = Some ["p0.yml"; "p.yml"]
    /\ run [inline_rule] forest_role_between "" = Ok st3
    /\ tmp_result_txt st3 = tmp_result_txt st2
    /\ details_of st3 =
         [{| rule := "InlineRule";
             results := [{| type_ := "role"; name_ := Some "R";
                            message_ := "a task was found";
                            playbooks_use_this_role := Some ["p0.yml"; "p.yml"] |}] |}].
Proof.
  do 3 eexists.
  split; [vm_compute; reflexivity|]. split; [by vm_compute|].
  split; [vm_compute; reflexivity|]. split; [by vm_compute|]. split; [by vm_compute|].
  split; [vm_compute; reflexivity|]. split; [by vm_compute|].
  split; [by vm_compute|]. split; by vm_compute.
Qed.

Lemma tabulated_independence_witness :
  rows_of "TableRule"
    (separate_report (state_after [inline_rule; table_rule] [Tree playbook0]))
  = [{| row_label := "playbook"; row_name := Some "p0.yml";
        row_message := "this tree has tasks" |}].
Proof.
  destruct (tabulated_independence [inline_rule; table_rule] None init playbook0
              (state_after [inline_rule; table_rule] [Tree playbook0]) "TableRule")
    as ((name & Hn & Hrows) & _); [vm_compute; reflexivity|].
  rewrite Hrows. injection Hn as <-. reflexivity.
Defined.

Lemma detect_deterministic_witness :
  detect [inline_rule] forest_role_between "" = detect [inline_rule_again] forest_role_between "".
Proof.
  apply detect_deterministic. constructor; [|constructor].
  split; [reflexivity|]. split; [reflexivity|]. split; [reflexivity|].
  split; [reflexivity|]. intros t _. simpl. destruct (taskcalls t); reflexivity.
Defined.

Lemma mappings_only_grow_witness :
  mapping_grows
    (role_to_playbook_mappings (state_after [inline_rule] [Tree playbook0]))
    (role_to_playbook_mappings (state_after [inline_rule] [Tree playbook0; Tree playbook1]))
  /\ mapping_nodup
       (role_to_playbook_mappings (state_after [inline_rule] [Tree playbook0; Tree playbook1])).
Proof.
  destruct (mappings_only_grow [inline_rule] "" [Tree playbook0] (Tree playbook1)
              (state_after [inline_rule] [Tree playbook0])
              (state_after [inline_rule] [Tree playbook0; Tree playbook1]))
    as (Hg & Hn & _); [vm_compute; reflexivity | vm_compute; reflexivity |].
  split; [exact Hg | exact Hn].
Defined.

(** The example of the spec: no match across 3 playbooks and 2 roles. *)
Lemma all_ok_message_subject_witness :
  exists pre post,
    (report_of [quiet_rule] forest_3_playbooks_2_roles).1 =
    pre
    +:+ ("QuietRule" +:+ nl +:+ "  No risk in playbooks/roles" +:+ nl +:+ dashes +:+ nl)
    +:+ post.
Proof.
  destruct (all_ok_message_subject [quiet_rule] forest_3_playbooks_2_roles ""
              (state_after [quiet_rule] forest_3_playbooks_2_roles) "QuietRule"
              {| te_rule := quiet_rule; te_matched := [] |})
    as (_ & _ & subject & Hs & _ & pre & post & Htxt);
    [vm_compute; reflexivity | vm_compute; reflexivity | reflexivity |].
  exists pre, post. rewrite Hs in Htxt. exact Htxt.
Defined.

Example make_subject_str_3_2 : make_subject_str 3 2 = "playbooks/roles".
Proof. reflexivity. Qed.

End Runs.

(** C10: in every structured report that [detect] returns, the risk_found
    field of the playbooks summary entry, when the entry is there, is 0: the
    branch that increments the risk counter of playbooks is never taken.
    The narrative line of the playbooks prints the size of
    risk_found_playbooks instead, and there is a run in which it prints 1
    while the structured field is 0. *)
Theorem playbooks_risk_found_is_zero :
  (forall (I : Imports) rules forest c txt rep e,
     detect rules forest c = Ok (txt, rep) ->
     od_get "playbooks" (summary rep) = Some e ->
     risk_found e = 0)
  /\ (exists txt rep,
        @detect SpecImports.spec_imports [Examples.inline_rule]
          [Tree Examples.playbook0; Tree Examples.role_R] "" = Ok (txt, rep)
        /\ od_get "playbooks" (summary rep) = Some {| summary_total := 1; risk_found := 0 |}
        /\ String.prefix
             (header_txt +:+ "Playbooks" +:+ nl +:+ "  Total: 1" +:+ nl
              +:+ "  Risk Found: 1" +:+ nl) txt = true).
Proof.
  split.
  - intros I. apply detect_playbooks_risk_found.
  - do 2 eexists. split; [vm_compute; reflexivity|]. split; by vm_compute.
Qed.

Lemma playbooks_risk_found_is_zero_witness :
  risk_found {| summary_total := 1; risk_found := 0 |} = 0.
Proof.
  apply (proj1 playbooks_risk_found_is_zero SpecImports.spec_imports
           [Examples.inline_rule] [Tree Examples.playbook0; Tree Examples.role_R] ""
           (Examples.report_of [Examples.inline_rule]
              [Tree Examples.playbook0; Tree Examples.role_R]).1
           (Examples.report_of [Examples.inline_rule]
              [Tree Examples.playbook0; Tree Examples.role_R]).2);
    vm_compute; reflexivity.
Defined.

(** * Further properties of the detector *)

(** ** Counts, incident numbers and the summary *)

Section Counts.
Context `{Imports}.

Lemma tree_body_playbook_report rules extra st t st' :
  detect_type (root_key t) = "playbook" ->
  tree_body rules extra st (Tree t) = Ok st' ->
  playbook_count st' =
    {| total := total (playbook_count st) + 1; risk := risk (playbook_count st) |}
  /\ role_count st' = role_count st
  /\ report_num st' = report_num st
  /\ tmp_result_txt st' = tmp_result_txt st
  /\ risk_found_playbooks st' = risk_found_playbooks st.
Proof.
  intros Ht (name & m & _ & _ & ->)%tree_body_Ok.
  unfold is_playbook_key. rewrite (bool_decide_eq_true_2 _ Ht).
  rewrite close_tree_playbook; [done|].
  by edestruct rule_loop_report as [-> _].
Qed.

Lemma tree_body_counts rules extra st item st' :
  tree_body rules extra st item = Ok st' ->
  total (playbook_count st') =
    total (playbook_count st) + (if is_playbook_item item then 1 else 0)
  /\ total (role_count st') = total (role_count st) + (if is_role_item item then 1 else 0)
  /\ risk (role_count st') =
       risk (role_count st) + (if is_risky_item extra rules item then 1 else 0)
  /\ report_num st' = report_num st + (if is_risky_item extra rules item then 1 else 0).
Proof.
  destruct item as [t|]; [|intros [= <-]; cbn; lia].
  intros Hst. cbn. unfold is_playbook_key. case_bool_decide as Hpb; cbn.
  - destruct (tree_body_playbook_report _ _ _ _ _ Hpb Hst) as (-> & -> & -> & _).
    cbn. lia.
  - pose proof Hst as (name & m & Hn & _ & _)%tree_body_Ok.
    destruct (tree_body_not_playbook_report rules extra st t name Hpb Hn)
      as (st1 & Hst1 & Htot & Hp & _ & Hyes & Hno).
    assert (st1 = st') as -> by congruence. rewrite Hp, Htot.
    destruct (existsb (inline_match extra (taskcalls t)) rules).
    + destruct Hyes as (-> & -> & _); [done|]. lia.
    + destruct Hno as (-> & -> & _); [done|]. lia.
Qed.

Lemma for_each_counts rules extra forest st st' :
  for_each (tree_body rules extra) st forest = Ok st' ->
  total (playbook_count st') = total (playbook_count st) + count_if is_playbook_item forest
  /\ total (role_count st') = total (role_count st) + count_if is_role_item forest
  /\ risk (role_count st') =
       risk (role_count st) + count_if (is_risky_item extra rules) forest
  /\ report_num st' = report_num st + count_if (is_risky_item extra rules) forest.
Proof.
  revert st. induction forest as [|item forest IH]; intros st.
  - intros [= <-]. cbn. lia.
  - cbn. intros (st1 & H1 & H2)%bind_Ok.
    destruct (tree_body_counts _ _ _ _ _ H1) as (A1 & A2 & A3 & A4).
    destruct (IH _ H2) as (B1 & B2 & B3 & B4). lia.
Qed.

Lemma count_if_le {A : Type} (f g : A -> bool) (l : list A) :
  (forall x, f x = true -> g x = true) -> count_if f l <= count_if g l.
Proof.
  intros Hfg. induction l as [|x l IH]; cbn; [lia|].
  destruct (f x) eqn:Hf; [rewrite (Hfg _ Hf); lia | destruct (g x); lia].
Qed.

Lemma count_if_tree_split (forest : list ForestItem) :
  count_if is_playbook_item forest + count_if is_role_item forest = count_if is_tree forest.
Proof.
  induction forest as [|[t|] forest IH]; cbn; [lia | | lia].
  destruct (is_playbook_key (root_key t)); cbn; lia.
Qed.

(** X1: The summary of the structured report is the count of the forest: the
    playbook trees, the other trees, and among these the trees on which an
    inline rule matches; every tree is in one of the two totals, and no more
    trees are at risk than there are roles. *)
Theorem summary_counts_forest rules forest c txt rep :
  detect rules forest c = Ok (txt, rep) ->
  let playbooks := count_if is_playbook_item forest in
  let roles := count_if is_role_item forest in
  let risky := count_if (is_risky_item (extra_check_args_of c) rules) forest in
  summary rep = summary_for playbooks roles risky
  /\ playbooks + roles = count_if is_tree forest
  /\ risky <= roles.
Proof.
  intros (st & Hrun & Hst)%detect_Ok. injection Hst as _ <-. cbn [summary].
  destruct (for_each_counts _ _ _ _ _ Hrun) as (A1 & A2 & A3 & _).
  pose proof (for_each_playbook_risk _ _ _ _ _ Hrun) as Hrisk.
  cbn in A1, A2, A3, Hrisk. split; [|split].
  - unfold summary_of, summary_for. by rewrite A1, A2, A3, Hrisk.
  - apply count_if_tree_split.
  - apply count_if_le. intros [t|]; cbn; [|done]. by intros [? _]%andb_true_iff.
Qed.

End Counts.

(** ** Disabled rules and forests without trees *)

Section Inert.
Context `{Imports}.

Lemma rule_body_disabled extra ty name is_pb tasks m acc r :
  Rule.enabled r = false -> rule_body extra ty name is_pb tasks m acc r = acc.
Proof. intros He. unfold rule_body. by rewrite He. Qed.

Lemma foldl_rule_body_enabled extra ty name is_pb tasks m rules acc :
  foldl (rule_body extra ty name is_pb tasks m) acc
        (filter (fun r => Rule.enabled r = true) rules)
  = foldl (rule_body extra ty name is_pb tasks m) acc rules.
Proof.
  revert acc. induction rules as [|r rules IH]; intros acc; [done|].
  rewrite filter_cons. case_decide as He.
  - cbn. apply IH.
  - cbn. rewrite rule_body_disabled by (by destruct (Rule.enabled r)). apply IH.
Qed.

Lemma tree_body_enabled rules extra st item :
  tree_body (filter (fun r => Rule.enabled r = true) rules) extra st item
  = tree_body rules extra st item.
Proof.
  destruct item as [t|]; [|done]. unfold tree_body, rule_loop.
  destruct (key2name (root_key t)) as [name|e]; [cbn|done].
  destruct (update_mappings _ name _ _) as [m|e]; [cbn|done].
  by rewrite foldl_rule_body_enabled.
Qed.

(** X3: A disabled rule is inert: [detect] returns what it returns without the
    disabled rules, narrative and structured report alike. *)
Theorem disabled_rules_are_inert rules forest c :
  detect (filter (fun r => Rule.enabled r = true) rules) forest c = detect rules forest c.
Proof.
  unfold detect, run. f_equal. generalize init.
  induction forest as [|item forest IH]; intros st; [done|].
  cbn. rewrite tree_body_enabled.
  destruct (tree_body rules _ st item); cbn; [apply IH | done].
Qed.

Lemma render_init : render init = empty_run_report.
Proof. reflexivity. Qed.

(** X4: A forest without any [TaskCallsInTree], the empty one in particular,
    gives the header and a separator, an empty summary and no details,
    whatever the rules: not even an enabled tabulated rule gets its
    section. *)
Theorem forest_without_trees rules forest c :
  count_if is_tree forest = 0 ->
  detect rules forest c = Ok empty_run_report.
Proof.
  intros Hn. unfold detect, run.
  assert (for_each (tree_body rules (extra_check_args_of c)) init forest = Ok init) as ->.
  { generalize init. induction forest as [|[t|] forest IH]; intros st; [done | done |].
    cbn. apply IH. exact Hn. }
  cbn. by rewrite render_init.
Qed.

End Inert.

(** ** When the detector raises *)

Section Raises.
Context `{Imports}.

Lemma taskcall_body_lone_roles playbook m task :
  lone_roles_segment task = true -> taskcall_body playbook m task = Raise IndexError.
Proof.
  unfold lone_roles_segment, taskcall_body. intros ->%bool_decide_eq_true.
  by rewrite bool_decide_eq_true_2.
Qed.

Lemma for_each_taskcall_body_cases playbook tasks m :
  if existsb lone_roles_segment tasks
  then for_each (taskcall_body playbook) m tasks = Raise IndexError
  else exists m', for_each (taskcall_body playbook) m tasks = Ok m'.
Proof.
  revert m. induction tasks as [|task tasks IH]; intros m; [cbn; eauto|].
  cbn [existsb for_each]. destruct (lone_roles_segment task) eqn:Hl; cbn [orb].
  - by rewrite taskcall_body_lone_roles.
  - destruct (taskcall_body_total playbook m task) as [m1 ->].
    { unfold lone_roles_segment in Hl. by apply bool_decide_eq_false in Hl. }
    cbn. apply IH.
Qed.

Lemma tree_body_cases rules extra st item :
  key_delimiter <> "" ->
  if raises_index_error item
  then tree_body rules extra st item = Raise IndexError
  else exists st', tree_body rules extra st item = Ok st'.
Proof.
  intros Hd. destruct item as [t|]; [|cbn; eauto].
  destruct (key2name_total (root_key t) Hd) as [name Hn].
  cbn [raises_index_error]. unfold tree_body, update_mappings, is_playbook_key.
  rewrite Hn. cbn. case_bool_decide as Hpb; cbn [andb]; [|cbn; eauto].
  destruct (key2name_playbook _ _ Hpb Hn) as [playbook ->].
  pose proof (for_each_taskcall_body_cases playbook (taskcalls t)
                (role_to_playbook_mappings st)) as Hc.
  destruct (existsb lone_roles_segment (taskcalls t)).
  - by rewrite Hc.
  - destruct Hc as [m ->]. cbn. eauto.
Qed.

(** X5: With a delimiter that is not empty, [detect] raises exactly when some
    playbook tree has a task whose [defined_in] is the single segment roles;
    the exception is the [IndexError] of [parts[1]], and nothing is
    returned for the trees processed before. *)
Theorem detect_raises_on_lone_roles_segment rules forest c :
  key_delimiter <> "" ->
  if existsb raises_index_error forest
  then detect rules forest c = Raise IndexError
  else exists txt rep, detect rules forest c = Ok (txt, rep).
Proof.
  intros Hd. unfold detect, run. generalize init.
  induction forest as [|item forest IH]; intros st.
  - cbn. exists (render st).1, (render st).2. reflexivity.
  - cbn [existsb for_each].
    pose proof (tree_body_cases rules (extra_check_args_of c) st item Hd) as Hc.
    destruct (raises_index_error item); cbn [orb].
    + by rewrite Hc.
    + destruct Hc as [st1 ->]. cbn. apply IH.
Qed.

End Raises.

(** ** The tables and the records of a run *)

Section Tables.
Context `{Imports}.

Lemma od_mem_setdefault {V : Type} (k k' : string) (v : V) (d : odict V) :
  od_mem k (od_setdefault k' v d) = od_mem k d || bool_decide (k' = k).
Proof.
  unfold od_mem. rewrite od_get_setdefault.
  destruct (od_get k d); [done|]. by case_bool_decide.
Qed.

Lemma od_mem_adjust {V : Type} (f : V -> V) (k k' : string) (d : odict V) :
  od_mem k (od_adjust f k' d) = od_mem k d.
Proof.
  unfold od_mem. rewrite od_get_adjust.
  case_bool_decide; by destruct (od_get k d).
Qed.

Lemma rule_body_table_keys extra ty name is_pb tasks m acc r label :
  od_mem label (acc_separate_report (rule_body extra ty name is_pb tasks m acc r))
  = od_mem label (acc_separate_report acc) || tabulated_named label r.
Proof.
  unfold rule_body, tabulated_named.
  destruct (Rule.enabled r); cbn; [|by rewrite orb_false_r].
  destruct (Rule.check r tasks extra) as [matched message]; cbn.
  destruct matched, (Rule.separate_report r), is_pb; cbn;
    rewrite ?od_mem_adjust, ?od_mem_setdefault, ?orb_false_r; done.
Qed.

Lemma foldl_rule_body_table_keys extra ty name is_pb tasks m rules acc label :
  od_mem label (acc_separate_report
                  (foldl (rule_body extra ty name is_pb tasks m) acc rules))
  = od_mem label (acc_separate_report acc) || existsb (tabulated_named label) rules.
Proof.
  revert acc. induction rules as [|r rules IH]; intros acc.
  - cbn. by rewrite orb_false_r.
  - change (foldl ?f acc (r :: rules)) with (foldl f (f acc r) rules).
    rewrite IH, rule_body_table_keys. cbn. by rewrite orb_assoc.
Qed.

Lemma for_each_table_keys rules extra forest st st' label :
  for_each (tree_body rules extra) st forest = Ok st' ->
  od_mem label (separate_report st')
  = od_mem label (separate_report st)
    || (existsb is_tree forest && existsb (tabulated_named label) rules).
Proof.
  revert st. induction forest as [|item forest IH]; intros st.
  - intros [= <-]. cbn. by rewrite orb_false_r.
  - cbn [for_each existsb]. intros (st1 & H1 & H2)%bind_Ok. rewrite (IH _ H2).
    destruct item as [t|]; [|injection H1 as <-; done].
    apply tree_body_Ok in H1 as (name & m & _ & _ & ->).
    edestruct close_tree_result_dict as (_ & -> & _).
    unfold rule_loop. rewrite foldl_rule_body_table_keys. cbn.
    destruct (od_mem label (separate_report st)),
      (existsb (tabulated_named label) rules), (existsb is_tree forest); done.
Qed.

(** X6: The narrative has a table for a label exactly when the forest has a
    tree and the rule set has an enabled tabulated rule of that name. *)
Theorem table_exists_iff rules forest c st label :
  run rules forest c = Ok st ->
  od_mem label (separate_report st) = true <->
  (exists t, Tree t ∈ forest) /\
  (exists r, r ∈ rules /\ Rule.name r = label /\ Rule.enabled r = true
             /\ Rule.separate_report r = true).
Proof.
  intros Hrun. unfold run in Hrun. rewrite (for_each_table_keys _ _ _ _ _ label Hrun).
  cbn. rewrite andb_true_iff, !existsb_exists. split.
  - intros [(item & Hin%list_elem_of_In & Hi) (r & Hr%list_elem_of_In & Ht)].
    destruct item as [t|]; [|done]. split; [eauto|]. exists r.
    unfold tabulated_named in Ht.
    apply andb_true_iff in Ht as [[? ?]%andb_true_iff ?%bool_decide_eq_true]. done.
  - intros [(t & Ht) (r & Hr & Hn & He & Hs)]. split.
    + exists (Tree t). split; [by apply list_elem_of_In | done].
    + exists r. split; [by apply list_elem_of_In|].
      unfold tabulated_named. rewrite He, Hs. cbn. by apply bool_decide_eq_true.
Qed.

Lemma tree_body_rows rules extra st item st' label :
  tree_body rules extra st item = Ok st' ->
  rows_of label (separate_report st')
  = rows_of label (separate_report st) ++ tree_rows extra rules label item.
Proof.
  destruct item as [t|]; [|intros [= <-]; cbn; by rewrite app_nil_r].
  intros (name & m & Hn & _ & ->)%tree_body_Ok.
  edestruct close_tree_result_dict as (_ & -> & _).
  unfold rule_loop. rewrite foldl_rule_body_rows. cbn. by rewrite Hn.
Qed.

(** X7: The table of a label holds, when the run ends, one row for every pair
    of a tree and an enabled tabulated rule of that name that matches it,
    trees in forest order and, for one tree, rules in rule order. *)
Theorem table_rows_of_run rules forest c st label :
  run rules forest c = Ok st ->
  rows_of label (separate_report st)
  = concat (tree_rows (extra_check_args_of c) rules label <$> forest).
Proof.
  unfold run. change (concat _) with ([] ++ concat
    (tree_rows (extra_check_args_of c) rules label <$> forest)).
  change (@nil Row) with (rows_of label (separate_report init)) at 1.
  generalize init. induction forest as [|item forest IH]; intros st0.
  - intros [= <-]. cbn. by rewrite app_nil_r.
  - cbn. intros (st1 & H1 & H2)%bind_Ok.
    rewrite (IH _ H2), (tree_body_rows _ _ _ _ _ label H1). by rewrite app_assoc.
Qed.

Lemma records_of_append label k r d :
  records_of label (result_dict_append k r d)
  = records_of label d ++ (if bool_decide (k = label) then [r] else []).
Proof.
  unfold records_of, result_dict_append. rewrite od_get_adjust, od_get_setdefault.
  case_bool_decide.
  - by destruct (od_get label d).
  - rewrite app_nil_r. by destruct (od_get label d).
Qed.

Lemma filter_table_record_snoc (l : list ResultRecord) (r : ResultRecord) :
  filter (fun x => is_table_record x = true) (l ++ [r])
  = filter (fun x => is_table_record x = true) l
    ++ (if is_table_record r then [r] else []).
Proof.
  rewrite filter_app. f_equal. rewrite filter_cons, filter_nil.
  by destruct (is_table_record r).
Qed.

Lemma rule_body_mirror extra ty name is_pb tasks m acc r label :
  filter (fun x => is_table_record x = true) (records_of label (acc_result_dict acc))
    = row_record <$> rows_of label (acc_separate_report acc) ->
  filter (fun x => is_table_record x = true)
    (records_of label (acc_result_dict (rule_body extra ty name is_pb tasks m acc r)))
  = row_record <$> rows_of label
      (acc_separate_report (rule_body extra ty name is_pb tasks m acc r)).
Proof.
  intros Hacc. rewrite rule_body_rows, fmap_app, <- Hacc. clear Hacc.
  unfold rule_body, in_table, tabulated_match, table_row.
  destruct (Rule.enabled r); cbn -[records_of]; [|by rewrite app_nil_r].
  destruct (Rule.check r tasks extra) as [matched message]; cbn -[records_of].
  destruct matched, (Rule.separate_report r), is_pb; cbn -[records_of];
    rewrite ?app_nil_r, ?records_of_append; try done;
    case_bool_decide; cbn -[records_of]; rewrite ?app_nil_r; try done;
    rewrite filter_table_record_snoc; cbn -[records_of]; by rewrite ?app_nil_r.
Qed.

Lemma foldl_rule_body_mirror extra ty name is_pb tasks m rules acc label :
  filter (fun x => is_table_record x = true) (records_of label (acc_result_dict acc))
    = row_record <$> rows_of label (acc_separate_report acc) ->
  filter (fun x => is_table_record x = true)
    (records_of label
       (acc_result_dict (foldl (rule_body extra ty name is_pb tasks m) acc rules)))
  = row_record <$> rows_of label
      (acc_separate_report (foldl (rule_body extra ty name is_pb tasks m) acc rules)).
Proof.
  revert acc. induction rules as [|r rules IH]; intros acc Hacc; [done|].
  change (foldl ?f acc (r :: rules)) with (foldl f (f acc r) rules).
  apply IH. by apply rule_body_mirror.
Qed.

Lemma for_each_mirror rules extra forest st st' label :
  for_each (tree_body rules extra) st forest = Ok st' ->
  filter (fun x => is_table_record x = true) (records_of label (result_dict st))
    = row_record <$> rows_of label (separate_report st) ->
  filter (fun x => is_table_record x = true) (records_of label (result_dict st'))
    = row_record <$> rows_of label (separate_report st').
Proof.
  revert st. induction forest as [|item forest IH]; intros st; [by intros [= <-]|].
  cbn. intros (st1 & H1 & H2)%bind_Ok Hst. apply (IH _ H2).
  destruct item as [t|]; [|by injection H1 as <-].
  apply tree_body_Ok in H1 as (name & m & _ & _ & ->).
  edestruct close_tree_result_dict as (-> & -> & _).
  unfold rule_loop. by apply foldl_rule_body_mirror.
Qed.

Lemma table_rows_mirror_records rules forest c st label :
  run rules forest c = Ok st ->
  filter (fun x => is_table_record x = true) (records_of label (result_dict st))
  = row_record <$> rows_of label (separate_report st).
Proof. intros Hrun. by eapply for_each_mirror. Qed.

End Tables.

(** ** One entry per rule name *)

Section UniqueKeys.
Context `{Imports}.

Lemma od_mem_false_not_key {V : Type} (k : string) (d : odict V) :
  od_mem k d = false -> k ∉ d.*1.
Proof.
  intros Hm ([k' v] & Hk & Hin)%list_elem_of_fmap. cbn in Hk. subst k'.
  apply od_elem_of_get in Hin as [x Hx]. unfold od_mem in Hm. by rewrite Hx in Hm.
Qed.

Lemma od_setdefault_keys_nodup {V : Type} (k : string) (v : V) (d : odict V) :
  NoDup d.*1 -> NoDup (od_setdefault k v d).*1.
Proof.
  intros Hd. unfold od_setdefault. destruct (od_mem k d) eqn:Hm; [done|].
  rewrite fmap_app. apply NoDup_app. split; [done|]. split; [|apply NoDup_singleton].
  intros x Hx ->%list_elem_of_singleton. by apply od_mem_false_not_key in Hm.
Qed.

Lemma od_adjust_keys {V : Type} (f : V -> V) (k : string) (d : odict V) :
  (od_adjust f k d).*1 = d.*1.
Proof.
  induction d as [|[k' v] d IH]; [done|]. cbn. case_bool_decide; cbn; by rewrite ?IH.
Qed.

Lemma od_get_nodup {V : Type} (k : string) (v : V) (d : odict V) :
  NoDup d.*1 -> (k, v) ∈ d -> od_get k d = Some v.
Proof.
  induction d as [|[k' v'] d IH]; [by intros _ ?%elem_of_nil|].
  cbn. intros [Hk Hd]%NoDup_cons [[= -> ->]|Hin]%elem_of_cons.
  - by rewrite bool_decide_eq_true_2.
  - rewrite bool_decide_eq_false_2; [by apply IH|].
    intros ->. apply Hk. apply list_elem_of_fmap. by exists (k, v).
Qed.

Lemma rule_body_keys_nodup extra ty name is_pb tasks m acc r :
  NoDup (acc_result_dict acc).*1 /\ NoDup (acc_separate_report acc).*1 ->
  NoDup (acc_result_dict (rule_body extra ty name is_pb tasks m acc r)).*1
  /\ NoDup (acc_separate_report (rule_body extra ty name is_pb tasks m acc r)).*1.
Proof.
  intros [Hd Hs]. unfold rule_body, result_dict_append.
  destruct (Rule.enabled r); cbn; [|done].
  destruct (Rule.check r tasks extra) as [matched message]; cbn.
  destruct matched, (Rule.separate_report r), is_pb; cbn;
    rewrite ?od_adjust_keys; split; try done; by apply od_setdefault_keys_nodup.
Qed.

Lemma for_each_keys_nodup rules extra forest st st' :
  for_each (tree_body rules extra) st forest = Ok st' ->
  NoDup (result_dict st).*1 /\ NoDup (separate_report st).*1 ->
  NoDup (result_dict st').*1 /\ NoDup (separate_report st').*1.
Proof.
  revert st. induction forest as [|item forest IH]; intros st; [by intros [= <-]|].
  cbn. intros (st1 & H1 & H2)%bind_Ok Hst. apply (IH _ H2).
  destruct item as [t|]; [|by injection H1 as <-].
  apply tree_body_Ok in H1 as (name & m & _ & _ & ->).
  edestruct close_tree_result_dict as (-> & -> & _).
  unfold rule_loop. generalize (taskcalls t). intros tasks.
  set (acc := {| acc_separate_report := separate_report st |}).
  assert (NoDup (acc_result_dict acc).*1 /\ NoDup (acc_separate_report acc).*1) as Hacc
    by done.
  clearbody acc. clear -Hacc.
  revert acc Hacc. induction rules as [|r rules IHr]; intros acc Hacc; [done|].
  cbn. apply IHr. by apply rule_body_keys_nodup.
Qed.

Lemma details_of_rules st : rule <$> details_of st = (result_dict st).*1.
Proof.
  unfold details_of. rewrite <- list_fmap_compose.
  apply list_fmap_ext. by intros _ [k v] _.
Qed.

(** X8: The details list has at most one entry per rule name, and the narrative
    at most one table per label: rules that share a name share the entry
    and the table. *)
Theorem one_entry_per_rule_name rules forest c st :
  run rules forest c = Ok st ->
  NoDup (rule <$> details_of st) /\ NoDup (separate_report st).*1.
Proof.
  intros Hrun. rewrite details_of_rules. eapply for_each_keys_nodup; [exact Hrun|].
  split; constructor.
Qed.

Lemma filter_resolve m (l : list ResultRecord) :
  filter (fun x => is_table_report_record x = true) (resolve m <$> l)
  = resolve m <$> filter (fun x => is_table_record x = true) l.
Proof.
  induction l as [|r l IH]; [done|].
  rewrite fmap_cons, !filter_cons, IH.
  assert (is_table_report_record (resolve m r) = is_table_record r) as Heq.
  { unfold is_table_report_record, is_table_record, resolve. cbn.
    by destruct (rec_playbooks r). }
  rewrite Heq. by case_decide.
Qed.

End UniqueKeys.

(** ** Which playbooks the mapping and the risk set hold *)

Section Links.
Context `{Imports}.

Lemma linked_grows m m' role p : mapping_grows m m' -> linked m role p -> linked m' role p.
Proof.
  intros Hg (l & Hl & Hp). destruct (Hg _ _ Hl) as [l' Hl'].
  exists (l ++ l'). split; [done|]. apply elem_of_app. by left.
Qed.

Lemma taskcall_body_links playbook m task m' role :
  taskcall_body playbook m task = Ok m' ->
  role_inclusion task role -> linked m' role playbook.
Proof.
  unfold taskcall_body. intros Hb [rest Hs]. rewrite Hs in Hb.
  rewrite bool_decide_eq_true_2 in Hb by done. cbn in Hb. injection Hb as <-.
  eexists. split; [apply lookup_insert_eq|].
  case_bool_decide; [done|]. apply elem_of_app. right. by apply list_elem_of_singleton.
Qed.

Lemma for_each_taskcall_body_links playbook tasks m m' task role :
  for_each (taskcall_body playbook) m tasks = Ok m' ->
  task ∈ tasks -> role_inclusion task role -> linked m' role playbook.
Proof.
  revert m. induction tasks as [|task0 tasks IH]; intros m; [by intros _ ?%elem_of_nil|].
  cbn. intros (m1 & H1 & H2)%bind_Ok [->|Hin]%elem_of_cons Hr.
  - apply for_each_taskcall_body_mapping in H2 as (Hg & _).
    eapply linked_grows; [exact Hg|]. by eapply taskcall_body_links.
  - by eapply IH.
Qed.

Lemma ord_eqb_eq (c d : ascii) : (ord c =? ord d)%nat = true <-> c = d.
Proof.
  rewrite Nat.eqb_eq. unfold ord. split; [|by intros ->].
  intros Heq. by rewrite <- (ascii_nat_embedding c), <- (ascii_nat_embedding d), Heq.
Qed.

Lemma prefix_char (c x : ascii) (s : string) :
  String.prefix (String c "") (String x s) = bool_decide (c = x).
Proof.
  cbn [String.prefix]. case_bool_decide as Hcx.
  - subst. destruct (ascii_dec x x); [by destruct s | done].
  - by destruct (ascii_dec c x).
Qed.

Lemma split_go_char_cons (c x : ascii) (s : string) :
  split_go (String c "") 0 (String x s) =
  if bool_decide (c = x) then "" :: split_go (String c "") 0 s
  else match split_go (String c "") 0 s with
       | h :: t => String x h :: t
       | [] => [String x ""]
       end.
Proof. cbn [split_go]. rewrite prefix_char. by case_bool_decide. Qed.

Lemma split_go_no_sep (c : ascii) (a : string) :
  contains_char c a = false -> split_go (String c "") 0 a = [a].
Proof.
  induction a as [|x a IH]; [done|]. cbn [contains_char].
  intros [Hx Ha]%orb_false_iff. rewrite split_go_char_cons, (IH Ha).
  rewrite bool_decide_eq_false_2; [done|]. intros ->.
  by rewrite (proj2 (ord_eqb_eq x x)) in Hx.
Qed.

Lemma split_go_app_sep (c : ascii) (a s : string) :
  contains_char c a = false ->
  split_go (String c "") 0 (a +:+ String c s) = a :: split_go (String c "") 0 s.
Proof.
  induction a as [|x a IH].
  - intros _. rewrite app_nil_l_str, split_go_char_cons. by rewrite bool_decide_eq_true_2.
  - cbn [contains_char]. intros [Hx Ha]%orb_false_iff.
    rewrite app_cons_str, split_go_char_cons, (IH Ha).
    rewrite bool_decide_eq_false_2; [done|]. intros ->.
    by rewrite (proj2 (ord_eqb_eq x x)) in Hx.
Qed.

(** X10: What a playbook includes is linked: after the step of a playbook tree,
    every role that one of its tasks is defined in, by a path roles, the
    role, and more segments, is linked to the playbook, whatever the mapping
    held before. *)
Theorem playbook_links_its_roles rules extra st t st' playbook task role rest :
  tree_body rules extra st (Tree t) = Ok st' ->
  detect_type (root_key t) = "playbook" ->
  key2name (root_key t) = Ok (Some playbook) ->
  task ∈ taskcalls t ->
  defined_in (spec task) = "roles/" +:+ role +:+ "/" +:+ rest ->
  contains_char "/"%char role = false ->
  linked (role_to_playbook_mappings st') role playbook.
Proof.
  intros (name & m & Hn & Hm & ->)%tree_body_Ok Ht Hp Hin Hpath Hrole.
  edestruct close_tree_result_dict as (_ & _ & ->).
  unfold update_mappings, is_playbook_key in Hm.
  rewrite (bool_decide_eq_true_2 _ Ht) in Hm.
  assert (name = Some playbook) as -> by congruence.
  eapply for_each_taskcall_body_links; [exact Hm | exact Hin |].
  unfold role_inclusion. rewrite Hpath.
  change ("roles/" +:+ role +:+ "/" +:+ rest)
    with ("roles" +:+ String "/" (role +:+ String "/" rest)).
  rewrite split_go_app_sep by done. rewrite split_go_app_sep by done. eauto.
Qed.

Lemma size_list_to_set_le (l : list string) : size (list_to_set l : gset string) <= length l.
Proof.
  induction l as [|x l IH]; cbn; [by rewrite size_empty|].
  rewrite size_union_alt, size_singleton.
  pose proof (subseteq_size (list_to_set l ∖ {[x]}) (list_to_set l : gset string)) as Hle.
  assert (list_to_set l ∖ {[x]} ⊆ (list_to_set l : gset string)) as Hsub
    by (by intros y [? _]%elem_of_difference).
  specialize (Hle Hsub). lia.
Qed.

Lemma playbook_names_length forest :
  length (playbook_names forest) <= count_if is_playbook_item forest.
Proof.
  unfold playbook_names.
  induction forest as [|[t|] forest IH]; cbn in *; [lia | | lia].
  destruct (is_playbook_key (root_key t)); cbn; [|lia].
  destruct (key2name (root_key t)) as [[p|]|]; cbn; lia.
Qed.

Lemma from_playbook_tree_name item role p :
  from_playbook_tree item role p -> playbook_name item = Some p.
Proof.
  intros (t & -> & Ht & Hn & _). cbn. unfold is_playbook_key.
  by rewrite (bool_decide_eq_true_2 _ Ht), Hn.
Qed.

Lemma tree_body_risk_found rules extra st item st' :
  tree_body rules extra st item = Ok st' ->
  forall p, p ∈ risk_found_playbooks st' ->
    p ∈ risk_found_playbooks st \/ exists role, linked (role_to_playbook_mappings st') role p.
Proof.
  destruct item as [t|]; [|intros [= <-]; auto].
  intros (name & m & _ & _ & ->)%tree_body_Ok p.
  unfold close_tree, count_tree.
  destruct (is_playbook_key (root_key t)); cbn; case_match; cbn; auto.
  - intros [?|Hp%elem_of_list_to_set]%elem_of_union; [auto|]. right.
    destruct name as [n|]; cbn in Hp; [|by apply elem_of_nil in Hp].
    exists n. destruct (m !! n) as [l|] eqn:Hl; cbn in Hp; [|by apply elem_of_nil in Hp].
    by exists l.
  - intros [?|Hp%elem_of_list_to_set]%elem_of_union; [auto|]. right.
    destruct name as [n|]; cbn in Hp; [|by apply elem_of_nil in Hp].
    exists n. destruct (m !! n) as [l|] eqn:Hl; cbn in Hp; [|by apply elem_of_nil in Hp].
    by exists l.
Qed.

Lemma for_each_risk_found rules extra forest st st' (names : list string) :
  for_each (tree_body rules extra) st forest = Ok st' ->
  (forall role p, linked (role_to_playbook_mappings st) role p -> p ∈ names) ->
  (forall p, p ∈ risk_found_playbooks st -> p ∈ names) ->
  (forall role p, linked (role_to_playbook_mappings st') role p ->
     p ∈ names ++ playbook_names forest)
  /\ (forall p, p ∈ risk_found_playbooks st' -> p ∈ names ++ playbook_names forest).
Proof.
  revert st names. induction forest as [|item forest IH]; intros st names.
  - intros [= <-] Hl Hr. cbn. rewrite app_nil_r. auto.
  - cbn [for_each]. intros (st1 & H1 & H2)%bind_Ok Hl Hr.
    destruct (tree_body_mapping _ _ _ _ _ H1) as (_ & _ & Hprov).
    assert (forall role p, linked (role_to_playbook_mappings st1) role p ->
              p ∈ names ++ omap playbook_name [item]) as Hl1.
    { intros role p Hp. apply elem_of_app.
      destruct (Hprov _ _ Hp) as [?|Hf]; [left; eauto|]. right.
      apply from_playbook_tree_name in Hf. cbn. rewrite Hf. by left. }
    assert (forall p, p ∈ risk_found_playbooks st1 ->
              p ∈ names ++ omap playbook_name [item]) as Hr1.
    { intros p Hp. destruct (tree_body_risk_found _ _ _ _ _ H1 _ Hp) as [?|[role ?]].
      - apply elem_of_app. left. auto.
      - eauto. }
    destruct (IH _ _ H2 Hl1 Hr1) as [A B].
    assert (names ++ playbook_names (item :: forest)
            = (names ++ omap playbook_name [item]) ++ playbook_names forest) as ->.
    { unfold playbook_names. rewrite <- app_assoc. f_equal.
      change (item :: forest) with ([item] ++ forest). by rewrite omap_app. }
    auto.
Qed.

(** X11: The playbooks counted as at risk are playbooks of the forest: each one
    is the name of a playbook tree, and the number that the narrative prints
    as Risk Found for the playbooks is at most their Total. *)
Theorem risk_found_playbooks_bound rules forest c st :
  run rules forest c = Ok st ->
  (forall p, p ∈ risk_found_playbooks st ->
     exists t, Tree t ∈ forest /\ detect_type (root_key t) = "playbook"
               /\ key2name (root_key t) = Ok (Some p))
  /\ size (risk_found_playbooks st) <= total (playbook_count st).
Proof.
  intros Hrun.
  destruct (for_each_risk_found rules _ forest init st [] Hrun) as [_ Hr].
  { by intros role p (l & ? & _). }
  { by intros p ?%not_elem_of_empty. }
  cbn in Hr. split.
  - intros p (item & Hin & Hn)%Hr%list_elem_of_omap.
    destruct item as [t|]; [|done]. cbn in Hn. unfold is_playbook_key in Hn.
    case_bool_decide; [|done]. exists t. split; [done|]. split; [done|].
    by destruct (key2name (root_key t)) as [[q|]|]; simplify_eq.
  - destruct (for_each_counts _ _ _ _ _ Hrun) as (-> & _). cbn.
    etrans; [|apply playbook_names_length].
    etrans; [|apply size_list_to_set_le].
    apply subseteq_size. intros p Hp. apply elem_of_list_to_set. by apply Hr.
Qed.

End Links.

(** ** The records of a run, in order *)

Section RecordOrder.
Context `{Imports}.

Lemma rule_body_cores extra t name m acc r label :
  record_core <$> records_of label
    (acc_result_dict (rule_body extra (detect_type (root_key t)) name
                        (is_playbook_key (root_key t)) (taskcalls t) m acc r))
  = (record_core <$> records_of label (acc_result_dict acc))
    ++ (if records_named extra t label r
        then [(detect_type (root_key t), name, (Rule.check r (taskcalls t) extra).2)]
        else []).
Proof.
  unfold rule_body, records_named, produces_record, tabulated_match, inline_match.
  destruct (Rule.enabled r); cbn -[records_of];
    [|by rewrite andb_false_r, app_nil_r].
  destruct (Rule.check r (taskcalls t) extra) as [matched message]; cbn -[records_of].
  destruct matched, (Rule.separate_report r), (is_playbook_key (root_key t));
    cbn -[records_of];
    rewrite ?andb_false_r, ?andb_true_r, ?app_nil_r, ?records_of_append; try done;
    case_bool_decide; by rewrite ?app_nil_r, ?fmap_app.
Qed.

Lemma foldl_rule_body_cores extra t name m rules acc label :
  record_core <$> records_of label
    (acc_result_dict (foldl (rule_body extra (detect_type (root_key t)) name
                               (is_playbook_key (root_key t)) (taskcalls t) m) acc rules))
  = (record_core <$> records_of label (acc_result_dict acc))
    ++ ((fun r => (detect_type (root_key t), name, (Rule.check r (taskcalls t) extra).2))
        <$> filter (fun r => records_named extra t label r = true) rules).
Proof.
  revert acc. induction rules as [|r rules IH]; intros acc.
  - cbn. by rewrite app_nil_r.
  - change (foldl ?f acc (r :: rules)) with (foldl f (f acc r) rules).
    rewrite IH, rule_body_cores, filter_cons, <- app_assoc. f_equal.
    destruct (records_named extra t label r).
    + by rewrite decide_True.
    + by rewrite decide_False.
Qed.

Lemma for_each_cores rules extra forest st st' label :
  for_each (tree_body rules extra) st forest = Ok st' ->
  record_core <$> records_of label (result_dict st')
  = (record_core <$> records_of label (result_dict st))
    ++ concat (tree_cores extra rules label <$> forest).
Proof.
  revert st. induction forest as [|item forest IH]; intros st.
  - intros [= <-]. cbn. by rewrite app_nil_r.
  - cbn. intros (st1 & H1 & H2)%bind_Ok. rewrite (IH _ H2), app_assoc. f_equal.
    destruct item as [t|]; [|injection H1 as <-; cbn; by rewrite app_nil_r].
    apply tree_body_Ok in H1 as (name & m & Hn & _ & ->).
    edestruct close_tree_result_dict as (-> & _ & _).
    unfold rule_loop. rewrite foldl_rule_body_cores. cbn. by rewrite Hn.
Qed.

(** X12: The results of an entry of the details list are, by type, name and
    message, one result for every pair of a tree and an enabled rule of
    that name that matches it (a tabulated rule on any tree, an inline rule
    on a tree that is not a playbook), trees in forest order and, for one
    tree, rules in rule order. *)
Theorem details_results_of_run rules forest c st e :
  run rules forest c = Ok st ->
  e ∈ details_of st ->
  report_core <$> results e
  = concat (tree_cores (extra_check_args_of c) rules (rule e) <$> forest).
Proof.
  intros Hrun ([k v] & -> & Hin)%list_elem_of_fmap. cbn.
  destruct (for_each_keys_nodup _ _ _ _ _ Hrun) as [Hd _]; [split; constructor|].
  pose proof (for_each_cores _ _ _ _ _ k Hrun) as Hc.
  unfold records_of in Hc at 1. rewrite (od_get_nodup k v _ Hd Hin) in Hc. cbn in Hc.
  rewrite <- Hc, <- list_fmap_compose. apply list_fmap_ext. by intros _ [] _.
Qed.

End RecordOrder.

(** ** Names of root keys *)

Section KeyNames.
Context `{Imports}.

Lemma last_part_app (l1 l2 : list string) :
  l2 <> [] -> last_part (l1 ++ l2) = last_part l2.
Proof.
  intros Hl2. unfold last_part. induction l1 as [|x l1 IH]; [done|].
  cbn. destruct (l1 ++ l2) eqn:Happ; [|done].
  by apply app_eq_nil in Happ as [_ ?].
Qed.

Lemma split_go_suffix (c : ascii) (a b : string) :
  exists l, l <> [] /\
    split_go (String c "") 0 (a +:+ String c b) = l ++ split_go (String c "") 0 b.
Proof.
  induction a as [|x a (l & Hl & IH)].
  - exists [""]. split; [done|].
    rewrite app_nil_l_str, split_go_char_cons. by rewrite bool_decide_eq_true_2.
  - rewrite app_cons_str, split_go_char_cons, IH. case_bool_decide.
    + by exists ("" :: l).
    + destruct l as [|h l]; [done|]. by exists (String x h :: l).
Qed.

Lemma split_go_parts_no_sep (c : ascii) (s : string) :
  Forall (fun p => contains_char c p = false) (split_go (String c "") 0 s).
Proof.
  induction s as [|x s IH]; [by repeat constructor|].
  rewrite split_go_char_cons. case_bool_decide as Hcx; [by constructor|].
  destruct (split_go (String c "") 0 s) as [|h t].
  - repeat constructor. cbn. rewrite orb_false_r.
    apply not_true_is_false. by intros ?%ord_eqb_eq.
  - apply Forall_cons in IH as [Hh Ht]. constructor; [|done].
    cbn. rewrite Hh, orb_false_r. apply not_true_is_false. by intros ?%ord_eqb_eq.
Qed.

Lemma last_part_no_sep (c : ascii) (s : string) :
  contains_char c (last_part (split_go (String c "") 0 s)) = false.
Proof.
  pose proof (split_go_parts_no_sep c s) as Hall. unfold last_part.
  induction Hall as [|p l Hp Hl IH]; [done|]. cbn. by destruct l.
Qed.

Lemma last_part_of_suffix (c : ascii) (pre n : string) :
  contains_char c n = false ->
  last_part (split_go (String c "") 0 (pre +:+ String c n)) = n.
Proof.
  intros Hn. destruct (split_go_suffix c pre n) as (l & _ & ->).
  rewrite last_part_app by apply split_go_not_nil. by rewrite split_go_no_sep.
Qed.

(** X13: With a one-character delimiter, [key2name] gives a role the part of the
    key after the last delimiter, so the name has no delimiter in it and a
    key that ends in a delimiter and a name without one gives that name; it
    gives a playbook the base name of that part, which has no slash. *)
Theorem key2name_of_key (d : ascii) (key : string) :
  key_delimiter = String d "" ->
  (detect_type key = "role" ->
     exists name, key2name key = Ok (Some name)
       /\ contains_char d name = false
       /\ forall pre n, key = pre +:+ String d n -> contains_char d n = false -> name = n)
  /\ (detect_type key = "playbook" ->
        exists name, key2name key = Ok (Some name)
          /\ contains_char "/"%char name = false
          /\ forall pre path, key = pre +:+ String d path ->
               contains_char d path = false -> name = basename path).
Proof.
  intros Hd. unfold key2name, py_split. rewrite Hd. split; intros Ht; rewrite Ht.
  - rewrite bool_decide_eq_false_2 by done. rewrite bool_decide_eq_true_2 by done.
    cbn. eexists. split; [done|]. split; [apply last_part_no_sep|].
    intros pre n -> Hn. by apply last_part_of_suffix.
  - rewrite bool_decide_eq_true_2 by done.
    cbn. eexists. split; [done|]. split; [apply last_part_no_sep|].
    intros pre path -> Hp. by rewrite last_part_of_suffix.
Qed.

End KeyNames.

(** ** [indent] *)

Section Indent.

Lemma times_S (c : string) (n : nat) : times c (S n) = c +:+ times c n.
Proof. unfold times. cbn [replicate]. apply concat_cons_str. Qed.

Lemma times_add (c : string) (a b : nat) : times c (a + b) = times c a +:+ times c b.
Proof.
  induction a as [|a IH]; [done|].
  change (S a + b) with (S (a + b)). by rewrite !times_S, IH, app_assoc_str.
Qed.

Lemma pad_pad (a b : nat) (line : string) : pad b (pad a line) = pad (a + b) line.
Proof. unfold pad. by rewrite Nat.add_comm, times_add, app_assoc_str. Qed.

Lemma replace_space_cons (s : string) :
  replace " " "" (String " " s) = replace " " "" s.
Proof.
  unfold replace. cbn [replace_go]. rewrite prefix_char.
  by rewrite bool_decide_eq_true_2.
Qed.

Lemma replace_space_pad (level : nat) (line : string) :
  replace " " "" (pad level line) = replace " " "" line.
Proof.
  unfold pad. induction level as [|n IH]; [done|].
  rewrite times_S, app_assoc_str.
  change (" " +:+ times " " n +:+ line) with (String " " (times " " n +:+ line)).
  by rewrite replace_space_cons.
Qed.

Lemma not_blank_pad (level : nat) (line : string) :
  not_blank (pad level line) = not_blank line.
Proof. unfold not_blank. by rewrite replace_space_pad. Qed.

Lemma no_break_app (a b : string) : no_break (a +:+ b) = no_break a && no_break b.
Proof.
  induction a as [|x a IH]; [done|].
  rewrite app_cons_str. cbn. by rewrite IH, andb_assoc.
Qed.

Lemma no_break_pad (level : nat) (line : string) :
  no_break (pad level line) = no_break line.
Proof.
  unfold pad. induction level as [|n IH]; [done|].
  rewrite times_S, app_assoc_str.
  change (" " +:+ times " " n +:+ line) with (String " " (times " " n +:+ line)).
  cbn [no_break]. by rewrite IH.
Qed.

Lemma splitlines_go_no_break (cur : string) (b : bool) (s : string) :
  no_break cur = true -> Forall (fun l => no_break l = true) (splitlines_go cur b s).
Proof.
  revert cur b. induction s as [|c s IH]; intros cur b Hcur.
  - cbn. destruct cur; by repeat constructor.
  - cbn [splitlines_go]. destruct (is_linebreak c) eqn:Hc.
    + destruct (b && _); [by apply IH|]. constructor; [done | by apply IH].
    + apply IH. rewrite no_break_app, Hcur. cbn. by rewrite Hc.
Qed.

Lemma splitlines_go_line (cur l rest : string) (b : bool) :
  no_break l = true -> l <> "" ->
  splitlines_go cur b (l +:+ rest) = splitlines_go (cur +:+ l) false rest.
Proof.
  revert cur b. induction l as [|x l IH]; intros cur b Hl Hne; [done|].
  cbn in Hl. apply andb_true_iff in Hl as [Hx%negb_true_iff Hl].
  rewrite app_cons_str. cbn [splitlines_go]. rewrite Hx.
  destruct l as [|y l].
  - by rewrite app_nil_l_str.
  - rewrite IH by done. f_equal. by rewrite app_assoc_str.
Qed.

Lemma splitlines_join (lines : list string) :
  Forall (fun l => no_break l = true /\ l <> "") lines ->
  splitlines (join nl lines) = lines.
Proof.
  unfold splitlines, join. induction 1 as [|l lines [Hb Hne] Hall IH]; [done|].
  destruct lines as [|l2 lines].
  - cbn [String.concat]. rewrite <- (app_nil_r_str l) at 1.
    rewrite splitlines_go_line by done. cbn. by destruct l.
  - change (String.concat nl (l :: l2 :: lines))
      with (l +:+ nl +:+ String.concat nl (l2 :: lines)).
    rewrite splitlines_go_line by done. unfold nl at 1. rewrite app_cons_str.
    cbn [splitlines_go]. cbn. f_equal. exact IH.
Qed.

Lemma not_blank_not_empty (l : string) : not_blank l = true -> l <> "".
Proof. by intros Hl ->. Qed.

(** Indenting an indented text by [b] more is indenting the text by the
    sum. *)
Lemma indent_indent (s : string) (a b : nat) :
  indent (indent s a) b = indent s (a + b).
Proof.
  unfold indent.
  set (lines := filter (fun line => not_blank line = true) (splitlines s)).
  assert (Forall (fun l => no_break l = true /\ not_blank l = true) lines) as Hlines.
  { apply Forall_forall. intros l [Hnb Hin]%list_elem_of_filter. split; [|done].
    pose proof (splitlines_go_no_break "" false s eq_refl) as Hall.
    rewrite Forall_forall in Hall. by apply Hall. }
  rewrite splitlines_join; cycle 1.
  { apply Forall_fmap. eapply Forall_impl; [exact Hlines|]. cbn.
    intros l [Hb Hn]. change (times " " a +:+ l) with (pad a l).
    rewrite no_break_pad. split; [done|].
    apply not_blank_not_empty. by rewrite not_blank_pad. }
  f_equal. clear -Hlines. induction Hlines as [|l lines [Hb Hn] _ IH]; [done|].
  rewrite fmap_cons, filter_cons. change (times " " a +:+ l) with (pad a l).
  rewrite decide_True by (by rewrite not_blank_pad).
  rewrite !fmap_cons, IH. f_equal. apply pad_pad.
Qed.

End Indent.

(** ** The concretizer reads two keys and writes two *)

Section Concretizer.
Import SampleCustomAnnotator.

Lemma homebrew_pkg_lookup (d : gmap string pyval) :
  homebrew (PyDict d) !! "pkg" = d !! "name".
Proof.
  unfold homebrew.
  destruct (d !! "state") as [v|]; [destruct (eq_absent v)|];
    destruct (d !! "name"); by simplify_map_eq.
Qed.

Lemma homebrew_other_lookup (options : pyval) (k : string) :
  k <> "pkg" -> k <> "delete" -> homebrew options !! k = None.
Proof.
  intros Hp Hd. destruct options as [| | | | |d]; try (by unfold homebrew; rewrite lookup_empty).
  unfold homebrew.
  destruct (d !! "state") as [v|]; [destruct (eq_absent v)|];
    destruct (d !! "name"); by simplify_map_eq.
Qed.

(** X15: The concretizer reads the keys name and state of the options and
    nothing else, and writes the keys pkg and delete and nothing else: pkg
    is the value of name, whatever it is, every other key of the options is
    dropped, and two option mappings that agree on name and state give the
    same result. *)
Theorem homebrew_reads_name_and_state (d1 d2 : gmap string pyval) :
  homebrew (PyDict d1) !! "pkg" = d1 !! "name"
  /\ (forall k, k <> "pkg" -> k <> "delete" -> homebrew (PyDict d1) !! k = None)
  /\ (d1 !! "name" = d2 !! "name" -> d1 !! "state" = d2 !! "state" ->
      homebrew (PyDict d1) = homebrew (PyDict d2)).
Proof.
  split; [apply homebrew_pkg_lookup|]. split; [intros k; apply homebrew_other_lookup|].
  intros Hn Hs. apply map_eq. intros k.
  destruct (decide (k = "pkg")) as [->|Hp]; [by rewrite !homebrew_pkg_lookup|].
  destruct (decide (k = "delete")) as [->|Hd].
  - by rewrite !homebrew_delete_lookup, Hs.
  - by rewrite !homebrew_other_lookup.
Qed.

End Concretizer.

(** ** The lists of playbooks that the reports show *)

Section UsedIn.
Context `{Imports}.

Lemma od_setdefault_elem {V : Type} (k k' : string) (v v' : V) (d : odict V) :
  (k', v') ∈ od_setdefault k v d -> (k', v') ∈ d \/ (k' = k /\ v' = v).
Proof.
  unfold od_setdefault. destruct (od_mem k d); [auto|].
  intros [?|[= -> ->]%list_elem_of_singleton]%elem_of_app; auto.
Qed.

Lemma od_adjust_elem {V : Type} (f : V -> V) (k k' : string) (v' : V) (d : odict V) :
  (k', v') ∈ od_adjust f k d -> exists v, (k', v) ∈ d /\ (v' = v \/ v' = f v).
Proof.
  induction d as [|[k0 v0] d IH]; [by intros ?%elem_of_nil|].
  cbn. case_bool_decide.
  - intros [[= -> ->]|Hin]%elem_of_cons.
    + exists v0. split; [left | auto].
    + exists v'. split; [by right | auto].
  - intros [[= -> ->]|Hin]%elem_of_cons.
    + exists v0. split; [left | auto].
    + destruct (IH Hin) as (v & Hv & Hor). exists v. split; [by right | done].
Qed.

Lemma result_dict_append_ref_ok k r d :
  record_ref_ok r -> records_ref_ok d -> records_ref_ok (result_dict_append k r d).
Proof.
  intros Hr Hd k' v' r' (v & Hv & Hor)%od_adjust_elem Hin.
  apply od_setdefault_elem in Hv as [Hv | [-> ->]].
  - destruct Hor as [-> | ->]; [by eapply Hd|].
    apply elem_of_app in Hin as [Hin | ->%list_elem_of_singleton]; [by eapply Hd | done].
  - destruct Hor as [-> | ->]; [by apply elem_of_nil in Hin|].
    by apply list_elem_of_singleton in Hin as ->.
Qed.

Lemma mapping_ref_ok m ty name message :
  record_ref_ok {| rec_type := ty; rec_name := name; rec_message := message;
                   rec_playbooks := Some (mapping_ref m name) |}.
Proof.
  unfold record_ref_ok, mapping_ref. cbn. destruct name as [n|]; [|done].
  by destruct (m !! n).
Qed.

Lemma rule_body_ref_ok extra ty name is_pb tasks m acc r :
  records_ref_ok (acc_result_dict acc) ->
  records_ref_ok (acc_result_dict (rule_body extra ty name is_pb tasks m acc r)).
Proof.
  intros Hacc. unfold rule_body.
  destruct (Rule.enabled r); cbn; [|done].
  destruct (Rule.check r tasks extra) as [matched message]; cbn.
  destruct matched, (Rule.separate_report r), is_pb; cbn; try done;
    apply result_dict_append_ref_ok; try done; apply mapping_ref_ok.
Qed.

Lemma foldl_rule_body_ref_ok extra ty name is_pb tasks m rules acc :
  records_ref_ok (acc_result_dict acc) ->
  records_ref_ok (acc_result_dict (foldl (rule_body extra ty name is_pb tasks m) acc rules)).
Proof.
  revert acc. induction rules as [|r rules IH]; intros acc Hacc; [done|].
  change (foldl ?f acc (r :: rules)) with (foldl f (f acc r) rules).
  apply IH. by apply rule_body_ref_ok.
Qed.

Lemma for_each_ref_ok rules extra forest st st' :
  for_each (tree_body rules extra) st forest = Ok st' ->
  records_ref_ok (result_dict st) -> records_ref_ok (result_dict st').
Proof.
  revert st. induction forest as [|item forest IH]; intros st; [by intros [= <-]|].
  cbn. intros (st1 & H1 & H2)%bind_Ok Hst. apply (IH _ H2).
  destruct item as [t|]; [|by injection H1 as <-].
  apply tree_body_Ok in H1 as (name & m & _ & _ & ->).
  edestruct close_tree_result_dict as (-> & _ & _).
  unfold rule_loop. by apply foldl_rule_body_ref_ok.
Qed.

(** X16: What the structured report shows as the playbooks that use a role: the
    list of a record is empty, or it is the list that the mapping holds for
    the name of the record when the run ends, with every playbook linked by
    then.  So all records of one role that have a list with an element have
    the same list. *)
Theorem record_playbooks_are_final rules forest c st e r l :
  run rules forest c = Ok st ->
  e ∈ details_of st -> r ∈ results e ->
  playbooks_use_this_role r = Some l ->
  l = [] \/ exists n, name_ r = Some n /\ role_to_playbook_mappings st !! n = Some l.
Proof.
  intros Hrun ([k v] & -> & Hkv)%list_elem_of_fmap. cbn.
  intros (r0 & -> & Hr0)%list_elem_of_fmap. unfold resolve. cbn.
  pose proof (for_each_ref_ok _ _ _ _ _ Hrun) as Hok.
  assert (record_ref_ok r0) as Hr.
  { eapply Hok; [|exact Hkv | exact Hr0]. by intros ? ? ? ?%elem_of_nil. }
  unfold record_ref_ok in Hr. destruct (rec_playbooks r0) as [[|n]|]; cbn; [| |done].
  - intros [= <-]. by left.
  - intros [= <-]. destruct (role_to_playbook_mappings st !! n) as [l|] eqn:Hl; cbn.
    + right. by exists n.
    + by left.
Qed.

Lemma for_each_mapping_grows rules extra forest st st' :
  for_each (tree_body rules extra) st forest = Ok st' ->
  mapping_grows (role_to_playbook_mappings st) (role_to_playbook_mappings st').
Proof.
  revert st. induction forest as [|item forest IH]; intros st.
  - intros [= <-]. apply mapping_grows_refl.
  - cbn. intros (st1 & H1 & H2)%bind_Ok.
    eapply mapping_grows_trans; [|by apply IH].
    by apply (tree_body_mapping _ _ _ _ _ H1).
Qed.

Lemma tree_body_links rules extra st item st' role p :
  tree_body rules extra st item = Ok st' ->
  from_playbook_tree item role p -> linked (role_to_playbook_mappings st') role p.
Proof.
  intros Hst (t & -> & Ht & Hn & task & Hin & Hr).
  apply tree_body_Ok in Hst as (name & m & Hn' & Hm & ->).
  edestruct close_tree_result_dict as (_ & _ & ->).
  unfold update_mappings, is_playbook_key in Hm.
  rewrite (bool_decide_eq_true_2 _ Ht) in Hm.
  assert (name = Some p) as -> by congruence.
  by eapply for_each_taskcall_body_links.
Qed.

Lemma for_each_linked_iff rules extra forest st st' role p :
  for_each (tree_body rules extra) st forest = Ok st' ->
  linked (role_to_playbook_mappings st') role p <->
  linked (role_to_playbook_mappings st) role p
  \/ exists item, item ∈ forest /\ from_playbook_tree item role p.
Proof.
  revert st. induction forest as [|item forest IH]; intros st.
  - intros [= <-]. split; [auto|]. intros [?|(item & ?%elem_of_nil & _)]; done.
  - cbn. intros (st1 & H1 & H2)%bind_Ok. rewrite (IH _ H2).
    destruct (tree_body_mapping _ _ _ _ _ H1) as (Hg & _ & Hprov). split.
    + intros [Hl|(item' & Hin & Hf)].
      * destruct (Hprov _ _ Hl) as [?|Hf]; [auto|]. right. exists item. split; [left | done].
      * right. exists item'. split; [by right | done].
    + intros [Hl|(item' & [->|Hin]%elem_of_cons & Hf)].
      * left. by eapply linked_grows.
      * left. by eapply tree_body_links.
      * right. eauto.
Qed.

End UsedIn.

(** ** Playbook trees *)

Section Playbooks.
Context `{Imports}.

Lemma rule_body_playbook_records extra ty name tasks m acc r label :
  records_of label (acc_result_dict (rule_body extra ty name true tasks m acc r))
  = records_of label (acc_result_dict acc)
    ++ (if in_table extra tasks label r
        then [row_record (table_row extra ty name tasks r)] else []).
Proof.
  unfold rule_body, in_table, tabulated_match, table_row, row_record.
  destruct (Rule.enabled r); cbn -[records_of]; [|by rewrite app_nil_r].
  destruct (Rule.check r tasks extra) as [matched message]; cbn -[records_of].
  destruct matched, (Rule.separate_report r); cbn -[records_of];
    rewrite ?app_nil_r, ?records_of_append; done.
Qed.

Lemma foldl_rule_body_playbook_records extra ty name tasks m rules acc label :
  records_of label
    (acc_result_dict (foldl (rule_body extra ty name true tasks m) acc rules))
  = records_of label (acc_result_dict acc)
    ++ (row_record <$> (table_row extra ty name tasks
                        <$> filter (fun r => in_table extra tasks label r = true) rules)).
Proof.
  revert acc. induction rules as [|r rules IH]; intros acc.
  - cbn. by rewrite app_nil_r.
  - change (foldl ?f acc (r :: rules)) with (foldl f (f acc r) rules).
    rewrite IH, rule_body_playbook_records, filter_cons, <- app_assoc. f_equal.
    destruct (in_table extra tasks label r).
    + by rewrite decide_True.
    + by rewrite decide_False.
Qed.

(** X18: Inline rules never report a playbook: the step of a playbook tree adds
    no numbered section and no incident, leaves the counters of the roles
    and the set of playbooks at risk as they are, and adds to the
    structured report the records of its table rows and nothing else, even
    when inline rules match the tree. *)
Theorem playbook_tree_is_not_reported rules extra st t st' label :
  detect_type (root_key t) = "playbook" ->
  tree_body rules extra st (Tree t) = Ok st' ->
  report_num st' = report_num st
  /\ tmp_result_txt st' = tmp_result_txt st
  /\ role_count st' = role_count st
  /\ risk (playbook_count st') = risk (playbook_count st)
  /\ risk_found_playbooks st' = risk_found_playbooks st
  /\ records_of label (result_dict st')
     = records_of label (result_dict st)
       ++ (row_record <$> tree_rows extra rules label (Tree t)).
Proof.
  intros Ht Hst.
  destruct (tree_body_playbook_report _ _ _ _ _ Ht Hst) as (Hpc & Hrc & Hnum & Htxt & Hrisk).
  rewrite Hpc, Hrc, Hnum, Htxt, Hrisk. repeat split; try done.
  apply tree_body_Ok in Hst as (name & m & Hn & _ & ->).
  edestruct close_tree_result_dict as (-> & _ & _).
  unfold rule_loop, is_playbook_key. rewrite (bool_decide_eq_true_2 _ Ht).
  rewrite foldl_rule_body_playbook_records. cbn [tree_rows]. by rewrite Hn.
Qed.

End Playbooks.

(** ** The further properties on concrete runs *)

Section MoreRuns.
Import Examples MoreExamples SpecImports SampleCustomAnnotator.

Lemma summary_counts_forest_witness :
  summary (report_of [inline_rule] forest_3_playbooks_2_roles).2 = summary_for 3 2 2.
Proof.
  destruct (summary_counts_forest [inline_rule] forest_3_playbooks_2_roles ""
              (report_of [inline_rule] forest_3_playbooks_2_roles).1
              (report_of [inline_rule] forest_3_playbooks_2_roles).2)
    as (Hs & _); [vm_compute; reflexivity|].
  exact Hs.
Defined.

Lemma forest_without_trees_witness :
  detect [table_rule; inline_rule] [NotATree; NotATree] "" = Ok empty_run_report.
Proof. apply forest_without_trees. reflexivity. Defined.

Lemma detect_raises_on_lone_roles_segment_witness :
  detect [inline_rule] [Tree role_R; Tree playbook_lone_roles; Tree role_S] ""
  = Raise IndexError.
Proof.
  assert (key_delimiter <> "") as Hd by (vm_compute; discriminate).
  pose proof (detect_raises_on_lone_roles_segment [inline_rule]
                [Tree role_R; Tree playbook_lone_roles; Tree role_S] "" Hd) as Hw.
  change (existsb raises_index_error
            [Tree role_R; Tree playbook_lone_roles; Tree role_S]) with true in Hw.
  exact Hw.
Defined.

Lemma table_exists_iff_witness :
  od_mem "QuietRule" (separate_report (state_after [quiet_rule] [Tree role_R])) = true <->
  (exists t, Tree t ∈ [Tree role_R]) /\
  (exists r, r ∈ [quiet_rule] /\ Rule.name r = "QuietRule" /\ Rule.enabled r = true
             /\ Rule.separate_report r = true).
Proof.
  apply (table_exists_iff [quiet_rule] [Tree role_R] "").
  vm_compute. reflexivity.
Defined.

Lemma table_rows_of_run_witness :
  rows_of "TableRule" (separate_report (state_after [table_rule] [Tree playbook0; Tree role_R]))
  = [{| row_label := "playbook"; row_name := Some "p0.yml";
        row_message := "this tree has tasks" |};
     {| row_label := "role"; row_name := Some "R"; row_message := "this tree has tasks" |}].
Proof.
  rewrite (table_rows_of_run [table_rule] [Tree playbook0; Tree role_R] ""
             (state_after [table_rule] [Tree playbook0; Tree role_R]) "TableRule");
    vm_compute; reflexivity.
Defined.

Lemma one_entry_per_rule_name_witness :
  NoDup (rule <$> details_of (state_after [table_rule; inline_rule] forest_role_between)).
Proof.
  apply (one_entry_per_rule_name [table_rule; inline_rule] forest_role_between "").
  vm_compute. reflexivity.
Defined.

Lemma playbook_links_its_roles_witness :
  linked (role_to_playbook_mappings (state_after [inline_rule] [Tree playbook0])) "R" "p0.yml".
Proof.
  apply (playbook_links_its_roles [inline_rule] None init playbook0
           (state_after [inline_rule] [Tree playbook0]) "p0.yml" included_task "R"
           "tasks/main.yml").
  - vm_compute. reflexivity.
  - vm_compute. reflexivity.
  - vm_compute. reflexivity.
  - left.
  - reflexivity.
  - reflexivity.
Defined.

Lemma risk_found_playbooks_bound_witness :
  size (risk_found_playbooks (state_after [inline_rule] forest_role_between))
  <= total (playbook_count (state_after [inline_rule] forest_role_between)).
Proof.
  apply (risk_found_playbooks_bound [inline_rule] forest_role_between "").
  vm_compute. reflexivity.
Defined.

Lemma key2name_of_key_witness :
  exists name, key2name "role:geerlingguy.git" = Ok (Some name)
    /\ contains_char ":"%char name = false
    /\ forall pre n, "role:geerlingguy.git" = pre +:+ String ":" n ->
         contains_char ":"%char n = false -> name = n.
Proof.
  assert (key_delimiter = String ":" "") as Hd by reflexivity.
  apply (proj1 (key2name_of_key ":"%char "role:geerlingguy.git" Hd)).
  reflexivity.
Defined.

Lemma homebrew_reads_name_and_state_witness :
  homebrew (PyDict (<["name" := PyStr "wget"]> (<["version" := PyStr "1.21"]> ∅)))
  = homebrew (PyDict (<["name" := PyStr "wget"]> ∅)).
Proof.
  apply (proj2 (proj2 (homebrew_reads_name_and_state
                         (<["name" := PyStr "wget"]> (<["version" := PyStr "1.21"]> ∅))
                         (<["name" := PyStr "wget"]> ∅))));
    vm_compute; reflexivity.
Defined.

Lemma record_playbooks_are_final_witness :
  ["p0.yml"; "p.yml"] = [] \/
  exists n, Some "R" = Some n
    /\ role_to_playbook_mappings (state_after [inline_rule] forest_role_between) !! n
       = Some ["p0.yml"; "p.yml"].
Proof.
  apply (record_playbooks_are_final [inline_rule] forest_role_between ""
           (state_after [inline_rule] forest_role_between)
           {| rule := "InlineRule";
              results := [{| type_ := "role"; name_ := Some "R";
                             message_ := "a task was found";
                             playbooks_use_this_role := Some ["p0.yml"; "p.yml"] |}] |}
           {| type_ := "role"; name_ := Some "R"; message_ := "a task was found";
              playbooks_use_this_role := Some ["p0.yml"; "p.yml"] |}).
  - vm_compute. reflexivity.
  - vm_compute. left.
  - left.
  - reflexivity.
Defined.

Lemma details_results_of_run_witness :
  [("role", Some "R", "a task was found")]
  = concat (tree_cores (extra_check_args_of "") [inline_rule] "InlineRule"
            <$> forest_role_between).
Proof.
  apply (details_results_of_run [inline_rule] forest_role_between ""
           (state_after [inline_rule] forest_role_between)
           {| rule := "InlineRule";
              results := [{| type_ := "role"; name_ := Some "R";
                             message_ := "a task was found";
                             playbooks_use_this_role := Some ["p0.yml"; "p.yml"] |}] |}).
  - vm_compute. reflexivity.
  - vm_compute. left.
Defined.

Lemma playbook_tree_is_not_reported_witness :
  report_num (state_after [inline_rule; table_rule] [Tree playbook0]) = 1
  /\ tmp_result_txt (state_after [inline_rule; table_rule] [Tree playbook0]) = "".
Proof.
  destruct (playbook_tree_is_not_reported [inline_rule; table_rule] None init playbook0
              (state_after [inline_rule; table_rule] [Tree playbook0]) "InlineRule")
    as (Hn & Ht & _); [vm_compute; reflexivity | vm_compute; reflexivity |].
  split; [exact Hn | exact Ht].
Defined.

End MoreRuns.

(** * The narrative that [detect] returns *)

Section Narrative.
Context `{Imports}.

Lemma detect_of_run rules forest c st :
  run rules forest c = Ok st ->
  detect rules forest c =
    Ok (header_txt +:+ summary_txt st +:+ dashes +:+ nl +:+ tmp_result_txt st
        +:+ tables_txt st,
        {| summary := summary_of st; details := details_of st |}).
Proof. intros Hrun. unfold detect. by rewrite Hrun. Qed.

Lemma run_snoc rules c prefix st item st' :
  run rules prefix c = Ok st ->
  tree_body rules (extra_check_args_of c) st item = Ok st' ->
  run rules (prefix ++ [item]) c = Ok st'.
Proof.
  unfold run. intros Hrun Hst. rewrite for_each_app, Hrun. cbn. by rewrite Hst.
Qed.

(** The reports before and after one more tree that is not a playbook. *)
Lemma detect_snoc_not_playbook rules c prefix st t name :
  run rules prefix c = Ok st ->
  detect_type (root_key t) <> "playbook" ->
  key2name (root_key t) = Ok name ->
  exists st',
    tree_body rules (extra_check_args_of c) st (Tree t) = Ok st'
    /\ run rules (prefix ++ [Tree t]) c = Ok st'
    /\ detect rules (prefix ++ [Tree t]) c =
         Ok (header_txt +:+ summary_txt st' +:+ dashes +:+ nl
             +:+ (tmp_result_txt st
                  +:+ (if existsb (inline_match (extra_check_args_of c) (taskcalls t)) rules
                       then "#" +:+ of_nat (report_num st) +:+ " "
                            +:+ upper (detect_type (root_key t)) +:+ " - "
                            +:+ of_opt name +:+ nl
                            +:+ (if (0 <? length (mapping_get (role_to_playbook_mappings st) name))%nat
                                 then "(used_in: "
                                      +:+ repr_list (mapping_get (role_to_playbook_mappings st) name)
                                      +:+ ")" +:+ nl
                                 else "")
                            +:+ inline_alt (extra_check_args_of c) (taskcalls t) rules
                            +:+ dashes +:+ nl
                       else ""))
             +:+ tables_txt st',
             {| summary := summary_of st'; details := details_of st' |}).
Proof.
  intros Hrun Ht Hn.
  destruct (tree_body_not_playbook_report rules (extra_check_args_of c) st t name Ht Hn)
    as (st' & Hst & _ & _ & _ & Hyes & Hno).
  exists st'. split; [done|].
  pose proof (run_snoc _ _ _ _ _ _ Hrun Hst) as Hrun'. split; [done|].
  rewrite (detect_of_run _ _ _ _ Hrun'). do 2 f_equal.
  destruct (existsb (inline_match (extra_check_args_of c) (taskcalls t)) rules).
  - destruct Hyes as (_ & _ & ->); [done|]. reflexivity.
  - destruct Hno as (_ & _ & ->); [done|]. by rewrite app_nil_r_str.
Qed.

End Narrative.

Section NumberedSections.
Context `{Imports}.

Lemma close_tree_tmp ty name is_pb m acc st :
  exists added,
    tmp_result_txt (close_tree ty name is_pb m acc st) = tmp_result_txt st +:+ added.
Proof.
  unfold close_tree.
  destruct is_pb; cbn; destruct (do_report acc && _); cbn;
    solve [eexists; reflexivity | exists ""; by rewrite app_nil_r_str].
Qed.

Lemma for_each_tmp_extends rules extra forest st st' :
  for_each (tree_body rules extra) st forest = Ok st' ->
  exists later, tmp_result_txt st' = tmp_result_txt st +:+ later.
Proof.
  revert st. induction forest as [|item forest IH]; intros st.
  - intros [= <-]. exists "". by rewrite app_nil_r_str.
  - cbn. intros (st1 & H1 & H2)%bind_Ok. destruct (IH _ H2) as [later Hl].
    destruct item as [t|]; [|injection H1 as <-; by exists later].
    apply tree_body_Ok in H1 as (name & m & _ & _ & ->).
    destruct (close_tree_tmp (detect_type (root_key t)) name (is_playbook_key (root_key t)) m
                (rule_loop rules extra (detect_type (root_key t)) name
                   (is_playbook_key (root_key t)) (taskcalls t) m st) st) as [added Ha].
    exists (added +:+ later). by rewrite Hl, Ha, app_assoc_str.
Qed.

(** The narrative of a forest keeps the block of numbered sections of
    each of its prefixes. *)
Lemma detect_keeps_prefix_block rules c prefix rest st txt rep :
  run rules prefix c = Ok st ->
  detect rules (prefix ++ rest) c = Ok (txt, rep) ->
  exists st_end later,
    run rules (prefix ++ rest) c = Ok st_end
    /\ txt = header_txt +:+ summary_txt st_end +:+ dashes +:+ nl
             +:+ (tmp_result_txt st +:+ later) +:+ tables_txt st_end.
Proof.
  intros Hrun (st_end & Hend & Hr)%detect_Ok.
  assert (for_each (tree_body rules (extra_check_args_of c)) st rest = Ok st_end) as Hrest.
  { unfold run in Hend, Hrun. by rewrite for_each_app, Hrun in Hend. }
  destruct (for_each_tmp_extends _ _ _ _ _ Hrest) as [later Hl].
  exists st_end, later. split; [done|].
  unfold render in Hr. injection Hr as <- _. by rewrite Hl.
Qed.

Lemma roles_entry_of st e :
  od_get "roles" (summary_of st) = Some e <->
  (0 < total (role_count st)
   /\ e = {| summary_total := total (role_count st); risk_found := risk (role_count st) |}).
Proof.
  unfold summary_of.
  destruct (0 <? total (playbook_count st))%nat,
    (total (role_count st)) as [|k] eqn:Hk; cbn;
    repeat case_bool_decide; try done; split;
    try (by intros [= <-]); try (by intros [_ ->]); try (intros [? _]; lia);
    try (intros [= <-]; split; [lia | done]).
Qed.

(** C4: for a role tree, processed after any prefix of the forest, on which
    n >= 1 enabled inline rules match, the narrative that [detect] returns
    has exactly one numbered section more than the narrative of the prefix:
    its block of numbered sections is the block of the prefix followed by
    the one section of the tree, which starts with the number sign, the
    current incident number, ROLE and the name of the role; and the risk
    count of the roles, in the state and in the structured summary, is
    one more.  With n = 0 the block of numbered sections is the block of the
    prefix and the risk count of the roles is unchanged.  Whatever trees
    follow in the forest, the narrative that [detect] returns for the whole
    forest keeps that block as it is and only adds after it. *)
Theorem role_tree_gets_one_numbered_section rules c prefix st t :
  key_delimiter <> "" ->
  run rules prefix c = Ok st ->
  detect_type (root_key t) = "role" ->
  let extra := extra_check_args_of c in
  let n := length (filter (fun r => inline_match extra (taskcalls t) r = true) rules) in
  let used_in_playbooks name := mapping_get (role_to_playbook_mappings st) (Some name) in
  exists name st' rep0 rep,
    key2name (root_key t) = Ok (Some name)
    /\ run rules (prefix ++ [Tree t]) c = Ok st'
    /\ detect rules prefix c =
         Ok (header_txt +:+ summary_txt st +:+ dashes +:+ nl
             +:+ tmp_result_txt st +:+ tables_txt st, rep0)
    /\ (n >= 1 ->
        detect rules (prefix ++ [Tree t]) c =
          Ok (header_txt +:+ summary_txt st' +:+ dashes +:+ nl
              +:+ (tmp_result_txt st
                   +:+ "#" +:+ of_nat (report_num st) +:+ " ROLE - " +:+ name +:+ nl
                   +:+ (if (0 <? length (used_in_playbooks name))%nat
                        then "(used_in: " +:+ repr_list (used_in_playbooks name)
                             +:+ ")" +:+ nl
                        else "")
                   +:+ inline_alt extra (taskcalls t) rules
                   +:+ dashes +:+ nl)
              +:+ tables_txt st', rep)
        /\ report_num st' = report_num st + 1
        /\ risk (role_count st') = risk (role_count st) + 1
        /\ od_get "roles" (summary rep) =
             Some {| summary_total := total (role_count st) + 1;
                     risk_found := risk (role_count st) + 1 |}
        /\ forall rest txt_end rep_end,
             detect rules (prefix ++ Tree t :: rest) c = Ok (txt_end, rep_end) ->
             exists st_end later,
               run rules (prefix ++ Tree t :: rest) c = Ok st_end
               /\ txt_end =
                    header_txt +:+ summary_txt st_end +:+ dashes +:+ nl
                    +:+ ((tmp_result_txt st
                          +:+ "#" +:+ of_nat (report_num st) +:+ " ROLE - " +:+ name +:+ nl
                          +:+ (if (0 <? length (used_in_playbooks name))%nat
                               then "(used_in: " +:+ repr_list (used_in_playbooks name)
                                    +:+ ")" +:+ nl
                               else "")
                          +:+ inline_alt extra (taskcalls t) rules
                          +:+ dashes +:+ nl)
                         +:+ later)
                    +:+ tables_txt st_end)
    /\ (n = 0 ->
        detect rules (prefix ++ [Tree t]) c =
          Ok (header_txt +:+ summary_txt st' +:+ dashes +:+ nl
              +:+ tmp_result_txt st +:+ tables_txt st', rep)
        /\ report_num st' = report_num st
        /\ risk (role_count st') = risk (role_count st)
        /\ od_get "roles" (summary rep) =
             Some {| summary_total := total (role_count st) + 1;
                     risk_found := risk (role_count st) |}
        /\ forall rest txt_end rep_end,
             detect rules (prefix ++ Tree t :: rest) c = Ok (txt_end, rep_end) ->
             exists st_end later,
               run rules (prefix ++ Tree t :: rest) c = Ok st_end
               /\ txt_end =
                    header_txt +:+ summary_txt st_end +:+ dashes +:+ nl
                    +:+ (tmp_result_txt st +:+ later)
                    +:+ tables_txt st_end).
Proof.
  intros Hd Hrun Ht extra n used_in_playbooks. subst extra used_in_playbooks.
  assert (exists name, key2name (root_key t) = Ok (Some name)) as [name Hn].
  { unfold key2name, py_split. rewrite Ht.
    rewrite bool_decide_eq_false_2 by done. rewrite bool_decide_eq_true_2 by done.
    destruct key_delimiter; [done|]. cbn. eauto. }
  assert (detect_type (root_key t) <> "playbook") as Hnp by (by rewrite Ht).
  destruct (detect_snoc_not_playbook rules c prefix st t (Some name) Hrun Hnp Hn)
    as (st' & Hst & Hrun' & Hdet).
  destruct (tree_body_not_playbook_report rules (extra_check_args_of c) st t (Some name) Hnp Hn)
    as (st1 & Hst1 & Htot & _ & _ & Hyes & Hno).
  assert (st1 = st') as -> by congruence.
  exists name, st', {| summary := summary_of st; details := details_of st |},
    {| summary := summary_of st'; details := details_of st' |}.
  split; [done|]. split; [done|]. split; [by apply detect_of_run|].
  rewrite Ht in Hdet. split.
  - intros Hge. assert (existsb (inline_match (extra_check_args_of c) (taskcalls t)) rules = true) as He
      by (by apply existsb_filter_length).
    rewrite He in Hdet. destruct (Hyes He) as (Hnum & Hrisk & Htxt).
    split; [|split; [done|split; [done|split]]].
    + rewrite Hdet. reflexivity.
    + cbn [summary]. apply roles_entry_of. rewrite Htot, Hrisk. split; [lia | done].
    + intros rest txt_end rep_end Hend.
      change (prefix ++ Tree t :: rest) with (prefix ++ [Tree t] ++ rest) in Hend |- *.
      rewrite app_assoc in Hend |- *.
      destruct (detect_keeps_prefix_block _ _ _ _ _ _ _ Hrun' Hend)
        as (st_end & later & Hrun_end & ->).
      exists st_end, later. split; [done|]. rewrite Htxt, Ht. reflexivity.
  - intros Hz. assert (existsb (inline_match (extra_check_args_of c) (taskcalls t)) rules = false) as He.
    { destruct (existsb _ rules) eqn:He; [|done].
      apply existsb_filter_length in He. unfold n in Hz. lia. }
    rewrite He in Hdet. destruct (Hno He) as (Hnum & Hrisk & Htxt).
    split; [|split; [done|split; [done|split]]].
    + rewrite Hdet. by rewrite app_nil_r_str.
    + cbn [summary]. apply roles_entry_of. rewrite Htot, Hrisk. split; [lia | done].
    + intros rest txt_end rep_end Hend.
      change (prefix ++ Tree t :: rest) with (prefix ++ [Tree t] ++ rest) in Hend |- *.
      rewrite app_assoc in Hend |- *.
      destruct (detect_keeps_prefix_block _ _ _ _ _ _ _ Hrun' Hend)
        as (st_end & later & Hrun_end & ->).
      exists st_end, later. split; [done|]. by rewrite Htxt.
Qed.

End NumberedSections.

Section SectionNumbersAndUsedIn.
Context `{Imports}.

Lemma count_if_app {A : Type} (f : A -> bool) (l1 l2 : list A) :
  count_if f (l1 ++ l2) = count_if f l1 + count_if f l2.
Proof. induction l1 as [|x l1 IH]; cbn; [done|]. rewrite IH. lia. Qed.

(** X2: the numbered sections of the narrative that [detect] returns are
    numbered 1, 2, ... in processing order: when a tree that is not a
    playbook and matches an enabled inline rule is processed after a prefix
    of the forest of which k trees got a section, the narrative is that of
    the prefix with one section more at the end of the block of numbered
    sections, and this section starts with the number sign, the number
    1 + k, the upper-cased root type and the name. *)
Theorem incident_sections_are_numbered_in_order rules c prefix st t name :
  run rules prefix c = Ok st ->
  detect_type (root_key t) <> "playbook" ->
  key2name (root_key t) = Ok name ->
  existsb (inline_match (extra_check_args_of c) (taskcalls t)) rules = true ->
  let extra := extra_check_args_of c in
  let k := count_if (is_risky_item extra rules) prefix in
  let used_in_playbooks := mapping_get (role_to_playbook_mappings st) name in
  exists st' rep0 rep,
    run rules (prefix ++ [Tree t]) c = Ok st'
    /\ detect rules prefix c =
         Ok (header_txt +:+ summary_txt st +:+ dashes +:+ nl
             +:+ tmp_result_txt st +:+ tables_txt st, rep0)
    /\ detect rules (prefix ++ [Tree t]) c =
         Ok (header_txt +:+ summary_txt st' +:+ dashes +:+ nl
             +:+ (tmp_result_txt st
                  +:+ "#" +:+ of_nat (1 + k) +:+ " "
                  +:+ upper (detect_type (root_key t)) +:+ " - " +:+ of_opt name +:+ nl
                  +:+ (if (0 <? length used_in_playbooks)%nat
                       then "(used_in: " +:+ repr_list used_in_playbooks +:+ ")" +:+ nl
                       else "")
                  +:+ inline_alt extra (taskcalls t) rules
                  +:+ dashes +:+ nl)
             +:+ tables_txt st', rep)
    /\ count_if (is_risky_item extra rules) (prefix ++ [Tree t]) = k + 1.
Proof.
  intros Hrun Ht Hn Hm extra k used_in_playbooks. subst extra k used_in_playbooks.
  destruct (detect_snoc_not_playbook rules c prefix st t name Hrun Ht Hn)
    as (st' & Hst & Hrun' & Hdet).
  destruct (for_each_counts _ _ _ _ _ Hrun) as (_ & _ & _ & Hnum). cbn in Hnum.
  exists st', {| summary := summary_of st; details := details_of st |},
    {| summary := summary_of st'; details := details_of st' |}.
  split; [done|]. split; [by apply detect_of_run|]. split.
  - rewrite Hdet, Hm, Hnum. reflexivity.
  - rewrite count_if_app. cbn. unfold is_playbook_key.
    rewrite (bool_decide_eq_false_2 _ Ht), Hm. cbn. lia.
Qed.

Lemma plain_char_facts (c : ascii) :
  plain_char c = true ->
  32 <= ord c /\ ord c < 127 /\ ord c <> 39 /\ ord c <> 92.
Proof.
  unfold plain_char. cbv zeta.
  intros [[[H1%Nat.leb_le H2%Nat.ltb_lt]%andb_true_iff
            H3%negb_true_iff%Nat.eqb_neq]%andb_true_iff
           H4%negb_true_iff%Nat.eqb_neq]%andb_true_iff.
  done.
Qed.

Lemma eqb_false (n m : nat) : n <> m -> (n =? m)%nat = false.
Proof. by intros ?%Nat.eqb_neq. Qed.

Lemma ltb_false (n m : nat) : m <= n -> (n <? m)%nat = false.
Proof. by intros ?%Nat.ltb_ge. Qed.

Lemma repr_char_plain (c : ascii) :
  plain_char c = true -> repr_char (chr 39) c = String c "".
Proof.
  intros (H1 & H2 & H3 & H4)%plain_char_facts. unfold repr_char. cbv zeta.
  change (ord (chr 39)) with 39.
  rewrite !eqb_false by lia. rewrite ltb_false by lia. done.
Qed.

Lemma repr_body_plain (s : string) :
  plain_name s = true -> repr_body (chr 39) s = s.
Proof.
  induction s as [|c s IH]; [done|]. cbn [plain_name repr_body].
  intros [Hc Hs]%andb_true_iff. by rewrite repr_char_plain, IH.
Qed.

Lemma contains_quote_plain (s : string) :
  plain_name s = true -> contains_char (chr 39) s = false.
Proof.
  induction s as [|c s IH]; [done|]. cbn [plain_name contains_char].
  intros [(_ & _ & H3 & _)%plain_char_facts Hs]%andb_true_iff.
  change (ord (chr 39)) with 39. rewrite eqb_false by lia. by apply IH.
Qed.

Lemma repr_str_plain (s : string) :
  plain_name s = true -> repr_str s = "'" +:+ s +:+ "'".
Proof.
  intros Hs. unfold repr_str. rewrite contains_quote_plain by done.
  cbn [andb]. by rewrite repr_body_plain.
Qed.

Lemma repr_list_plain (l : list string) :
  forallb plain_name l = true ->
  repr_list l = "[" +:+ join ", " ((fun p => "'" +:+ p +:+ "'") <$> l) +:+ "]".
Proof.
  intros Hl. unfold repr_list.
  assert (repr_str <$> l = (fun p => "'" +:+ p +:+ "'") <$> l) as ->; [|done].
  induction l as [|p l IH]; [done|]. cbn in Hl.
  apply andb_true_iff in Hl as [Hp Hl]. by rewrite !fmap_cons, repr_str_plain, IH.
Qed.

(** X17: the order of the forest decides the used_in line of the narrative
    that [detect] returns: when a role tree that matches an enabled inline
    rule is processed after a prefix of the forest, the section that the
    narrative gains for it has, after its heading, the line used_in with a
    list in brackets, and this list holds, each once, exactly the names of
    the playbook trees of the prefix that have a task defined in that role;
    the line is left out when there is none.  The list is the one that the
    mapping from roles to playbooks holds for the role when the prefix has
    been processed, so playbooks that come later in the forest are not in
    it.  Names of printable characters
    without a quote or a backslash are printed between single quotes and
    separated by a comma and a space. *)
Theorem narrative_used_in_lists_earlier_playbooks rules c prefix st t role :
  run rules prefix c = Ok st ->
  detect_type (root_key t) <> "playbook" ->
  key2name (root_key t) = Ok (Some role) ->
  existsb (inline_match (extra_check_args_of c) (taskcalls t)) rules = true ->
  let used_in := mapping_get (role_to_playbook_mappings st) (Some role) in
  exists st' rep0 rep,
    run rules (prefix ++ [Tree t]) c = Ok st'
    /\ detect rules prefix c =
         Ok (header_txt +:+ summary_txt st +:+ dashes +:+ nl
             +:+ tmp_result_txt st +:+ tables_txt st, rep0)
    /\ detect rules (prefix ++ [Tree t]) c =
         Ok (header_txt +:+ summary_txt st' +:+ dashes +:+ nl
             +:+ (tmp_result_txt st
                  +:+ "#" +:+ of_nat (report_num st) +:+ " "
                  +:+ upper (detect_type (root_key t)) +:+ " - " +:+ role +:+ nl
                  +:+ (if (0 <? length used_in)%nat
                       then "(used_in: " +:+ repr_list used_in +:+ ")" +:+ nl
                       else "")
                  +:+ inline_alt (extra_check_args_of c) (taskcalls t) rules
                  +:+ dashes +:+ nl)
             +:+ tables_txt st', rep)
    /\ NoDup used_in
    /\ (forall p, p ∈ used_in <->
          exists item, item ∈ prefix /\ from_playbook_tree item role p)
    /\ (forallb plain_name used_in = true ->
        repr_list used_in
        = "[" +:+ join ", " ((fun p => "'" +:+ p +:+ "'") <$> used_in) +:+ "]").
Proof.
  intros Hrun Ht Hn Hm used_in. subst used_in.
  destruct (detect_snoc_not_playbook rules c prefix st t (Some role) Hrun Ht Hn)
    as (st' & Hst & Hrun' & Hdet).
  exists st', {| summary := summary_of st; details := details_of st |},
    {| summary := summary_of st'; details := details_of st' |}.
  split; [done|]. split; [by apply detect_of_run|]. split.
  { rewrite Hdet, Hm. reflexivity. }
  assert (mapping_nodup (role_to_playbook_mappings st)) as Hnd.
  { apply (for_each_mapping_nodup _ _ _ _ _ Hrun). by intros ? ? ?. }
  assert (forall p, linked (role_to_playbook_mappings st) role p <->
            exists item, item ∈ prefix /\ from_playbook_tree item role p) as Hiff.
  { intros p. rewrite (for_each_linked_iff _ _ _ _ _ role p Hrun). split; [|auto].
    by intros [(l & Hl & _)|?]. }
  split; [|split; [|apply repr_list_plain]].
  - cbn. destruct (role_to_playbook_mappings st !! role) as [l|] eqn:Hl; cbn.
    + by eapply Hnd.
    + constructor.
  - intros p. rewrite <- Hiff. unfold linked. cbn.
    destruct (role_to_playbook_mappings st !! role) as [l|] eqn:Hl; cbn; split.
    + intros Hp. by exists l.
    + by intros (l0 & [= <-] & ?).
    + by intros ?%elem_of_nil.
    + by intros (l0 & [=] & _).
Qed.

End SectionNumbersAndUsedIn.

(** ** The records and rows that one tree adds *)

Section TreeRecords.
Context `{Imports}.

Lemma rule_body_records extra ty name tasks m acc r label :
  records_of label (acc_result_dict (rule_body extra ty name false tasks m acc r))
  = records_of label (acc_result_dict acc)
    ++ (if enabled_match extra tasks r && bool_decide (Rule.name r = label)
        then [{| rec_type := ty; rec_name := name;
                 rec_message := (Rule.check r tasks extra).2;
                 rec_playbooks := if Rule.separate_report r then None
                                  else Some (mapping_ref m name) |}]
        else []).
Proof.
  unfold rule_body, enabled_match.
  destruct (Rule.enabled r); cbn -[records_of]; [|by rewrite app_nil_r].
  destruct (Rule.check r tasks extra) as [matched message]; cbn -[records_of].
  destruct matched, (Rule.separate_report r); cbn -[records_of];
    rewrite ?app_nil_r, ?records_of_append; try done;
    case_bool_decide; by rewrite ?app_nil_r.
Qed.

Lemma foldl_rule_body_records extra ty name tasks m rules acc label :
  records_of label
    (acc_result_dict (foldl (rule_body extra ty name false tasks m) acc rules))
  = records_of label (acc_result_dict acc)
    ++ ((fun r => {| rec_type := ty; rec_name := name;
                     rec_message := (Rule.check r tasks extra).2;
                     rec_playbooks := if Rule.separate_report r then None
                                      else Some (mapping_ref m name) |})
        <$> filter (fun r => enabled_match extra tasks r
                             && bool_decide (Rule.name r = label) = true) rules).
Proof.
  revert acc. induction rules as [|r rules IH]; intros acc.
  - cbn. by rewrite app_nil_r.
  - change (foldl ?f acc (r :: rules)) with (foldl f (f acc r) rules).
    rewrite IH, rule_body_records, filter_cons, <- app_assoc. f_equal.
    destruct (enabled_match extra tasks r && bool_decide (Rule.name r = label)).
    + by rewrite decide_True.
    + by rewrite decide_False.
Qed.

Lemma od_get_not_key {V : Type} (k : string) (d : odict V) :
  k ∉ d.*1 -> od_get k d = None.
Proof.
  intros Hk. destruct (od_get k d) as [v|] eqn:Hv; [|done].
  destruct Hk. apply list_elem_of_fmap. exists (k, v). split; [done|].
  by apply od_get_elem_of.
Qed.

Lemma details_results_get m (d : odict (list ResultRecord)) label :
  NoDup d.*1 ->
  details_results label
    ((fun '(rule_name, records) =>
        {| rule := rule_name; results := resolve m <$> records |}) <$> d)
  = resolve m <$> records_of label d.
Proof.
  unfold details_results, records_of.
  induction d as [|[k v] d IH]; [done|]. intros [Hk Hd]%NoDup_cons.
  rewrite fmap_cons, filter_cons. cbn [rule od_get].
  case_decide as Hkl; case_bool_decide; try done.
  - subst k. cbn in Hk. rewrite fmap_cons, concat_cons. cbn [results].
    rewrite (IH Hd), (od_get_not_key _ _ Hk). cbn. by rewrite app_nil_r.
  - by apply IH.
Qed.

Lemma details_results_of st label :
  NoDup (result_dict st).*1 ->
  details_results label (details_of st)
  = resolve (role_to_playbook_mappings st) <$> records_of label (result_dict st).
Proof. apply details_results_get. Qed.

Lemma run_keys_nodup rules forest c st :
  run rules forest c = Ok st ->
  NoDup (result_dict st).*1 /\ NoDup (separate_report st).*1.
Proof.
  intros Hrun. eapply for_each_keys_nodup; [exact Hrun|]. split; constructor.
Qed.

(** C1, amended: [detect] skips the elements of the forest that are not
    [TaskCallsInTree] objects, and only those: the reports of a forest with
    such an element are the reports of the forest without it.  A tree whose
    root key parses to neither playbook nor role is not skipped.  Processed
    after any prefix of the forest, [key2name] gives it the name None and
    it is handled as a role tree: the total of roles is one more and the
    total of playbooks is the same; every enabled tabulated rule that
    matches it adds one row with its type and the name None to the table
    of its name; every enabled rule that matches it adds one record with
    its type and the name None to the results under its name in the
    details; and when an enabled inline rule matches it, the narrative
    gains one numbered section, which starts with the number sign, the
    current incident number, the upper-cased type and the name None and
    has no used_in line, and the risk count of the roles is one more. *)
Theorem unknown_root_tree_is_processed_as_role rules c :
  (forall l1 l2, detect rules (l1 ++ NotATree :: l2) c = detect rules (l1 ++ l2) c)
  /\ (forall prefix st t,
        run rules prefix c = Ok st ->
        detect_type (root_key t) <> "playbook" ->
        detect_type (root_key t) <> "role" ->
        let extra := extra_check_args_of c in
        let ty := detect_type (root_key t) in
        let tasks := taskcalls t in
        let risky := if existsb (inline_match extra tasks) rules then 1 else 0 in
        exists st' rep0 rep,
          key2name (root_key t) = Ok None
          /\ run rules (prefix ++ [Tree t]) c = Ok st'
          /\ detect rules prefix c =
               Ok (header_txt +:+ summary_txt st +:+ dashes +:+ nl
                   +:+ tmp_result_txt st +:+ tables_txt st, rep0)
          /\ detect rules (prefix ++ [Tree t]) c =
               Ok (header_txt +:+ summary_txt st' +:+ dashes +:+ nl
                   +:+ (tmp_result_txt st
                        +:+ (if existsb (inline_match extra tasks) rules
                             then "#" +:+ of_nat (report_num st) +:+ " " +:+ upper ty
                                  +:+ " - None" +:+ nl
                                  +:+ inline_alt extra tasks rules
                                  +:+ dashes +:+ nl
                             else ""))
                   +:+ tables_txt st', rep)
          /\ total (playbook_count st') = total (playbook_count st)
          /\ total (role_count st') = total (role_count st) + 1
          /\ risk (role_count st') = risk (role_count st) + risky
          /\ report_num st' = report_num st + risky
          /\ od_get "roles" (summary rep) =
               Some {| summary_total := total (role_count st) + 1;
                       risk_found := risk (role_count st) + risky |}
          /\ (forall label,
                rows_of label (separate_report st')
                = rows_of label (separate_report st)
                  ++ (table_row extra ty None tasks
                      <$> filter (fun r => in_table extra tasks label r = true) rules))
          /\ (forall label,
                details_results label (details rep)
                = details_results label (details rep0)
                  ++ ((fun r => {| type_ := ty; name_ := None;
                                   message_ := (Rule.check r tasks extra).2;
                                   playbooks_use_this_role :=
                                     if Rule.separate_report r then None else Some [] |})
                      <$> filter (fun r => enabled_match extra tasks r
                                           && bool_decide (Rule.name r = label) = true)
                                 rules))).
Proof.
  split.
  { intros l1 l2. unfold detect. by rewrite run_skip_not_a_tree. }
  intros prefix st t Hrun H1 H2 extra ty tasks risky. subst extra ty tasks risky.
  pose proof (key2name_other _ H1 H2) as Hn.
  destruct (detect_snoc_not_playbook rules c prefix st t None Hrun H1 Hn)
    as (st' & Hst & Hrun' & Hdet).
  destruct (tree_body_not_playbook_report rules (extra_check_args_of c) st t None H1 Hn)
    as (st1 & Hst1 & Htot & Hpb & Hmap & Hyes & Hno).
  assert (st1 = st') as -> by congruence.
  exists st', {| summary := summary_of st; details := details_of st |},
    {| summary := summary_of st'; details := details_of st' |}.
  assert (risk (role_count st') = risk (role_count st)
            + (if existsb (inline_match (extra_check_args_of c) (taskcalls t)) rules
               then 1 else 0)
          /\ report_num st' = report_num st
            + (if existsb (inline_match (extra_check_args_of c) (taskcalls t)) rules
               then 1 else 0)) as [Hrisk Hnum].
  { destruct (existsb _ rules).
    - destruct Hyes as (-> & -> & _); done.
    - destruct Hno as (-> & -> & _); [done|]. lia. }
  split; [done|]. split; [done|]. split; [by apply detect_of_run|].
  split; [rewrite Hdet; reflexivity|].
  split; [by rewrite Hpb|]. split; [done|]. split; [done|]. split; [done|].
  split; [|split].
  - cbn [summary]. apply roles_entry_of. rewrite Htot, Hrisk. split; [lia | done].
  - intros label. rewrite (tree_body_rows _ _ _ _ _ label Hst). cbn. by rewrite Hn.
  - intros label. cbn [details].
    destruct (run_keys_nodup _ _ _ _ Hrun) as [Hd _].
    destruct (run_keys_nodup _ _ _ _ Hrun') as [Hd' _].
    rewrite !details_results_of by done. rewrite Hmap.
    rewrite (tree_body_not_playbook _ _ _ _ _ H1 Hn) in Hst. injection Hst as <-.
    edestruct close_tree_result_dict as (-> & _ & _).
    unfold rule_loop. rewrite foldl_rule_body_records. cbn [acc_result_dict].
    rewrite fmap_app, <- list_fmap_compose. f_equal.
    apply list_fmap_ext. intros _ r _. unfold resolve. cbn.
    by destruct (Rule.separate_report r).
Qed.

(** X9: no finding of a tabulated rule is lost to the structured report.
    For every rule name, the results that the details of the report hold
    under that name and that have no list of playbooks are the rows of the
    table of that name in the narrative, one result per row, in the same
    order and with the same type, name and message; when the table has a
    row, the details do have an entry of that name; and an entry of that
    name holds all the results of that name. *)
Theorem table_rows_are_all_in_details rules forest c st label :
  run rules forest c = Ok st ->
  exists rep,
    detect rules forest c =
      Ok (header_txt +:+ summary_txt st +:+ dashes +:+ nl +:+ tmp_result_txt st
          +:+ tables_txt st, rep)
    /\ filter (fun x => is_table_report_record x = true)
         (details_results label (details rep))
       = row_report_record <$> rows_of label (separate_report st)
    /\ (rows_of label (separate_report st) <> [] ->
        exists e, e ∈ details rep /\ rule e = label)
    /\ (forall e, e ∈ details rep -> rule e = label ->
        results e = details_results label (details rep)).
Proof.
  intros Hrun. exists {| summary := summary_of st; details := details_of st |}.
  split; [by apply detect_of_run|]. cbn [details].
  destruct (run_keys_nodup _ _ _ _ Hrun) as [Hd _].
  pose proof (table_rows_mirror_records rules forest c st label Hrun) as Hm.
  rewrite details_results_of by done.
  assert (filter (fun x => is_table_report_record x = true)
            (resolve (role_to_playbook_mappings st) <$> records_of label (result_dict st))
          = row_report_record <$> rows_of label (separate_report st)) as Hrows.
  { rewrite filter_resolve, Hm, <- list_fmap_compose.
    apply list_fmap_ext. by intros _ [] _. }
  split; [done|]. split.
  - intros Hne. apply details_of_rule, od_mem_get.
    destruct (od_get label (result_dict st)) as [v|] eqn:Hv; [by eexists|].
    unfold records_of in Hrows. rewrite Hv in Hrows. cbn in Hrows.
    by destruct (rows_of label (separate_report st)).
  - intros e ([k v] & -> & Hin)%list_elem_of_fmap Hk. cbn in Hk. subst k. cbn.
    unfold records_of. by rewrite (od_get_nodup label v _ Hd Hin).
Qed.

End TreeRecords.

(** ** [indent] at any level *)

Section IndentLevels.

Lemma indent_lines (s : string) (a : nat) :
  Forall (fun l => no_break l = true /\ l <> "")
    (pad a <$> filter (fun line => not_blank line = true) (splitlines s)).
Proof.
  apply Forall_fmap, Forall_forall. intros l [Hnb Hin]%list_elem_of_filter. cbn.
  rewrite no_break_pad. split.
  - pose proof (splitlines_go_no_break "" false s eq_refl) as Hall.
    rewrite Forall_forall in Hall. by apply Hall.
  - apply not_blank_not_empty. by rewrite not_blank_pad.
Qed.

Lemma indent_int_nat (s : string) (level : Z) :
  indent_int s level = indent s (Z.to_nat level).
Proof. reflexivity. Qed.

(** X14: [indent] composes, at levels that are any integers.  A negative
    level pads with nothing, as level 0 does, so indenting by [a] and then
    by [b] is indenting once by max(0, a) + max(0, b); for levels that are
    not negative that is the sum, and indenting by 0 a second time changes
    nothing.  The reason is the shape of an indented text: its lines are
    the lines of the text that are not blank, each after max(0, a) spaces,
    none of them empty or with a line boundary inside, and they are joined
    by line feeds, whatever boundaries the text had.  At a level that is a
    natural number this is the [indent] that [detect] calls. *)
Theorem indent_int_composes (s : string) (a b : Z) :
  indent_int (indent_int s a) b = indent_int s (Z.max 0 a + Z.max 0 b)
  /\ ((0 <= a)%Z -> (0 <= b)%Z ->
      indent_int (indent_int s a) b = indent_int s (a + b))
  /\ ((a < 0)%Z -> indent_int s a = indent_int s 0)
  /\ indent_int (indent_int s 0) 0 = indent_int s 0
  /\ (forall n : nat, indent_int s (Z.of_nat n) = indent s n)
  /\ indent_int s a
     = join nl (pad (Z.to_nat (Z.max 0 a))
                <$> filter (fun line => not_blank line = true) (splitlines s))
  /\ splitlines (indent_int s a)
     = pad (Z.to_nat (Z.max 0 a))
       <$> filter (fun line => not_blank line = true) (splitlines s)
  /\ Forall (fun l => no_break l = true /\ not_blank l = true)
       (splitlines (indent_int s a)).
Proof.
  assert (forall x y, indent_int (indent_int s x) y
                      = indent_int s (Z.max 0 x + Z.max 0 y)) as Hc.
  { intros x y. rewrite !indent_int_nat, indent_indent. f_equal. lia. }
  assert (Z.to_nat (Z.max 0 a) = Z.to_nat a) as Ha by lia.
  assert (splitlines (indent_int s a)
          = pad (Z.to_nat a) <$> filter (fun line => not_blank line = true) (splitlines s))
    as Hs.
  { rewrite indent_int_nat. unfold indent.
    apply (splitlines_join _ (indent_lines s (Z.to_nat a))). }
  split; [apply Hc|]. split; [|split; [|split; [|split; [|split; [|split]]]]].
  - intros H0a H0b. rewrite Hc. f_equal. lia.
  - intros Hneg. rewrite !indent_int_nat. f_equal. lia.
  - apply Hc.
  - intros n. rewrite indent_int_nat. f_equal. lia.
  - rewrite indent_int_nat, Ha. reflexivity.
  - by rewrite Ha.
  - rewrite Hs. apply Forall_fmap, Forall_forall.
    intros l [Hnb Hin]%list_elem_of_filter. cbn.
    rewrite no_break_pad, not_blank_pad. split; [|done].
    pose proof (splitlines_go_no_break "" false s eq_refl) as Hall.
    rewrite Forall_forall in Hall. by apply Hall.
Qed.

End IndentLevels.

(** ** Runs of the narrative theorems on the examples *)

Section NarrativeRuns.
Import Examples SpecImports.

Lemma role_tree_gets_one_numbered_section_witness :
  exists rep,
    detect [inline_rule] [Tree playbook0; Tree role_R] "" =
      Ok (dashes +:+ nl +:+ "Ansible Risk Insight Report" +:+ nl +:+ dashes +:+ nl
          +:+ "Playbooks" +:+ nl +:+ "  Total: 1" +:+ nl +:+ "  Risk Found: 1" +:+ nl
          +:+ "Roles" +:+ nl +:+ "  Total: 1" +:+ nl +:+ "  Risk Found: 1" +:+ nl
          +:+ dashes +:+ nl
          +:+ "#1 ROLE - R" +:+ nl
          +:+ "(used_in: ['p0.yml'])" +:+ nl
          +:+ "InlineRule" +:+ nl +:+ "a task was found" +:+ nl
          +:+ dashes +:+ nl, rep)
    /\ od_get "roles" (summary rep) = Some {| summary_total := 1; risk_found := 1 |}.
Proof.
  assert (key_delimiter <> "") as Hd by (by vm_compute).
  assert (run [inline_rule] [Tree playbook0] ""
          = Ok (state_after [inline_rule] [Tree playbook0])) as Hrun
    by (vm_compute; reflexivity).
  assert (detect_type (root_key role_R) = "role") as Ht by (vm_compute; reflexivity).
  pose proof (role_tree_gets_one_numbered_section [inline_rule] "" [Tree playbook0]
                _ role_R Hd Hrun Ht) as Hw.
  cbv zeta in Hw. destruct Hw as (name & st' & rep0 & rep & Hn & Hrun' & _ & Hyes & _).
  destruct Hyes as (Hdet & _ & _ & Hsum & _); [vm_compute; lia|].
  vm_compute in Hn. injection Hn as <-.
  exists rep. split.
  - change [Tree playbook0; Tree role_R] with ([Tree playbook0] ++ [Tree role_R]).
    rewrite Hdet. vm_compute in Hrun'. injection Hrun' as <-.
    vm_compute. reflexivity.
  - rewrite Hsum. vm_compute. reflexivity.
Defined.

Lemma unknown_root_tree_is_processed_as_role_witness :
  exists rep,
    detect [inline_rule; table_rule] [Tree unknown_tree] "" =
      Ok (dashes +:+ nl +:+ "Ansible Risk Insight Report" +:+ nl +:+ dashes +:+ nl
          +:+ "Roles" +:+ nl +:+ "  Total: 1" +:+ nl +:+ "  Risk Found: 1" +:+ nl
          +:+ dashes +:+ nl
          +:+ "#1 TASK - None" +:+ nl
          +:+ "InlineRule" +:+ nl +:+ "a task was found" +:+ nl
          +:+ dashes +:+ nl
          +:+ "TableRule" +:+ nl
          +:+ "task  None  this tree has tasks" +:+ nl
          +:+ dashes +:+ nl, rep)
    /\ od_get "roles" (summary rep) = Some {| summary_total := 1; risk_found := 1 |}
    /\ details_results "InlineRule" (details rep)
       = [{| type_ := "task"; name_ := None; message_ := "a task was found";
             playbooks_use_this_role := Some [] |}]
    /\ details_results "TableRule" (details rep)
       = [{| type_ := "task"; name_ := None; message_ := "this tree has tasks";
             playbooks_use_this_role := None |}].
Proof.
  assert (run [inline_rule; table_rule] [] "" = Ok init) as Hrun by reflexivity.
  assert (detect_type (root_key unknown_tree) <> "playbook") as H1 by (by vm_compute).
  assert (detect_type (root_key unknown_tree) <> "role") as H2 by (by vm_compute).
  pose proof (proj2 (unknown_root_tree_is_processed_as_role [inline_rule; table_rule] "")
                [] init unknown_tree Hrun H1 H2) as Hw.
  cbv zeta in Hw.
  destruct Hw as (st' & rep0 & rep & _ & Hrun' & Hdet0 & Hdet & _ & _ & _ & _ & Hsum & _ & Hrec).
  assert (details rep0 = []) as Hrep0.
  { vm_compute in Hdet0. by injection Hdet0 as <-. }
  exists rep. split; [|split; [|split]].
  - change [Tree unknown_tree] with ([] ++ [Tree unknown_tree]).
    rewrite Hdet. vm_compute in Hrun'. injection Hrun' as <-.
    vm_compute. reflexivity.
  - rewrite Hsum. vm_compute. reflexivity.
  - rewrite Hrec, Hrep0. vm_compute. reflexivity.
  - rewrite Hrec, Hrep0. vm_compute. reflexivity.
Defined.

Lemma incident_sections_are_numbered_in_order_witness :
  exists rep,
    detect [inline_rule] [Tree role_R; Tree role_S] "" =
      Ok (dashes +:+ nl +:+ "Ansible Risk Insight Report" +:+ nl +:+ dashes +:+ nl
          +:+ "Roles" +:+ nl +:+ "  Total: 2" +:+ nl +:+ "  Risk Found: 2" +:+ nl
          +:+ dashes +:+ nl
          +:+ "#1 ROLE - R" +:+ nl
          +:+ "InlineRule" +:+ nl +:+ "a task was found" +:+ nl
          +:+ dashes +:+ nl
          +:+ "#2 ROLE - S" +:+ nl
          +:+ "InlineRule" +:+ nl +:+ "a task was found" +:+ nl
          +:+ dashes +:+ nl, rep).
Proof.
  assert (run [inline_rule] [Tree role_R] ""
          = Ok (state_after [inline_rule] [Tree role_R])) as Hrun
    by (vm_compute; reflexivity).
  assert (detect_type (root_key role_S) <> "playbook") as Ht by (by vm_compute).
  assert (key2name (root_key role_S) = Ok (Some "S")) as Hn by (vm_compute; reflexivity).
  assert (existsb (inline_match (extra_check_args_of "") (taskcalls role_S)) [inline_rule]
          = true) as Hm by (vm_compute; reflexivity).
  pose proof (incident_sections_are_numbered_in_order [inline_rule] "" [Tree role_R]
                _ role_S (Some "S") Hrun Ht Hn Hm) as Hw.
  cbv zeta in Hw. destruct Hw as (st' & rep0 & rep & Hrun' & _ & Hdet & _).
  exists rep.
  change [Tree role_R; Tree role_S] with ([Tree role_R] ++ [Tree role_S]).
  rewrite Hdet. vm_compute in Hrun'. injection Hrun' as <-.
  vm_compute. reflexivity.
Defined.

Lemma narrative_used_in_lists_earlier_playbooks_witness :
  exists rep,
    detect [inline_rule] [Tree playbook0; Tree playbook1; Tree role_R] "" =
      Ok (dashes +:+ nl +:+ "Ansible Risk Insight Report" +:+ nl +:+ dashes +:+ nl
          +:+ "Playbooks" +:+ nl +:+ "  Total: 2" +:+ nl +:+ "  Risk Found: 2" +:+ nl
          +:+ "Roles" +:+ nl +:+ "  Total: 1" +:+ nl +:+ "  Risk Found: 1" +:+ nl
          +:+ dashes +:+ nl
          +:+ "#1 ROLE - R" +:+ nl
          +:+ "(used_in: ['p0.yml', 'p.yml'])" +:+ nl
          +:+ "InlineRule" +:+ nl +:+ "a task was found" +:+ nl
          +:+ dashes +:+ nl, rep).
Proof.
  assert (run [inline_rule] [Tree playbook0; Tree playbook1] ""
          = Ok (state_after [inline_rule] [Tree playbook0; Tree playbook1])) as Hrun
    by (vm_compute; reflexivity).
  assert (detect_type (root_key role_R) <> "playbook") as Ht by (by vm_compute).
  assert (key2name (root_key role_R) = Ok (Some "R")) as Hn by (vm_compute; reflexivity).
  assert (existsb (inline_match (extra_check_args_of "") (taskcalls role_R)) [inline_rule]
          = true) as Hm by (vm_compute; reflexivity).
  pose proof (narrative_used_in_lists_earlier_playbooks [inline_rule] ""
                [Tree playbook0; Tree playbook1] _ role_R "R" Hrun Ht Hn Hm) as Hw.
  cbv zeta in Hw. destruct Hw as (st' & rep0 & rep & Hrun' & _ & Hdet & _).
  exists rep.
  change [Tree playbook0; Tree playbook1; Tree role_R]
    with ([Tree playbook0; Tree playbook1] ++ [Tree role_R]).
  rewrite Hdet. vm_compute in Hrun'. injection Hrun' as <-.
  vm_compute. reflexivity.
Defined.

Lemma table_rows_are_all_in_details_witness :
  exists rep,
    detect [inline_rule; table_rule] [Tree playbook0; Tree role_R] "" =
      Ok (dashes +:+ nl +:+ "Ansible Risk Insight Report" +:+ nl +:+ dashes +:+ nl
          +:+ "Playbooks" +:+ nl +:+ "  Total: 1" +:+ nl +:+ "  Risk Found: 1" +:+ nl
          +:+ "Roles" +:+ nl +:+ "  Total: 1" +:+ nl +:+ "  Risk Found: 1" +:+ nl
          +:+ dashes +:+ nl
          +:+ "#1 ROLE - R" +:+ nl
          +:+ "(used_in: ['p0.yml'])" +:+ nl
          +:+ "InlineRule" +:+ nl +:+ "a task was found" +:+ nl
          +:+ dashes +:+ nl
          +:+ "TableRule" +:+ nl
          +:+ "playbook  p0.yml  this tree has tasks" +:+ nl
          +:+ "role  R  this tree has tasks" +:+ nl
          +:+ dashes +:+ nl, rep)
    /\ filter (fun x => is_table_report_record x = true)
         (details_results "TableRule" (details rep))
       = [{| type_ := "playbook"; name_ := Some "p0.yml";
             message_ := "this tree has tasks"; playbooks_use_this_role := None |};
          {| type_ := "role"; name_ := Some "R";
             message_ := "this tree has tasks"; playbooks_use_this_role := None |}]
    /\ exists e, e ∈ details rep /\ rule e = "TableRule".
Proof.
  assert (run [inline_rule; table_rule] [Tree playbook0; Tree role_R] ""
          = Ok (state_after [inline_rule; table_rule] [Tree playbook0; Tree role_R]))
    as Hrun by (vm_compute; reflexivity).
  destruct (table_rows_are_all_in_details [inline_rule; table_rule]
              [Tree playbook0; Tree role_R] "" _ "TableRule" Hrun)
    as (rep & Hdet & Hrows & Hentry & _).
  exists rep. split; [|split].
  - rewrite Hdet. vm_compute. reflexivity.
  - rewrite Hrows. vm_compute. reflexivity.
  - apply Hentry. by vm_compute.
Defined.

Lemma indent_int_composes_witness :
  indent_int (indent_int (" a" +:+ nl +:+ "   " +:+ nl +:+ "b") (-1)) 2
    = "   a" +:+ nl +:+ "  b"
  /\ indent_int (indent_int (" a" +:+ nl +:+ "   " +:+ nl +:+ "b") 1) 2
     = "    a" +:+ nl +:+ "   b".
Proof.
  split.
  - rewrite (proj1 (indent_int_composes (" a" +:+ nl +:+ "   " +:+ nl +:+ "b") (-1) 2)).
    vm_compute. reflexivity.
  - rewrite (proj1 (proj2 (indent_int_composes (" a" +:+ nl +:+ "   " +:+ nl +:+ "b") 1 2)))
      by lia.
    vm_compute. reflexivity.
Defined.

End NarrativeRuns.
